(** * Concept Activation Network: a shallow embedding of [concept-network.js]
    and [session-manager.js]

    The development follows the source files top to bottom: the JavaScript
    [Map] (an insertion-ordered dictionary), the [ConceptNode] class, the
    [ConceptNetwork] class with its methods written in a small state and
    exception monad over the network object, and the [SessionManager] class
    with its methods as functions on the map of sessions; then the
    vocabulary of the statements, and the theorems.

    Numbers.  JavaScript numbers are modelled by the real numbers of the
    Standard Library: [+], [-], [*], [/], [Math.exp], [Math.abs], [Math.min]
    and [Math.max] are the exact operations, so rounding, [NaN] and overflow
    of binary64 are outside this model.  The only infinite value the source
    writes down, the initial [totalDelta = Infinity] of [runUntilConvergence],
    is kept by the type [Js.Delta].  Counters ([iterationCount], [maxIterations],
    [limit]) are integers.  Where the difference between exact and binary64
    arithmetic decides a statement (the range of [sigmoid], the clamp of a
    weight), the module [Binary64] gives [sigmoid], the round of
    [spreadActivation] and [addConnection] in the arithmetic of the code, on
    the numeric fields of the nodes; what is proved there rests on the
    specification of the binary64 operations in the Standard Library
    ([SpecFloat], [FloatAxioms]).

    Not modelled: the wall-clock [timestamp] of a history entry, and the
    scheduling of the timer that the constructor of [SessionManager] starts
    (what the timer runs is [SessionManager.tick]).  The values drawn from
    [uuidv4()] and, in the session manager, from [new Date()] are arguments
    of the methods that draw them. *)

From Stdlib Require Import Reals Lra List String ZArith Lia Bool Permutation Sorted
  Relations PrimFloat FloatClass SpecFloat FloatOps FloatAxioms.
Import ListNotations.

Local Open Scope string_scope.
Local Open Scope list_scope.
Local Open Scope R_scope.

Set Implicit Arguments.

(* A decimal literal of binary64 denotes the nearest double, as in JavaScript. *)
Set Warnings "-inexact-float".

(* ------------------------------------------------------------------ *)
(** ** JavaScript [Map] with string keys *)

(** A [Map] iterates in insertion order; [set] on a present key keeps the
    key's position, [set] on a fresh key appends.  The entries are kept as
    an association list in iteration order. *)
Module JsMap.

Section Defs.
Variable V : Type.

Definition t := list (string * V).

Definition empty : t := [].

Fixpoint get (k : string) (m : t) : option V :=
  match m with
  | [] => None
  | (k', v) :: m' => if String.eqb k' k then Some v else get k m'
  end.

Definition has (k : string) (m : t) : bool :=
  match get k m with Some _ => true | None => false end.

Fixpoint set (k : string) (v : V) (m : t) : t :=
  match m with
  | [] => [(k, v)]
  | (k', v') :: m' =>
      if String.eqb k' k then (k', v) :: m' else (k', v') :: set k v m'
  end.

(** [delete] answers whether the key was present. *)
Definition remove (k : string) (m : t) : t :=
  filter (fun e => negb (String.eqb (fst e) k)) m.

Definition delete (k : string) (m : t) : bool * t :=
  (has k m, remove k m).

Definition keys (m : t) : list string := map fst m.
Definition values (m : t) : list V := map snd m.
Definition entries (m : t) : list (string * V) := m.
Definition size (m : t) : nat := List.length m.

(** In-place mutation of the object stored under [k] (the source calls a
    method on [this.nodes.get(k)]): the entry keeps its position. *)
Fixpoint update (k : string) (f : V -> V) (m : t) : t :=
  match m with
  | [] => []
  | (k', v) :: m' =>
      if String.eqb k' k then (k', f v) :: m' else (k', v) :: update k f m'
  end.

(** Representation invariant of a [Map]: a key occurs once. *)
Definition wf (m : t) : Prop := NoDup (keys m).
End Defs.

End JsMap.

(* ------------------------------------------------------------------ *)
(** ** [class ConceptNode] *)

Record ConceptNode := mkNode {
  id : string;
  label : string;
  category : option string;
  connections : JsMap.t R;     (* target node id -> edge weight *)
  activation : R;
  prevActivation : R;
  metadata : list (string * string)
}.

(** The object that [toJSON()] returns. *)
Record NodeJSON := mkJSON {
  json_id : string;
  json_label : string;
  json_category : option string;
  json_activation : R;
  json_connectionCount : nat;
  json_metadata : list (string * string)
}.

Module Node.

Definition new (i l : string) (c : option string) : ConceptNode :=
  {| id := i; label := l; category := c; connections := JsMap.empty R;
     activation := 0; prevActivation := 0; metadata := [] |}.

Definition with_connections (n : ConceptNode) (c : JsMap.t R) : ConceptNode :=
  {| id := id n; label := label n; category := category n; connections := c;
     activation := activation n; prevActivation := prevActivation n;
     metadata := metadata n |}.

Definition addConnection (targetId : string) (weight : R) (n : ConceptNode)
  : ConceptNode :=
  with_connections n (JsMap.set targetId weight (connections n)).

Definition removeConnection (targetId : string) (n : ConceptNode)
  : bool * ConceptNode :=
  let (b, c) := JsMap.delete targetId (connections n) in
  (b, with_connections n c).

Definition updateActivation (newValue : R) (n : ConceptNode) : ConceptNode :=
  {| id := id n; label := label n; category := category n;
     connections := connections n;
     activation := newValue; prevActivation := activation n;
     metadata := metadata n |}.

Definition getActivationDelta (n : ConceptNode) : R :=
  Rabs (activation n - prevActivation n).

Definition toJSON (n : ConceptNode) : NodeJSON :=
  {| json_id := id n; json_label := label n; json_category := category n;
     json_activation := activation n;
     json_connectionCount := JsMap.size (connections n);
     json_metadata := metadata n |}.

End Node.

(* ------------------------------------------------------------------ *)
(** ** Operators and array methods of JavaScript used by the class *)

Module Js.

(** [a >= b], [a > b], [a <= b] on numbers. *)
Definition geb (a b : R) : bool := if Rge_dec a b then true else false.
Definition gtb (a b : R) : bool := if Rgt_dec a b then true else false.
Definition leb (a b : R) : bool := if Rle_dec a b then true else false.

(** A number that may be the literal [Infinity]. *)
Inductive Delta : Type :=
| Infinity
| Finite (r : R).

Definition Delta_gtb (d : Delta) (t : R) : bool :=
  match d with Infinity => true | Finite r => gtb r t end.
Definition Delta_leb (d : Delta) (t : R) : bool :=
  match d with Infinity => false | Finite r => leb r t end.

(** [value || fallback] on numbers: [0] is falsy, and so is a missing
    property ([undefined]). *)
Definition or_R (value : option R) (fallback : R) : R :=
  match value with
  | Some v => if Req_dec_T v 0 then fallback else v
  | None => fallback
  end.
Definition or_Z (value : option Z) (fallback : Z) : Z :=
  match value with
  | Some v => if Z.eqb v 0 then fallback else v
  | None => fallback
  end.

(** [Array.prototype.sort(comparefn)]: a stable sort.  With a consistent
    comparator every stable sort returns the same array; it is written
    here as the insertion sort, where [x] goes behind [y] exactly when
    [comparefn(x, y) > 0]. *)
Section Sort.
Variable A : Type.
Variable comparefn : A -> A -> R.

Fixpoint insert (x : A) (l : list A) : list A :=
  match l with
  | [] => [x]
  | y :: l' => if gtb (comparefn x y) 0 then y :: insert x l' else x :: l
  end.

Definition sort (l : list A) : list A := fold_right insert [] l.
End Sort.

(** [Array.prototype.slice(0, end)] for an integer [end]. *)
Definition slice0 {A} (final : Z) (l : list A) : list A :=
  let len := Z.of_nat (List.length l) in
  let final := if (final <? 0)%Z then Z.max (len + final) 0 else Z.min final len in
  firstn (Z.to_nat final) l.

(** [Set.prototype.has] on a set of strings kept as a list. *)
Definition set_has (x : string) (s : list string) : bool :=
  existsb (String.eqb x) s.

End Js.

(* ------------------------------------------------------------------ *)
(** ** [class ConceptNetwork]: the object and the monad of its methods *)

Record Params := mkParams {
  activationThreshold : R;
  decayRate : R;
  maxIterations : Z;
  convergenceThreshold : R
}.

(** One element of an activation snapshot, and also the records returned by
    [getTopActivatedConcepts] and stored in a pattern. *)
Record ConceptInfo := mkInfo {
  info_id : string;
  info_label : string;
  info_activation : R;
  info_category : option string
}.

Record HistoryEntry := mkEntry {
  entry_iteration : Z;
  entry_activations : list ConceptInfo
}.

Record ConceptNetwork := mkNet {
  nodes : JsMap.t ConceptNode;
  activationHistory : list HistoryEntry;
  iterationCount : Z;
  params : Params
}.

Inductive Error : Type :=
| ConceptExists (conceptId : string)      (* "Concept with ID ... already exists" *)
| ConceptNotFound (conceptId : string)    (* "Concept ... not found" *)
| TypeError                               (* property access on [undefined] *)
| OutOfFuel.   (* not an error of JavaScript: a loop of the model used up its
                  fuel; [run_loop_rounds] and [identifyEmergentPatterns_returns]
                  show that it is never raised *)

Inductive Outcome (A : Type) : Type :=
| Return (a : A)
| Throw (e : Error).
Arguments Return {A} a.
Arguments Throw {A} e.

(** A method runs on the network object and either returns or throws; what
    it wrote before throwing stays written. *)
Definition M (A : Type) : Type := ConceptNetwork -> Outcome A * ConceptNetwork.

Definition ret {A} (a : A) : M A := fun s => (Return a, s).
Definition throw {A} (e : Error) : M A := fun s => (Throw e, s).
Definition bind {A B} (c : M A) (k : A -> M B) : M B :=
  fun s => match c s with
           | (Return a, s') => k a s'
           | (Throw e, s') => (Throw e, s')
           end.
Definition this : M ConceptNetwork := fun s => (Return s, s).
Definition set_nodes (m : JsMap.t ConceptNode) : M unit :=
  fun s => (Return tt,
            {| nodes := m; activationHistory := activationHistory s;
               iterationCount := iterationCount s; params := params s |}).
Definition set_activationHistory (h : list HistoryEntry) : M unit :=
  fun s => (Return tt,
            {| nodes := nodes s; activationHistory := h;
               iterationCount := iterationCount s; params := params s |}).
Definition set_iterationCount (i : Z) : M unit :=
  fun s => (Return tt,
            {| nodes := nodes s; activationHistory := activationHistory s;
               iterationCount := i; params := params s |}).
Definition set_params (p : Params) : M unit :=
  fun s => (Return tt,
            {| nodes := nodes s; activationHistory := activationHistory s;
               iterationCount := iterationCount s; params := p |}).

Declare Scope js_scope.
Delimit Scope js_scope with js.
Notation "x <- c ;; k" := (bind c (fun x => k))
  (at level 61, c at next level, right associativity) : js_scope.
Notation "c ;; k" := (bind c (fun _ => k))
  (at level 61, right associativity) : js_scope.
Local Open Scope js_scope.

(** [for (const x of xs) body(x)] *)
Fixpoint for_of {A} (xs : list A) (body : A -> M unit) : M unit :=
  match xs with
  | [] => ret tt
  | x :: xs' => body x ;; for_of xs' body
  end.

(** [for (const node of this.nodes.values()) node.method(...)] for a method
    that mutates the node it is called on: every stored node is replaced, in
    place, by its state after the call. *)
Definition for_each_node (f : ConceptNode -> ConceptNode) : M unit :=
  s <- this ;;
  set_nodes (map (fun e => (fst e, f (snd e))) (nodes s)).

(** [this.nodes.get(k).method(...)] for a method that mutates the node. *)
Definition on_node (k : string) (f : ConceptNode -> ConceptNode) : M unit :=
  s <- this ;;
  match JsMap.get k (nodes s) with
  | Some _ => set_nodes (JsMap.update k f (nodes s))
  | None => throw TypeError
  end.

Module Net.

(** [constructor()] *)
Definition new : ConceptNetwork :=
  {| nodes := JsMap.empty ConceptNode;
     activationHistory := [];
     iterationCount := 0;
     params := {| activationThreshold := 0.7; decayRate := 0.1;
                  maxIterations := 5; convergenceThreshold := 0.01 |} |}.

(** [addConcept(label, category = null, id = null)].  [uuid] is the value
    [uuidv4()] yields if it is called; [id || uuidv4()] calls it when [id]
    is [null] or the empty string. *)
Definition addConcept (uuid : string) (l : string) (c : option string)
    (i : option string) : M string :=
  let conceptId := match i with
                   | Some s => if String.eqb s "" then uuid else s
                   | None => uuid
                   end in
  s <- this ;;
  if JsMap.has conceptId (nodes s) then throw (ConceptExists conceptId)
  else
    set_nodes (JsMap.set conceptId (Node.new conceptId l c) (nodes s)) ;;
    ret conceptId.

(** [removeConcept(conceptId)] *)
Definition removeConcept (conceptId : string) : M bool :=
  s <- this ;;
  if negb (JsMap.has conceptId (nodes s)) then ret false
  else
    for_each_node (fun node => snd (Node.removeConnection conceptId node)) ;;
    s' <- this ;;
    let (b, m) := JsMap.delete conceptId (nodes s') in
    set_nodes m ;;
    ret b.

(** [getConcept(conceptId)] *)
Definition getConcept (conceptId : string) : M ConceptNode :=
  s <- this ;;
  match JsMap.get conceptId (nodes s) with
  | Some n => ret n
  | None => throw (ConceptNotFound conceptId)
  end.

(** [Math.max(0, Math.min(1, weight))] *)
Definition safeWeight (weight : R) : R := Rmax 0 (Rmin 1 weight).

(** [addConnection(sourceId, targetId, weight = 0.5, bidirectional = true)].
    [sourceNode] and [targetNode] are references into [this.nodes], so the
    two [addConnection] calls act on the stored nodes, in this order. *)
Definition addConnection (sourceId targetId : string) (weight : option R)
    (bidirectional : option bool) : M unit :=
  let weight := match weight with Some w => w | None => 0.5 end in
  let bidirectional := match bidirectional with Some b => b | None => true end in
  let safeWeight := safeWeight weight in
  _ <- getConcept sourceId ;;
  _ <- getConcept targetId ;;
  on_node sourceId (Node.addConnection targetId safeWeight) ;;
  if bidirectional
  then on_node targetId (Node.addConnection sourceId safeWeight)
  else ret tt.

(** [removeConnection(sourceId, targetId, bidirectional = true)] *)
Definition removeConnection (sourceId targetId : string)
    (bidirectional : option bool) : M bool :=
  let bidirectional := match bidirectional with Some b => b | None => true end in
  s <- this ;;
  success <-
    (if JsMap.has sourceId (nodes s)
     then
       on_node sourceId (fun n => snd (Node.removeConnection targetId n)) ;;
       ret (JsMap.has targetId
              (match JsMap.get sourceId (nodes s) with
               | Some n => connections n
               | None => JsMap.empty R
               end))
     else ret false) ;;
  s' <- this ;;
  (if bidirectional && JsMap.has targetId (nodes s')
   then on_node targetId (fun n => snd (Node.removeConnection sourceId n))
   else ret tt) ;;
  ret success.

Record NetworkSize := mkSize {
  conceptCount : nat;
  connectionCount : nat
}.

(** [getNetworkSize()] *)
Definition getNetworkSize : M NetworkSize :=
  s <- this ;;
  ret {| conceptCount := JsMap.size (nodes s);
         connectionCount :=
           fold_left (fun sum node => (sum + JsMap.size (connections node))%nat)
                     (JsMap.values (nodes s)) 0%nat |}.

(** The argument of [setParameters]: an object holding some of the keys. *)
Record ParamsPatch := mkPatch {
  patch_activationThreshold : option R;
  patch_decayRate : option R;
  patch_maxIterations : option Z;
  patch_convergenceThreshold : option R
}.

Definition spread_over {A} (old : A) (new : option A) : A :=
  match new with Some v => v | None => old end.

(** [setParameters(params = {})]: [{...this.params, ...params}] *)
Definition setParameters (p : ParamsPatch) : M unit :=
  s <- this ;;
  set_params
    {| activationThreshold :=
         spread_over (activationThreshold (params s)) (patch_activationThreshold p);
       decayRate := spread_over (decayRate (params s)) (patch_decayRate p);
       maxIterations := spread_over (maxIterations (params s)) (patch_maxIterations p);
       convergenceThreshold :=
         spread_over (convergenceThreshold (params s)) (patch_convergenceThreshold p) |}.

(** [recordActivationState()] *)
Definition snapshot (m : JsMap.t ConceptNode) : list ConceptInfo :=
  map (fun e => {| info_id := fst e; info_label := label (snd e);
                   info_activation := activation (snd e);
                   info_category := category (snd e) |})
      (JsMap.entries m).

Definition recordActivationState : M unit :=
  s <- this ;;
  set_activationHistory
    (activationHistory s ++
       [{| entry_iteration := iterationCount s;
           entry_activations := snapshot (nodes s) |}]) ;;
  set_iterationCount (iterationCount s + 1).

(** The first argument of [setInitialActivation]: an array of ids, an
    object from ids to values (its [Object.entries], whose keys are
    distinct), or a value that is neither ([typeof] not ['object']).  The
    documented type is [Array<string>|Object]; [null] is not modelled. *)
Inductive Selection : Type :=
| IdArray (ids : list string)
| IdObject (entries : list (string * R))
| NotAnObject.

(** [setInitialActivation(concepts, activationValue = 1.0)] *)
Definition setInitialActivation (concepts : Selection)
    (activationValue : option R) : M unit :=
  let activationValue := match activationValue with Some v => v | None => 1.0 end in
  for_each_node (Node.updateActivation 0.0) ;;
  match concepts with
  | IdArray ids =>
      for_of ids (fun i =>
        s <- this ;;
        if JsMap.has i (nodes s)
        then on_node i (Node.updateActivation activationValue)
        else ret tt)
  | IdObject entries =>
      for_of entries (fun e =>
        s <- this ;;
        if JsMap.has (fst e) (nodes s)
        then on_node (fst e) (Node.updateActivation (snd e))
        else ret tt)
  | NotAnObject => ret tt
  end ;;
  set_activationHistory [] ;;
  set_iterationCount 0 ;;
  recordActivationState.

(** [sigmoid(x)] *)
Definition sigmoid (x : R) : R := 1 / (1 + exp (- x)).

Record SpreadResult := mkSpread {
  res_iteration : Z;
  res_totalDelta : R
}.

(** The inner loop of [spreadActivation]: the sum over [node.connections]. *)
Definition incomingActivation (m : JsMap.t ConceptNode) (node : ConceptNode) : R :=
  fold_left
    (fun incoming e =>
       if JsMap.has (fst e) m
       then match JsMap.get (fst e) m with
            | Some connectedNode => incoming + activation connectedNode * snd e
            | None => incoming
            end
       else incoming)
    (JsMap.entries (connections node)) 0.

(** The first loop of [spreadActivation], filling [newActivations]. *)
Definition newActivations (m : JsMap.t ConceptNode) (actualDecayRate : R)
  : JsMap.t R :=
  fold_left
    (fun acc e =>
       let node := snd e in
       let decayedActivation := activation node * (1 - actualDecayRate) in
       let newActivation := sigmoid (decayedActivation + incomingActivation m node) in
       JsMap.set (fst e) newActivation acc)
    (JsMap.entries m) (JsMap.empty R).

(** [spreadActivation(decayRate = null)] *)
Definition spreadActivation (rate : option R) : M SpreadResult :=
  s <- this ;;
  let actualDecayRate :=
    match rate with Some d => d | None => decayRate (params s) end in
  for_of (JsMap.entries (newActivations (nodes s) actualDecayRate))
    (fun e => on_node (fst e) (Node.updateActivation (snd e))) ;;
  s' <- this ;;
  let totalDelta :=
    fold_left (fun sum node => sum + Node.getActivationDelta node)
              (JsMap.values (nodes s')) 0 in
  recordActivationState ;;
  s'' <- this ;;
  ret {| res_iteration := iterationCount s'' - 1; res_totalDelta := totalDelta |}.

(** The argument of [runUntilConvergence]: an object holding some of the
    three keys. *)
Record Options := mkOptions {
  opt_maxIterations : option Z;
  opt_convergenceThreshold : option R;
  opt_decayRate : option R
}.

Record Config := mkConfig {
  cfg_maxIterations : Z;
  cfg_convergenceThreshold : R;
  cfg_decayRate : R
}.

(** The object literal [config] of [runUntilConvergence]. *)
Definition config (options : Options) (p : Params) : Config :=
  {| cfg_maxIterations := Js.or_Z (opt_maxIterations options) (maxIterations p);
     cfg_convergenceThreshold :=
       Js.or_R (opt_convergenceThreshold options) (convergenceThreshold p);
     cfg_decayRate := Js.or_R (opt_decayRate options) (decayRate p) |}.

Record RunResult := mkRun {
  converged : bool;
  iterations : Z;
  finalDelta : Js.Delta
}.

(** The [while] loop of [runUntilConvergence], on the loop variables
    [iteration] and [totalDelta].  [fuel] bounds the number of turns; with
    [fuel = maxIterations - iteration] the guard fails before the fuel is
    used up (lemma [run_loop_rounds]). *)
Fixpoint run_loop (fuel : nat) (cfg : Config) (iteration : Z)
    (totalDelta : Js.Delta) : M (Z * Js.Delta) :=
  if (iteration <? cfg_maxIterations cfg)%Z
     && Js.Delta_gtb totalDelta (cfg_convergenceThreshold cfg)
  then
    match fuel with
    | O => throw OutOfFuel
    | S fuel' =>
        result <- spreadActivation (Some (cfg_decayRate cfg)) ;;
        run_loop fuel' cfg (iteration + 1)%Z (Js.Finite (res_totalDelta result))
    end
  else ret (iteration, totalDelta).

(** [runUntilConvergence(options = {})] *)
Definition runUntilConvergence (options : Options) : M RunResult :=
  s <- this ;;
  let cfg := config options (params s) in
  r <- run_loop (Z.to_nat (cfg_maxIterations cfg)) cfg 0%Z Js.Infinity ;;
  let (iteration, totalDelta) := r in
  ret {| converged := Js.Delta_leb totalDelta (cfg_convergenceThreshold cfg);
         iterations := iteration;
         finalDelta := totalDelta |}.

Definition info_of (node : ConceptNode) : ConceptInfo :=
  {| info_id := id node; info_label := label node;
     info_activation := activation node; info_category := category node |}.

(** [getTopActivatedConcepts(limit = 10, threshold = null)] *)
Definition getTopActivatedConcepts (limit : option Z) (threshold : option R)
  : M (list ConceptInfo) :=
  let limit := match limit with Some l => l | None => 10%Z end in
  s <- this ;;
  let actualThreshold :=
    match threshold with Some t => t | None => activationThreshold (params s) end in
  ret (map info_of
         (Js.slice0 limit
            (Js.sort (fun a b => activation b - activation a)
               (filter (fun node => Js.geb (activation node) actualThreshold)
                  (JsMap.values (nodes s)))))).

Record Pattern := mkPattern {
  patternId : string;
  concepts : list ConceptInfo;
  averageActivation : R
}.

Definition is_active (m : JsMap.t ConceptNode) (actualThreshold : R)
    (k : string) : bool :=
  match JsMap.get k m with
  | Some node => Js.geb (activation node) actualThreshold
  | None => false
  end.

(** The [for] loop over [currentNode.connections] in the breadth-first
    search: it pushes the unvisited, present, active targets on [queue]. *)
Definition push_connected (m : JsMap.t ConceptNode) (actualThreshold : R)
    (visited : list string) (currentNode : ConceptNode) (queue : list string)
  : list string :=
  fold_left
    (fun queue e =>
       if negb (Js.set_has (fst e) visited) && JsMap.has (fst e) m
       then if is_active m actualThreshold (fst e)
            then queue ++ [fst e]
            else queue
       else queue)
    (JsMap.entries (connections currentNode)) queue.

(** The [while (queue.length > 0)] loop.  It returns the loop's final
    [visited] and [pattern]. *)
Fixpoint search (fuel : nat) (m : JsMap.t ConceptNode) (actualThreshold : R)
    (queue visited : list string) (pattern : list ConceptInfo)
  : Outcome (list string * list ConceptInfo) :=
  match queue with
  | [] => Return (visited, pattern)
  | currentId :: queue =>
      match fuel with
      | O => Throw OutOfFuel
      | S fuel' =>
          if Js.set_has currentId visited
          then search fuel' m actualThreshold queue visited pattern
          else
            let visited := visited ++ [currentId] in
            match JsMap.get currentId m with
            | None => Throw TypeError
            | Some currentNode =>
                if Js.geb (activation currentNode) actualThreshold
                then
                  search fuel' m actualThreshold
                    (push_connected m actualThreshold visited currentNode queue)
                    visited
                    (pattern ++
                       [{| info_id := currentId;
                           info_label := label currentNode;
                           info_activation := activation currentNode;
                           info_category := category currentNode |}])
                else search fuel' m actualThreshold queue visited pattern
            end
      end
  end.

(** Fuel for one search: a node is expanded once, and a turn of the loop
    either expands a node or drops a queue element, so one more than the
    number of edges is enough. *)
Definition search_fuel (m : JsMap.t ConceptNode) : nat :=
  S (fold_left (fun sum node => (sum + JsMap.size (connections node))%nat)
               (JsMap.values m) 0%nat).

Definition average (pattern : list ConceptInfo) : R :=
  fold_left (fun sum n => sum + info_activation n) pattern 0
  / INR (List.length pattern).

(** The [for (const node of activeNodes)] loop, on the loop variables
    [patterns] and [visited].  [uuid k] is the value of the [k]-th call of
    [uuidv4()]. *)
Fixpoint collect (uuid : nat -> string) (m : JsMap.t ConceptNode)
    (actualThreshold : R) (activeNodes : list ConceptNode)
    (patterns : list Pattern) (visited : list string)
  : Outcome (list Pattern) :=
  match activeNodes with
  | [] => Return patterns
  | node :: rest =>
      if Js.set_has (id node) visited
      then collect uuid m actualThreshold rest patterns visited
      else
        match search (search_fuel m) m actualThreshold [id node] visited [] with
        | Throw e => Throw e
        | Return (visited, pattern) =>
            collect uuid m actualThreshold rest
              (if (0 <? List.length pattern)%nat
               then patterns ++
                      [{| patternId := uuid (List.length patterns);
                          concepts := pattern;
                          averageActivation := average pattern |}]
               else patterns)
              visited
        end
  end.

(** [identifyEmergentPatterns(threshold = null)] *)
Definition identifyEmergentPatterns (uuid : nat -> string) (threshold : option R)
  : M (list Pattern) :=
  s <- this ;;
  let actualThreshold :=
    match threshold with Some t => t | None => activationThreshold (params s) end in
  let activeNodes :=
    filter (fun node => Js.geb (activation node) actualThreshold)
           (JsMap.values (nodes s)) in
  match collect uuid (nodes s) actualThreshold activeNodes [] [] with
  | Throw e => throw e
  | Return patterns =>
      ret (Js.sort (fun a b => averageActivation b - averageActivation a) patterns)
  end.

Record Summary := mkSummary {
  sum_iterationCount : Z;
  topActivatedConcepts : list ConceptInfo;
  emergentPatterns : list Pattern;
  networkSize : NetworkSize
}.

(** [generateSummary()] *)
Definition generateSummary (uuid : nat -> string) : M Summary :=
  topConcepts <- getTopActivatedConcepts (Some 5%Z) None ;;
  patterns <- identifyEmergentPatterns uuid None ;;
  s <- this ;;
  size <- getNetworkSize ;;
  ret {| sum_iterationCount := iterationCount s;
         topActivatedConcepts := topConcepts;
         emergentPatterns := patterns;
         networkSize := size |}.

End Net.

(* ------------------------------------------------------------------ *)
(** ** Rounds and connections in binary64 arithmetic *)

(** [sigmoid], the round of [spreadActivation] and the clamp and the edge
    writes of [addConnection], with the numbers of JavaScript: binary64
    floating-point numbers and their rounded operations. *)
Module Binary64.

(** [Math.exp].  ECMAScript fixes its value at [NaN], at the zeros and at
    the infinities; elsewhere the result is an approximation chosen by the
    implementation, [approx x]. *)
Definition Math_exp (approx : float -> float) (x : float) : float :=
  if is_nan x then nan
  else if is_zero x then 1%float
  else if (x =? infinity)%float then infinity
  else if (x =? neg_infinity)%float then 0%float
  else approx x.

(** [sigmoid(x)] *)
Definition sigmoid (approx : float -> float) (x : float) : float :=
  (1 / (1 + Math_exp approx (- x)))%float.

(** The value [newActivation] that [spreadActivation] commits for a node:
    [activation] is the node's activation and [connected] lists, for each
    of its edges with a present target, the target's activation and the
    edge weight. *)
Definition newActivation (approx : float -> float)
    (activation actualDecayRate : float) (connected : list (float * float))
  : float :=
  let incomingActivation :=
    fold_left (fun incoming e => (incoming + fst e * snd e)%float)
              connected 0%float in
  let decayedActivation := (activation * (1 - actualDecayRate))%float in
  sigmoid approx (decayedActivation + incomingActivation)%float.

(** [0 < x && x < 1] *)
Definition strictly_inside (x : float) : bool := (0 <? x)%float && (x <? 1)%float.

(** [0 <= x && x <= 1] *)
Definition inside (x : float) : bool := (0 <=? x)%float && (x <=? 1)%float.

(** [Math.min(a, b)] and [Math.max(a, b)]: the result is [NaN] when an
    argument is [NaN], and [-0] counts as smaller than [+0]. *)
Definition Math_min (a b : float) : float :=
  if is_nan a || is_nan b then nan
  else if (a <? b)%float then a
  else if (b <? a)%float then b
  else match classify a with NZero => a | _ => b end.

Definition Math_max (a b : float) : float :=
  if is_nan a || is_nan b then nan
  else if (a <? b)%float then b
  else if (b <? a)%float then a
  else match classify a with PZero => a | _ => b end.

(** [Math.max(0, Math.min(1, weight))] *)
Definition safeWeight (weight : float) : float := Math_max 0 (Math_min 1 weight).

(** The fields of a [ConceptNode] that hold numbers. *)
Record Node := mkNode {
  activation : float;
  prevActivation : float;
  connections : JsMap.t float     (* target node id -> edge weight *)
}.

(** [ConceptNode.addConnection(targetId, weight)] *)
Definition Node_addConnection (targetId : string) (weight : float) (n : Node)
  : Node :=
  {| activation := activation n; prevActivation := prevActivation n;
     connections := JsMap.set targetId weight (connections n) |}.

(** [ConceptNode.updateActivation(newValue)] *)
Definition Node_updateActivation (newValue : float) (n : Node) : Node :=
  {| activation := newValue; prevActivation := activation n;
     connections := connections n |}.

(** [addConnection(sourceId, targetId, weight, bidirectional)] on the map
    [this.nodes]: the error is the one [getConcept] throws. *)
Definition addConnection (sourceId targetId : string) (weight : float)
    (bidirectional : bool) (nodes : JsMap.t Node) : Outcome (JsMap.t Node) :=
  let safeWeight := safeWeight weight in
  match JsMap.get sourceId nodes with
  | None => Throw (ConceptNotFound sourceId)
  | Some _ =>
      match JsMap.get targetId nodes with
      | None => Throw (ConceptNotFound targetId)
      | Some _ =>
          let nodes :=
            JsMap.update sourceId (Node_addConnection targetId safeWeight) nodes in
          Return (if bidirectional
                  then JsMap.update targetId
                         (Node_addConnection sourceId safeWeight) nodes
                  else nodes)
      end
  end.

(** What the inner loop of [spreadActivation] reads for [node]: for each of
    its edges with a present target, in the order of [node.connections], the
    target's activation and the weight. *)
Definition connected (nodes : JsMap.t Node) (node : Node) : list (float * float) :=
  flat_map
    (fun e =>
       if JsMap.has (fst e) nodes
       then match JsMap.get (fst e) nodes with
            | Some connectedNode => [(activation connectedNode, snd e)]
            | None => []
            end
       else [])
    (JsMap.entries (connections node)).

(** The first loop of [spreadActivation], filling [newActivations]. *)
Definition newActivations (approx : float -> float) (nodes : JsMap.t Node)
    (actualDecayRate : float) : JsMap.t float :=
  fold_left
    (fun acc e =>
       JsMap.set (fst e)
         (newActivation approx (activation (snd e)) actualDecayRate
            (connected nodes (snd e)))
         acc)
    (JsMap.entries nodes) (JsMap.empty float).

(** The two loops of [spreadActivation(decayRate)] on the map [this.nodes]. *)
Definition spreadActivation (approx : float -> float) (actualDecayRate : float)
    (nodes : JsMap.t Node) : JsMap.t Node :=
  fold_left
    (fun nodes e => JsMap.update (fst e) (Node_updateActivation (snd e)) nodes)
    (JsMap.entries (newActivations approx nodes actualDecayRate)) nodes.

End Binary64.

(* ------------------------------------------------------------------ *)
(** ** [class SessionManager] ([session-manager.js]) *)

(** A [Date] is its time value, an integer number of milliseconds, and the
    difference of two dates is the difference of these integers.  The value
    of each [new Date()] is an argument of the method that evaluates it. *)
Record Session := mkSession {
  session_id : string;
  session_name : string;
  session_network : ConceptNetwork;
  session_createdAt : Z;
  session_lastAccessed : Z
}.

(** One element of [conceptData.connections]; a missing [weight] is
    [undefined], for which [addConnection] takes its default. *)
Record Connection := mkConnection {
  conn_targetId : string;
  conn_weight : option R
}.

(** One value of [defaultConcepts].  A missing [category] is [undefined], a
    missing [connections] is falsy; an empty array of connections is
    truthy. *)
Record ConceptData := mkData {
  data_label : string;
  data_category : option string;
  data_connections : option (list Connection)
}.

(** The argument of [createSession]; [defaultConcepts] is given by its
    [Object.entries], whose keys are distinct. *)
Record SessionConfig := mkSessionConfig {
  config_name : option string;
  config_defaultConcepts : option (list (string * ConceptData))
}.

(** The object returned by [createSession]. *)
Record SessionInfo := mkSessionInfo {
  created_sessionId : string;
  created_name : string;
  created_networkSize : Net.NetworkSize;
  created_createdAt : Z
}.

(** One element of the array returned by [getAllSessions]. *)
Record SessionListing := mkListing {
  listed_sessionId : string;
  listed_name : string;
  listed_createdAt : Z;
  listed_lastAccessed : Z;
  listed_networkSize : Net.NetworkSize
}.

Inductive SessionError : Type :=
| SessionNotFound (sessionId : string)     (* "Session ... not found" *)
| NetworkError (e : Error).                (* thrown by a method of the network *)

Inductive Result (A : Type) : Type :=
| Returns (a : A)
| Throws (e : SessionError).
Arguments Returns {A} a.
Arguments Throws {A} e.

(** A method of the manager runs on [this.sessions]. *)
Definition SM (A : Type) : Type := JsMap.t Session -> Result A * JsMap.t Session.

Module SessionManager.

(** [constructor()].  The timer it starts calls [cleanupSessions()] every
    hour: see [tick]. *)
Definition new : JsMap.t Session := JsMap.empty Session.

(** The loop of [createSession] over [Object.entries(defaultConcepts)], as a
    computation on the network under construction.  [uuid] is the value of
    [uuidv4()] inside [addConcept]; it is drawn for the key [""] only, so at
    most once. *)
Definition addDefaultConcepts (uuid : string)
    (defaultConcepts : list (string * ConceptData)) : M unit :=
  for_of defaultConcepts (fun e =>
    let conceptId := fst e in
    let conceptData := snd e in
    _ <- Net.addConcept uuid (data_label conceptData) (data_category conceptData)
           (Some conceptId) ;;
    match data_connections conceptData with
    | Some connections =>
        for_of connections (fun connection =>
          Net.addConnection conceptId (conn_targetId connection)
            (conn_weight connection) None)
    | None => ret tt
    end).

(** [getNetworkSize()] called on a session's network. *)
Definition networkSize (network : ConceptNetwork) : Result Net.NetworkSize :=
  match fst (Net.getNetworkSize network) with
  | Return size => Returns size
  | Throw e => Throws (NetworkError e)
  end.

(** [createSession({ name = null, defaultConcepts = null })].  [sessionId]
    is the value of the method's own [uuidv4()]; [created] and [accessed]
    are the values of its two [new Date()]. *)
Definition createSession (sessionId uuid : string) (created accessed : Z)
    (config : SessionConfig) : SM SessionInfo :=
  fun sessions =>
    let generated := String.append "can-session-" (String.substring 0 8 sessionId) in
    let sessionName :=
      match config_name config with
      | Some name => if String.eqb name "" then generated else name
      | None => generated
      end in
    let built :=
      match config_defaultConcepts config with
      | Some defaultConcepts => addDefaultConcepts uuid defaultConcepts Net.new
      | None => (Return tt, Net.new)
      end in
    match built with
    | (Throw e, _) => (Throws (NetworkError e), sessions)
    | (Return _, network) =>
        let session :=
          {| session_id := sessionId; session_name := sessionName;
             session_network := network;
             session_createdAt := created; session_lastAccessed := accessed |} in
        let sessions := JsMap.set sessionId session sessions in
        match networkSize network with
        | Throws e => (Throws e, sessions)
        | Returns size =>
            (Returns {| created_sessionId := sessionId;
                        created_name := sessionName;
                        created_networkSize := size;
                        created_createdAt := session_createdAt session |},
             sessions)
        end
    end.

(** [session.lastAccessed = new Date()] *)
Definition touch (now : Z) (session : Session) : Session :=
  {| session_id := session_id session; session_name := session_name session;
     session_network := session_network session;
     session_createdAt := session_createdAt session;
     session_lastAccessed := now |}.

(** [getSession(sessionId)]; [now] is the value of its [new Date()].  The
    object returned is the stored session. *)
Definition getSession (now : Z) (sessionId : string) : SM Session :=
  fun sessions =>
    match JsMap.get sessionId sessions with
    | None => (Throws (SessionNotFound sessionId), sessions)
    | Some session =>
        (Returns (touch now session), JsMap.update sessionId (touch now) sessions)
    end.

(** [getNetwork(sessionId)] *)
Definition getNetwork (now : Z) (sessionId : string) : SM ConceptNetwork :=
  fun sessions =>
    match getSession now sessionId sessions with
    | (Returns session, sessions) => (Returns (session_network session), sessions)
    | (Throws e, sessions) => (Throws e, sessions)
    end.

(** [deleteSession(sessionId)] *)
Definition deleteSession (sessionId : string) : SM bool :=
  fun sessions =>
    let (deleted, sessions) := JsMap.delete sessionId sessions in
    (Returns deleted, sessions).

(** [Array.prototype.map] with a callback that may throw. *)
Fixpoint array_map {A B} (callback : A -> Result B) (array : list A)
  : Result (list B) :=
  match array with
  | [] => Returns []
  | x :: rest =>
      match callback x with
      | Throws e => Throws e
      | Returns y =>
          match array_map callback rest with
          | Throws e => Throws e
          | Returns ys => Returns (y :: ys)
          end
      end
  end.

(** [getAllSessions()] *)
Definition getAllSessions : SM (list SessionListing) :=
  fun sessions =>
    (array_map
       (fun e =>
          let session := snd e in
          match networkSize (session_network session) with
          | Throws err => Throws err
          | Returns size =>
              Returns {| listed_sessionId := fst e;
                         listed_name := session_name session;
                         listed_createdAt := session_createdAt session;
                         listed_lastAccessed := session_lastAccessed session;
                         listed_networkSize := size |}
          end)
       (JsMap.entries sessions),
     sessions).

(** [cleanupSessions(maxAgeMs = 24 * 60 * 60 * 1000)]; [now] is the value of
    its [new Date()].  The loop deletes from the [Map] it iterates over; the
    iterator of a [Map] still visits every entry that is not deleted before
    its turn, and the loop deletes the entry of the current turn only, so it
    visits the entries the [Map] held at the start.  The loop variables are
    the map and [cleanedCount]. *)
Definition cleanupSessions (now : Z) (maxAgeMs : option Z) : SM nat :=
  fun sessions =>
    let maxAgeMs :=
      match maxAgeMs with Some a => a | None => (24 * 60 * 60 * 1000)%Z end in
    let (sessions, cleanedCount) :=
      fold_left
        (fun (state : JsMap.t Session * nat) e =>
           let (sessions, cleanedCount) := state in
           let age := (now - session_lastAccessed (snd e))%Z in
           if (age >? maxAgeMs)%Z
           then (snd (JsMap.delete (fst e) sessions), S cleanedCount)
           else (sessions, cleanedCount))
        (JsMap.entries sessions) (sessions, 0%nat) in
    (Returns cleanedCount, sessions).

(** What the timer of the constructor runs every [60 * 60 * 1000]
    milliseconds: [() => this.cleanupSessions()]. *)
Definition tick (now : Z) : SM nat := cleanupSessions now None.

End SessionManager.

(* ================================================================== *)
(** * Vocabulary of the statements *)

Local Open Scope js_scope.

(** ** Frames: what a call leaves as it was *)

(** [n'] is [n] with another outgoing-edge map. *)
Definition same_but_connections (n n' : ConceptNode) : Prop :=
  id n' = id n /\ label n' = label n /\ category n' = category n /\
  activation n' = activation n /\ prevActivation n' = prevActivation n /\
  metadata n' = metadata n.

(** [net'] differs from [net] in its nodes only. *)
Definition same_but_nodes (net net' : ConceptNetwork) : Prop :=
  activationHistory net' = activationHistory net /\
  iterationCount net' = iterationCount net /\
  params net' = params net.

(** [n'] is [n] with other values of [activation] and [prevActivation]. *)
Definition same_but_activation (n n' : ConceptNode) : Prop :=
  id n' = id n /\ label n' = label n /\ category n' = category n /\
  connections n' = connections n /\ metadata n' = metadata n.

Definition with_nodes (net : ConceptNetwork) (m : JsMap.t ConceptNode)
  : ConceptNetwork :=
  {| nodes := m; activationHistory := activationHistory net;
     iterationCount := iterationCount net; params := params net |}.

(** ** Loops that call a method on stored nodes *)

(** One turn of a loop that calls a mutating method on the stored node of
    [key x] when the id is present: what it does to the node map. *)
Definition guarded_step (A : Type) (key : A -> string)
    (method : A -> ConceptNode -> ConceptNode)
    (m : JsMap.t ConceptNode) (x : A) : JsMap.t ConceptNode :=
  if JsMap.has (key x) m then JsMap.update (key x) (method x) m else m.

(** The calls of such a loop that reach the node stored under [k]. *)
Definition calls_on (A : Type) (key : A -> string)
    (method : A -> ConceptNode -> ConceptNode)
    (k : string) (xs : list A) (n : ConceptNode) : ConceptNode :=
  fold_left (fun n x => if String.eqb (key x) k then method x n else n) xs n.

(** ** Seeding *)

(** The node map [setInitialActivation] leaves behind. *)
Definition seeded (concepts : Net.Selection) (activationValue : R)
    (m : JsMap.t ConceptNode) : JsMap.t ConceptNode :=
  let reset := map (fun e => (fst e, Node.updateActivation 0.0 (snd e))) m in
  match concepts with
  | Net.IdArray ids =>
      fold_left
        (guarded_step (fun i => i) (fun _ => Node.updateActivation activationValue))
        ids reset
  | Net.IdObject entries =>
      fold_left
        (guarded_step fst (fun e => Node.updateActivation (snd e)))
        entries reset
  | Net.NotAnObject => reset
  end.

(** The ids a selection names, and the value it gives to a named id. *)
Definition selected (concepts : Net.Selection) (k : string) : Prop :=
  match concepts with
  | Net.IdArray ids => In k ids
  | Net.IdObject entries => In k (map fst entries)
  | Net.NotAnObject => False
  end.

Definition selects (concepts : Net.Selection) (activationValue : R)
    (k : string) (x : R) : Prop :=
  match concepts with
  | Net.IdArray ids => In k ids /\ x = activationValue
  | Net.IdObject entries => In (k, x) entries /\ NoDup (map fst entries)
  | Net.NotAnObject => False
  end.

(** ** The representation invariant *)

(** A node map is a [Map] (a key occurs once) and a node is stored under
    its own id. *)
Definition wf_nodes (m : JsMap.t ConceptNode) : Prop :=
  JsMap.wf m /\ forall k n, In (k, n) m -> id n = k.

Definition wf_net (net : ConceptNetwork) : Prop := wf_nodes (nodes net).

(** A method keeps the invariant, whether it returns or throws. *)
Definition preserves_wf {A} (c : M A) : Prop :=
  forall net, wf_net net -> wf_net (snd (c net)).

(** A call of a public method, the network it leaves, and the networks that
    calls can build from the constructor's. *)
Inductive Call : Type :=
| AddConcept (uuid l : string) (c i : option string)
| RemoveConcept (conceptId : string)
| AddConnection (sourceId targetId : string) (weight : option R)
    (bidirectional : option bool)
| RemoveConnection (sourceId targetId : string) (bidirectional : option bool)
| SetParameters (p : Net.ParamsPatch)
| SetInitialActivation (concepts : Net.Selection) (activationValue : option R)
| SpreadActivation (rate : option R)
| RunUntilConvergence (options : Net.Options)
| GetTopActivatedConcepts (limit : option Z) (threshold : option R)
| IdentifyEmergentPatterns (uuid : nat -> string) (threshold : option R)
| GetNetworkSize
| GenerateSummary (uuid : nat -> string).

Definition after_call (c : Call) (net : ConceptNetwork) : ConceptNetwork :=
  match c with
  | AddConcept uuid l c i => snd (Net.addConcept uuid l c i net)
  | RemoveConcept x => snd (Net.removeConcept x net)
  | AddConnection s t w b => snd (Net.addConnection s t w b net)
  | RemoveConnection s t b => snd (Net.removeConnection s t b net)
  | SetParameters p => snd (Net.setParameters p net)
  | SetInitialActivation sel v => snd (Net.setInitialActivation sel v net)
  | SpreadActivation rate => snd (Net.spreadActivation rate net)
  | RunUntilConvergence options => snd (Net.runUntilConvergence options net)
  | GetTopActivatedConcepts limit threshold =>
      snd (Net.getTopActivatedConcepts limit threshold net)
  | IdentifyEmergentPatterns uuid threshold =>
      snd (Net.identifyEmergentPatterns uuid threshold net)
  | GetNetworkSize => snd (Net.getNetworkSize net)
  | GenerateSummary uuid => snd (Net.generateSummary uuid net)
  end.

Inductive reachable : ConceptNetwork -> Prop :=
| reachable_new : reachable Net.new
| reachable_call (c : Call) (net : ConceptNetwork) :
    reachable net -> reachable (after_call c net).

(** ** Rounds *)

(** The value the round computes for a node, as the loop body writes it. *)
Definition next_activation (m : JsMap.t ConceptNode) (d : R) (node : ConceptNode)
  : R :=
  Net.sigmoid (activation node * (1 - d) + Net.incomingActivation m node).

(** The node after the round's [updateActivation] call. *)
Definition round_update (m : JsMap.t ConceptNode) (d : R) (node : ConceptNode)
  : ConceptNode :=
  Node.updateActivation (next_activation m d node) node.

(** The node map after the second loop of [spreadActivation]. *)
Definition spread_nodes (m : JsMap.t ConceptNode) (d : R) : JsMap.t ConceptNode :=
  fold_left (guarded_step fst (fun e => Node.updateActivation (snd e)))
            (Net.newActivations m d) m.

Definition total_delta (m : JsMap.t ConceptNode) : R :=
  fold_left (fun sum node => sum + Node.getActivationDelta node) (JsMap.values m) 0.

(** The sum of the specification: over the node's own outgoing edges whose
    target is in the graph, the target's activation times the edge weight. *)
Definition outgoing_sum (m : JsMap.t ConceptNode) (node : ConceptNode) : R :=
  fold_right
    (fun e rest =>
       match JsMap.get (fst e) m with
       | Some target => activation target * snd e + rest
       | None => rest
       end)
    0 (connections node).

(** The state after one round with decay rate [d], after [k] rounds, and the
    [totalDelta] a round returns when started in [net]. *)
Definition round (d : R) (net : ConceptNetwork) : ConceptNetwork :=
  snd (Net.spreadActivation (Some d) net).

Fixpoint after_rounds (d : R) (k : nat) (net : ConceptNetwork) : ConceptNetwork :=
  match k with
  | O => net
  | S k' => after_rounds d k' (round d net)
  end.

Definition round_delta (d : R) (net : ConceptNetwork) : R :=
  total_delta (spread_nodes (nodes net) d).

(** The loop variable [totalDelta] after [k] turns. *)
Definition delta_after (d : R) (net : ConceptNetwork) (k : nat)
    (initial : Js.Delta) : Js.Delta :=
  match k with
  | O => initial
  | S k' => Js.Finite (round_delta d (after_rounds d k' net))
  end.

(** ** Ranking *)

(** The elements whose numeric field is [v]. *)
Definition holds (A : Type) (field : A -> R) (v : R) (x : A) : bool :=
  if Req_dec_T (field x) v then true else false.

(** The arithmetic mean of a list of numbers. *)
Definition mean (l : list R) : R := fold_right Rplus 0 l / INR (List.length l).

Definition returned_ids (r : Outcome (list ConceptInfo) * ConceptNetwork)
  : option (list string) :=
  match fst r with
  | Return l => Some (map info_id l)
  | Throw _ => None
  end.

(** ** Patterns *)

Definition node_info (k : string) (node : ConceptNode) : ConceptInfo :=
  {| info_id := k; info_label := label node;
     info_activation := activation node; info_category := category node |}.

Definition ids (pattern : list ConceptInfo) : list string := map info_id pattern.

Definition pattern_ids (p : Net.Pattern) : list string := ids (Net.concepts p).

Definition all_ids (patterns : list Net.Pattern) : list string :=
  List.concat (map pattern_ids patterns).

(** The active nodes, and the active-to-active outgoing edges. *)
Definition active (m : JsMap.t ConceptNode) (actualThreshold : R) (k : string)
  : Prop :=
  Net.is_active m actualThreshold k = true.

Definition active_edge (m : JsMap.t ConceptNode) (actualThreshold : R)
    (u v : string) : Prop :=
  active m actualThreshold u /\ active m actualThreshold v /\
  exists node, JsMap.get u m = Some node /\ In v (JsMap.keys (connections node)).

Definition reaches (m : JsMap.t ConceptNode) (actualThreshold : R)
  : string -> string -> Prop :=
  clos_refl_trans string (active_edge m actualThreshold).

(** A record of a pattern describes an active node of the graph. *)
Definition describes_active (m : JsMap.t ConceptNode) (actualThreshold : R)
    (c : ConceptInfo) : Prop :=
  active m actualThreshold (info_id c) /\
  exists node, JsMap.get (info_id c) m = Some node /\ c = node_info (info_id c) node.

(** What the loop over [currentNode.connections] pushes. *)
Definition pushed (m : JsMap.t ConceptNode) (actualThreshold : R)
    (visited : list string) (currentNode : ConceptNode) : list string :=
  filter (fun t => negb (Js.set_has t visited)
                   && Net.is_active m actualThreshold t)
         (JsMap.keys (connections currentNode)).

(** The edges of the nodes not yet visited: the measure of the search. *)
Definition unvisited_edges (m : JsMap.t ConceptNode) (visited : list string)
  : nat :=
  list_sum (map (fun e => if Js.set_has (fst e) visited then 0%nat
                          else JsMap.size (connections (snd e))) m).

(** The patterns in the order in which the outer loop finds them.  A new
    pattern holds active nodes found in no earlier pattern, all reached
    from its first node, and every active edge from one of its nodes ends
    in it or in an earlier pattern. *)
Inductive discovered (m : JsMap.t ConceptNode) (actualThreshold : R)
  : list Net.Pattern -> Prop :=
| discovered_nil : discovered m actualThreshold []
| discovered_snoc (found : list Net.Pattern) (p : Net.Pattern) :
    discovered m actualThreshold found ->
    Forall (describes_active m actualThreshold) (Net.concepts p) ->
    NoDup (all_ids found ++ pattern_ids p) ->
    (exists s others, pattern_ids p = s :: others /\
                      forall k, In k (pattern_ids p) ->
                                reaches m actualThreshold s k) ->
    (forall u v, In u (pattern_ids p) -> active_edge m actualThreshold u v ->
                 In v (all_ids found ++ pattern_ids p)) ->
    Net.averageActivation p = Net.average (Net.concepts p) ->
    discovered m actualThreshold (found ++ [p]).

(** Two components: the active nodes fall into two non-empty sets, with no
    active edge from one to the other, and inside each every node reaches
    every other along active edges. *)
Definition two_components (m : JsMap.t ConceptNode) (actualThreshold : R)
    (S1 S2 : string -> Prop) : Prop :=
  (forall k, active m actualThreshold k <-> S1 k \/ S2 k) /\
  (exists a, S1 a) /\ (exists b, S2 b) /\
  (forall k, S1 k -> S2 k -> False) /\
  (forall u v, S1 u -> S2 v ->
               ~ active_edge m actualThreshold u v /\
               ~ active_edge m actualThreshold v u) /\
  (forall u v, S1 u -> S1 v -> reaches m actualThreshold u v) /\
  (forall u v, S2 u -> S2 v -> reaches m actualThreshold u v).

Definition holds_exactly (p : Net.Pattern) (S : string -> Prop) : Prop :=
  forall k, In k (pattern_ids p) <-> S k.

Definition returned_patterns (r : Outcome (list Net.Pattern) * ConceptNetwork)
  : option (list (list string)) :=
  match fst r with
  | Return l => Some (map pattern_ids l)
  | Throw _ => None
  end.

(** ** Concrete networks *)

(** Scenario 1 of the specification: concepts A and B, a bidirectional
    connection of weight 0.8, seed A = 1.0 and B = 0.0, one round with decay
    rate 0.1. *)
Definition scenario1 : M Net.SpreadResult :=
  _ <- Net.addConcept "" "A" None (Some "A") ;;
  _ <- Net.addConcept "" "B" None (Some "B") ;;
  Net.addConnection "A" "B" (Some 0.8) (Some true) ;;
  Net.setInitialActivation (Net.IdObject [("A", 1.0); ("B", 0.0)]) None ;;
  Net.spreadActivation (Some 0.1).

(** A network with the single concept "a", seeded with activation 1. *)
Definition seeded_a : ConceptNetwork :=
  snd ((_ <- Net.addConcept "" "a" None (Some "a") ;;
        Net.setInitialActivation (Net.IdArray ["a"]) (Some 1)) Net.new).

(** Two networks holding the concepts c1 and c2, both seeded to 1.0: in the
    first c1 was added first, in the second c2 was. *)
Definition c1_then_c2 : ConceptNetwork :=
  snd ((_ <- Net.addConcept "" "first" None (Some "c1") ;;
        _ <- Net.addConcept "" "second" None (Some "c2") ;;
        Net.setInitialActivation (Net.IdArray ["c1"; "c2"]) (Some 1.0)) Net.new).

Definition c2_then_c1 : ConceptNetwork :=
  snd ((_ <- Net.addConcept "" "second" None (Some "c2") ;;
        _ <- Net.addConcept "" "first" None (Some "c1") ;;
        Net.setInitialActivation (Net.IdArray ["c1"; "c2"]) (Some 1.0)) Net.new).

(** A network with an edge from w to u only, both seeded to 1. *)
Definition w_to_u : ConceptNetwork :=
  snd ((_ <- Net.addConcept "" "w" None (Some "w") ;;
        _ <- Net.addConcept "" "u" None (Some "u") ;;
        Net.addConnection "w" "u" (Some 1) (Some false) ;;
        Net.setInitialActivation (Net.IdArray ["w"; "u"]) (Some 1)) Net.new).

(** A network with the connected pair a, b and the separate node c, all
    seeded to 1; the two components of its active set. *)
Definition ab_and_c : ConceptNetwork :=
  snd ((_ <- Net.addConcept "" "a" None (Some "a") ;;
        _ <- Net.addConcept "" "b" None (Some "b") ;;
        _ <- Net.addConcept "" "c" None (Some "c") ;;
        Net.addConnection "a" "b" (Some 0.8) (Some true) ;;
        Net.setInitialActivation (Net.IdArray ["a"; "b"; "c"]) (Some 1)) Net.new).

(** The network [seeded_a] after [setParameters({convergenceThreshold: 1})]. *)
Definition lenient_a : ConceptNetwork :=
  snd (Net.setParameters
         {| Net.patch_activationThreshold := None; Net.patch_decayRate := None;
            Net.patch_maxIterations := None;
            Net.patch_convergenceThreshold := Some 1 |} seeded_a).

(** Binary64 nodes a and b with the given activations, joined in both
    directions by edges of the given weight. *)
Definition pair64 (a b weight : float) : JsMap.t Binary64.Node :=
  [("a", {| Binary64.activation := a; Binary64.prevActivation := 0;
            Binary64.connections := [("b", weight)] |});
   ("b", {| Binary64.activation := b; Binary64.prevActivation := 0;
            Binary64.connections := [("a", weight)] |})].

(** Binary64 nodes a and b without edges. *)
Definition apart64 (a b : float) : JsMap.t Binary64.Node :=
  [("a", {| Binary64.activation := a; Binary64.prevActivation := 0;
            Binary64.connections := [] |});
   ("b", {| Binary64.activation := b; Binary64.prevActivation := 0;
            Binary64.connections := [] |})].

(** A function with non-negative values only, in the place of the
    approximation that [Math.exp] makes. *)
Definition step_exp (x : float) : float :=
  if (x <? 0)%float then 0.5%float else 2%float.

(** The argument of [sigmoid] for [node] in a round on [nodes]. *)
Definition input64 (actualDecayRate : float) (nodes : JsMap.t Binary64.Node)
    (node : Binary64.Node) : float :=
  (Binary64.activation node * (1 - actualDecayRate)
   + fold_left (fun incoming e => incoming + fst e * snd e)
               (Binary64.connected nodes node) 0)%float.

Definition component_ab (k : string) : Prop := k = "a" \/ k = "b".
Definition component_c (k : string) : Prop := k = "c".

(** ** Invariants of the networks that calls build *)

(** Every outgoing edge ends at a node of the graph and carries a weight
    in [0,1]. *)
Definition graph_ok (m : JsMap.t ConceptNode) : Prop :=
  forall k n t w, In (k, n) m -> In (t, w) (connections n) ->
                  JsMap.has t m = true /\ 0 <= w <= 1.

(** [m'] has the ids of [m], and every edge of a node of [m'] is an edge of
    a node stored in [m] under the same id. *)
Definition sub_graph (m m' : JsMap.t ConceptNode) : Prop :=
  JsMap.keys m' = JsMap.keys m /\
  forall k n', In (k, n') m' ->
    exists n, In (k, n) m /\ incl (connections n') (connections n).

(** [m'] holds every node of [m], with the same fields and at least the
    same edges. *)
Definition grows (m m' : JsMap.t ConceptNode) : Prop :=
  forall k n, JsMap.get k m = Some n ->
    exists n', JsMap.get k m' = Some n' /\ same_but_connections n n' /\
               forall t, JsMap.has t (connections n) = true ->
                         JsMap.has t (connections n') = true.

(** The history entries are numbered 0, 1, 2, ... and the counter is their
    number. *)
Definition history_ok (net : ConceptNetwork) : Prop :=
  iterationCount net = Z.of_nat (List.length (activationHistory net)) /\
  forall i e, nth_error (activationHistory net) i = Some e ->
              entry_iteration e = Z.of_nat i.

(** The id [addConcept] uses: the given one unless it is missing or empty. *)
Definition chosen_id (uuid : string) (i : option string) : string :=
  match i with
  | Some s => if String.eqb s "" then uuid else s
  | None => uuid
  end.

(** ** Sessions *)

(** A session whose last access lies more than [maxAgeMs] before [now]. *)
Definition expired (now maxAgeMs : Z) (session : Session) : bool :=
  (now - session_lastAccessed session >? maxAgeMs)%Z.

(** The connections listed for one default concept. *)
Definition connections_of (conceptData : ConceptData) : list Connection :=
  match data_connections conceptData with
  | Some connections => connections
  | None => []
  end.

(** Every connection of the default concepts names its own concept or a
    concept listed before it; [seen] holds the ids listed so far. *)
Fixpoint refers_backwards (seen : list string)
    (defaultConcepts : list (string * ConceptData)) : Prop :=
  match defaultConcepts with
  | [] => True
  | e :: rest =>
      (forall c, In c (connections_of (snd e)) ->
                 In (conn_targetId c) (seen ++ [fst e])) /\
      refers_backwards (seen ++ [fst e]) rest
  end.

(** A session is stored under its own id, and an id is stored once. *)
Definition sessions_ok (sessions : JsMap.t Session) : Prop :=
  JsMap.wf sessions /\ forall k s, In (k, s) sessions -> session_id s = k.

(** A call of a method of the manager, the sessions it leaves, and the
    session maps that calls can build from the constructor's. *)
Inductive SessionCall : Type :=
| CreateSession (sessionId uuid : string) (created accessed : Z)
    (config : SessionConfig)
| GetSession (now : Z) (sessionId : string)
| GetNetwork (now : Z) (sessionId : string)
| DeleteSession (sessionId : string)
| GetAllSessions
| CleanupSessions (now : Z) (maxAgeMs : option Z).

Definition after_session_call (c : SessionCall) (sessions : JsMap.t Session)
  : JsMap.t Session :=
  match c with
  | CreateSession sessionId uuid created accessed config =>
      snd (SessionManager.createSession sessionId uuid created accessed config
             sessions)
  | GetSession now sessionId => snd (SessionManager.getSession now sessionId sessions)
  | GetNetwork now sessionId => snd (SessionManager.getNetwork now sessionId sessions)
  | DeleteSession sessionId => snd (SessionManager.deleteSession sessionId sessions)
  | GetAllSessions => snd (SessionManager.getAllSessions sessions)
  | CleanupSessions now maxAgeMs =>
      snd (SessionManager.cleanupSessions now maxAgeMs sessions)
  end.

Inductive managed : JsMap.t Session -> Prop :=
| managed_new : managed SessionManager.new
| managed_call (c : SessionCall) (sessions : JsMap.t Session) :
    managed sessions -> managed (after_session_call c sessions).

(** A configuration without name and default concepts, and a manager that
    created two sessions with it, at the times 100 and 200. *)
Definition plain_config : SessionConfig :=
  {| config_name := None; config_defaultConcepts := None |}.

Definition two_sessions : JsMap.t Session :=
  snd (SessionManager.createSession "bbbbbbbb-2" "" 200 200 plain_config
         (snd (SessionManager.createSession "aaaaaaaa-1" "" 100 100 plain_config
                 SessionManager.new))).

(* ================================================================== *)
(** * Properties *)

Local Open Scope js_scope.

(** Unfolds the monad of the methods. *)
Ltac run_M :=
  cbv beta iota zeta delta [bind this ret throw set_nodes set_activationHistory
    set_iterationCount set_params for_each_node on_node] in *;
  cbn [nodes activationHistory iterationCount params] in *.

(* ------------------------------------------------------------------ *)
(** ** Facts about [Map] *)

Section JsMapFacts.
Variable V : Type.
Implicit Types (m : JsMap.t V) (k : string) (v : V).

Lemma has_get m k : JsMap.has k m = true <-> exists v, JsMap.get k m = Some v.
Proof.
  unfold JsMap.has. destruct (JsMap.get k m) as [v|]; split; intros H.
  - now exists v.
  - reflexivity.
  - discriminate.
  - destruct H as [v H]. discriminate.
Qed.

Lemma has_false_get m k : JsMap.has k m = false <-> JsMap.get k m = None.
Proof.
  unfold JsMap.has. destruct (JsMap.get k m); split; intros H;
    try reflexivity; discriminate.
Qed.

Lemma get_In m k v : JsMap.get k m = Some v -> In (k, v) m.
Proof.
  induction m as [|[k' v'] m IH]; simpl; [discriminate|].
  destruct (String.eqb_spec k' k) as [->|Hne]; intros H.
  - injection H as ->. now left.
  - right. now apply IH.
Qed.

Lemma In_has m k v : In (k, v) m -> JsMap.has k m = true.
Proof.
  unfold JsMap.has. induction m as [|[k' v'] m IH]; simpl; [tauto|].
  intros [H|H].
  - injection H as -> ->. now rewrite String.eqb_refl.
  - destruct (String.eqb k' k); [reflexivity|]. now apply IH.
Qed.

Lemma has_In_keys m k : JsMap.has k m = true <-> In k (JsMap.keys m).
Proof.
  split.
  - intros H. apply has_get in H as [v H]. apply get_In in H.
    unfold JsMap.keys. now apply (in_map fst) in H.
  - unfold JsMap.keys. intros H. apply in_map_iff in H as [[k' v] [<- H]].
    simpl. now apply In_has with v.
Qed.

Lemma wf_In_get m k v : JsMap.wf m -> In (k, v) m -> JsMap.get k m = Some v.
Proof.
  unfold JsMap.wf. induction m as [|[k' v'] m IH]; simpl; [tauto|].
  intros Hnd [H|H].
  - injection H as -> ->. now rewrite String.eqb_refl.
  - inversion Hnd as [|? ? Hnotin Hnd']; subst.
    destruct (String.eqb_spec k' k) as [->|Hne].
    + exfalso. apply Hnotin. apply has_In_keys. now apply In_has with v.
    + now apply IH.
Qed.

Lemma get_remove_eq m k : JsMap.get k (JsMap.remove k m) = None.
Proof.
  induction m as [|[k' v'] m IH]; simpl; [reflexivity|].
  destruct (String.eqb k' k) eqn:E; simpl; [assumption|].
  now rewrite E.
Qed.

Lemma get_remove_neq m k k' :
  k' <> k -> JsMap.get k' (JsMap.remove k m) = JsMap.get k' m.
Proof.
  intros Hne. induction m as [|[k0 v0] m IH]; simpl; [reflexivity|].
  destruct (String.eqb_spec k0 k) as [->|Hk]; simpl.
  - destruct (String.eqb_spec k k') as [->|_]; [congruence | assumption].
  - now rewrite IH.
Qed.

Lemma keys_remove m k :
  JsMap.keys (JsMap.remove k m)
  = filter (fun k' => negb (String.eqb k' k)) (JsMap.keys m).
Proof.
  unfold JsMap.keys. induction m as [|[k0 v0] m IH]; simpl; [reflexivity|].
  destruct (String.eqb k0 k); simpl; now rewrite IH.
Qed.

Lemma get_update_eq m k f :
  JsMap.get k (JsMap.update k f m) = option_map f (JsMap.get k m).
Proof.
  induction m as [|[k0 v0] m IH]; simpl; [reflexivity|].
  destruct (String.eqb k0 k) eqn:E; simpl; now rewrite E.
Qed.

Lemma get_update_neq m k k' f :
  k' <> k -> JsMap.get k' (JsMap.update k f m) = JsMap.get k' m.
Proof.
  intros Hne. induction m as [|[k0 v0] m IH]; simpl; [reflexivity|].
  destruct (String.eqb_spec k0 k) as [->|Hk]; simpl.
  - destruct (String.eqb_spec k k') as [->|_]; [congruence | reflexivity].
  - now rewrite IH.
Qed.

Lemma keys_update m k f : JsMap.keys (JsMap.update k f m) = JsMap.keys m.
Proof.
  unfold JsMap.keys. induction m as [|[k0 v0] m IH]; simpl; [reflexivity|].
  destruct (String.eqb k0 k); simpl; [reflexivity | now rewrite IH].
Qed.

Lemma get_set_eq m k v : JsMap.get k (JsMap.set k v m) = Some v.
Proof.
  induction m as [|[k0 v0] m IH]; simpl.
  - now rewrite String.eqb_refl.
  - destruct (String.eqb k0 k) eqn:E; simpl; now rewrite E.
Qed.

Lemma get_set_neq m k k' v :
  k' <> k -> JsMap.get k' (JsMap.set k v m) = JsMap.get k' m.
Proof.
  intros Hne. induction m as [|[k0 v0] m IH]; simpl.
  - destruct (String.eqb_spec k k') as [->|_]; [congruence | reflexivity].
  - destruct (String.eqb_spec k0 k) as [->|Hk]; simpl.
    + destruct (String.eqb_spec k k') as [->|_]; [congruence | reflexivity].
    + now rewrite IH.
Qed.

Lemma keys_set_present m k v :
  JsMap.has k m = true -> JsMap.keys (JsMap.set k v m) = JsMap.keys m.
Proof.
  unfold JsMap.keys, JsMap.has.
  induction m as [|[k0 v0] m IH]; simpl; [discriminate|].
  destruct (String.eqb k0 k); simpl; intros H; [reflexivity|].
  now rewrite IH.
Qed.

Lemma set_absent m k v :
  JsMap.has k m = false -> JsMap.set k v m = m ++ [(k, v)].
Proof.
  unfold JsMap.has.
  induction m as [|[k0 v0] m IH]; simpl; [reflexivity|].
  destruct (String.eqb k0 k); simpl; intros H; [discriminate|].
  now rewrite IH.
Qed.

Lemma get_app m m' k :
  JsMap.get k (m ++ m')
  = match JsMap.get k m with Some v => Some v | None => JsMap.get k m' end.
Proof.
  induction m as [|[k0 v0] m IH]; simpl; [reflexivity|].
  now destruct (String.eqb k0 k).
Qed.
End JsMapFacts.

Lemma get_map_values (V W : Type) (f : V -> W) (m : JsMap.t V) (k : string) :
  JsMap.get k (map (fun e => (fst e, f (snd e))) m) = option_map f (JsMap.get k m).
Proof.
  induction m as [|[k0 v0] m IH]; simpl; [reflexivity|].
  now destruct (String.eqb k0 k).
Qed.

Lemma keys_map_values (V W : Type) (f : V -> W) (m : JsMap.t V) :
  JsMap.keys (map (fun e => (fst e, f (snd e))) m) = JsMap.keys m.
Proof.
  unfold JsMap.keys. rewrite map_map. reflexivity.
Qed.

(* ------------------------------------------------------------------ *)
(** ** Graph mutation: [removeConcept] and [addConnection] *)

Lemma removeConnection_node (x : string) (n : ConceptNode) :
  same_but_connections n (snd (Node.removeConnection x n)) /\
  forall t, JsMap.get t (connections (snd (Node.removeConnection x n)))
            = if String.eqb t x then None else JsMap.get t (connections n).
Proof.
  unfold Node.removeConnection, same_but_connections; simpl.
  repeat split; try reflexivity.
  intros t. destruct (String.eqb_spec t x) as [->|Hne].
  - apply get_remove_eq.
  - now apply get_remove_neq.
Qed.

(** C6.  [removeConcept(x)]: when [x] is absent the call returns [false] and
    the network is unchanged.  When [x] is present the call returns [true],
    node [x] is gone, the other nodes stay in their order, each of them
    keeps its fields and its outgoing edges except the edge to [x], and so
    no remaining node has [x] as an edge target; history, counter and
    parameters are untouched. *)
Theorem removeConcept_cascade (x : string) (net : ConceptNetwork) :
  (JsMap.has x (nodes net) = false ->
   Net.removeConcept x net = (Return false, net)) /\
  (JsMap.has x (nodes net) = true ->
   exists net',
     Net.removeConcept x net = (Return true, net') /\
     same_but_nodes net net' /\
     JsMap.get x (nodes net') = None /\
     JsMap.keys (nodes net')
     = filter (fun k => negb (String.eqb k x)) (JsMap.keys (nodes net)) /\
     (forall k n, k <> x -> JsMap.get k (nodes net) = Some n ->
        exists n', JsMap.get k (nodes net') = Some n' /\
                   same_but_connections n n' /\
                   forall t, JsMap.get t (connections n')
                             = if String.eqb t x then None
                               else JsMap.get t (connections n)) /\
     (forall k n', In (k, n') (nodes net') ->
                   JsMap.has x (connections n') = false)).
Proof.
  pose (f := fun n => snd (Node.removeConnection x n)).
  split; intros Hx.
  - unfold Net.removeConcept. destruct net as [m h i p]; run_M.
    rewrite Hx. reflexivity.
  - unfold Net.removeConcept. destruct net as [m h i p]; run_M.
    rewrite Hx. unfold JsMap.delete. cbv [negb]. run_M.
    change (fun e : string * ConceptNode =>
              (fst e, snd (Node.removeConnection x (snd e))))
      with (fun e : string * ConceptNode => (fst e, f (snd e))).
    assert (Hb : JsMap.has x (map (fun e => (fst e, f (snd e))) m) = true).
    { unfold JsMap.has in *. rewrite get_map_values.
      destruct (JsMap.get x m); [reflexivity | discriminate]. }
    rewrite Hb. eexists. split; [reflexivity|]. run_M.
    split; [|split; [|split; [|split]]].
    + unfold same_but_nodes. run_M. auto.
    + apply get_remove_eq.
    + rewrite keys_remove, keys_map_values. reflexivity.
    + intros k n Hk Hget.
      rewrite get_remove_neq by assumption. rewrite get_map_values, Hget.
      eexists. split; [reflexivity|]. apply removeConnection_node.
    + intros k n' Hin.
      unfold JsMap.remove in Hin. apply filter_In in Hin as [Hin _].
      apply in_map_iff in Hin as [[k0 n0] [Heq _]].
      injection Heq as _ <-.
      apply has_false_get.
      destruct (removeConnection_node x n0) as [_ H]. unfold f. simpl snd at 1.
      rewrite H. now rewrite String.eqb_refl.
Qed.

Lemma safeWeight_clamps (weight : R) :
  0 <= Net.safeWeight weight <= 1 /\
  (0 <= weight <= 1 -> Net.safeWeight weight = weight) /\
  (weight < 0 -> Net.safeWeight weight = 0) /\
  (1 < weight -> Net.safeWeight weight = 1).
Proof.
  unfold Net.safeWeight, Rmax, Rmin.
  repeat split; repeat destruct (Rle_dec _ _); intros; lra.
Qed.

(** [addConnection(source, target, weight, bidirectional)] for a weight that
    is a real number (for the weights of binary64, [NaN] among them, see the
    last part of the file).  The stored weight is [weight] saturated into
    [0,1] ([-5] gives [0], [5] gives [1]).
    If an endpoint is absent the call throws "not found" for it and the
    network is unchanged.  If both are present the call returns, the node
    set and order are unchanged, and the edge maps are the old ones except
    that source->target, and with [bidirectional] also target->source, now
    hold exactly the saturated weight, whatever they held before. *)
Theorem addConnection_stores_clamped
    (source target : string) (weight : R) (bidirectional : bool)
    (net : ConceptNetwork) :
  let w := Net.safeWeight weight in
  (0 <= w <= 1 /\ (0 <= weight <= 1 -> w = weight) /\
   (weight < 0 -> w = 0) /\ (1 < weight -> w = 1)) /\
  Net.safeWeight (-5) = 0 /\ Net.safeWeight 5 = 1 /\
  (JsMap.has source (nodes net) = false ->
   Net.addConnection source target (Some weight) (Some bidirectional) net
   = (Throw (ConceptNotFound source), net)) /\
  (JsMap.has source (nodes net) = true ->
   JsMap.has target (nodes net) = false ->
   Net.addConnection source target (Some weight) (Some bidirectional) net
   = (Throw (ConceptNotFound target), net)) /\
  (JsMap.has source (nodes net) = true ->
   JsMap.has target (nodes net) = true ->
   exists net',
     Net.addConnection source target (Some weight) (Some bidirectional) net
     = (Return tt, net') /\
     same_but_nodes net net' /\
     JsMap.keys (nodes net') = JsMap.keys (nodes net) /\
     forall k n, JsMap.get k (nodes net) = Some n ->
       exists n', JsMap.get k (nodes net') = Some n' /\
                  same_but_connections n n' /\
                  forall t, JsMap.get t (connections n')
                            = if (String.eqb k source && String.eqb t target)
                                 || (bidirectional && String.eqb k target
                                     && String.eqb t source)
                              then Some w
                              else JsMap.get t (connections n)).
Proof.
  intros w. split; [apply safeWeight_clamps|].
  split; [apply safeWeight_clamps; lra|].
  split; [apply safeWeight_clamps; lra|].
  unfold Net.addConnection, Net.getConcept. fold w.
  destruct net as [m h i p]. cbn [nodes].
  split; [|split].
  - intros Hs. apply has_false_get in Hs. run_M. now rewrite Hs.
  - intros Hs Ht. apply has_get in Hs as [ns Hs]. apply has_false_get in Ht.
    run_M. rewrite Hs. run_M. now rewrite Ht.
  - intros Hs Ht. apply has_get in Hs as [ns Hs]. apply has_get in Ht as [nt Ht].
    run_M. rewrite Hs. run_M. rewrite Ht. run_M. rewrite Hs. run_M.
    assert (Hnode : forall a b (n : ConceptNode),
               same_but_connections n (Node.addConnection a b n))
      by (intros; unfold same_but_connections; simpl; tauto).
    assert (Hrefl : forall n : ConceptNode, same_but_connections n n)
      by (intros; unfold same_but_connections; tauto).
    destruct bidirectional; run_M.
    + assert (Ht' : exists nt', JsMap.get target
                (JsMap.update source (Node.addConnection target w) m)
                = Some nt').
      { destruct (String.eqb_spec target source) as [->|Hne].
        - rewrite get_update_eq, Hs. simpl. eauto.
        - rewrite get_update_neq, Ht by assumption. eauto. }
      destruct Ht' as [nt' Ht']. rewrite Ht'. run_M.
      eexists. split; [reflexivity|]. run_M.
      split; [unfold same_but_nodes; simpl; auto|].
      split; [now rewrite !keys_update|].
      intros k n Hk.
      destruct (String.eqb_spec k target) as [Hkt|Hkt];
        destruct (String.eqb_spec k source) as [Hks|Hks]; subst; simpl.
      * rewrite get_update_eq, get_update_eq, Hk. simpl.
        eexists. split; [reflexivity|]. split.
        { unfold same_but_connections; simpl; tauto. }
        intros t. simpl.
        destruct (String.eqb_spec t source) as [->|Hts]; simpl.
        { now rewrite get_set_eq. }
        { now rewrite !get_set_neq by assumption. }
      * rewrite get_update_eq, get_update_neq, Hk by assumption. simpl.
        eexists. split; [reflexivity|]. split; [apply Hnode|].
        intros t. simpl.
        destruct (String.eqb_spec t source) as [->|Hts]; simpl.
        { now rewrite get_set_eq. }
        { now rewrite !get_set_neq by assumption. }
      * rewrite get_update_neq, get_update_eq, Hk by assumption. simpl.
        eexists. split; [reflexivity|]. split; [apply Hnode|].
        intros t. simpl.
        destruct (String.eqb_spec t target) as [->|Htt]; simpl.
        { now rewrite get_set_eq. }
        { now rewrite !get_set_neq by assumption. }
      * rewrite !get_update_neq, Hk by assumption.
        eexists. split; [reflexivity|]. split; [apply Hrefl | reflexivity].
    + eexists. split; [reflexivity|]. run_M.
      split; [unfold same_but_nodes; simpl; auto|].
      split; [now rewrite keys_update|].
      intros k n Hk.
      destruct (String.eqb_spec k source) as [->|Hks]; simpl.
      * rewrite get_update_eq, Hk. simpl.
        eexists. split; [reflexivity|]. split; [apply Hnode|].
        intros t. simpl.
        destruct (String.eqb_spec t target) as [->|Htt]; simpl.
        { now rewrite get_set_eq. }
        { now rewrite !get_set_neq by assumption. }
      * rewrite get_update_neq, Hk by assumption.
        eexists. split; [reflexivity|]. split; [apply Hrefl | reflexivity].
Qed.

(* ------------------------------------------------------------------ *)
(** ** Seeding: [setInitialActivation] *)

(** A loop that calls a mutating method on the stored node of each listed
    id that is present: what it does to the node map. *)
Section GuardedUpdates.
Variable A : Type.
Variable key : A -> string.
Variable method : A -> ConceptNode -> ConceptNode.

Lemma for_of_guarded (xs : list A) (net : ConceptNetwork) :
  for_of xs
    (fun x => s <- this ;;
              if JsMap.has (key x) (nodes s)
              then on_node (key x) (method x)
              else ret tt) net
  = (Return tt, with_nodes net (fold_left (guarded_step key method) xs (nodes net))).
Proof.
  revert net. induction xs as [|x xs IH]; intros [m h i p].
  - reflexivity.
  - cbn [for_of fold_left]. run_M. unfold guarded_step at 2.
    destruct (JsMap.has (key x) m) eqn:E; run_M.
    + apply has_get in E as [n E]. rewrite E. run_M. rewrite IH. reflexivity.
    + rewrite IH. reflexivity.
Qed.

Lemma keys_guarded (xs : list A) (m : JsMap.t ConceptNode) :
  JsMap.keys (fold_left (guarded_step key method) xs m) = JsMap.keys m.
Proof.
  revert m. induction xs as [|x xs IH]; intros m; [reflexivity|].
  cbn [fold_left]. rewrite IH. unfold guarded_step.
  destruct (JsMap.has (key x) m); [apply keys_update | reflexivity].
Qed.

Lemma get_guarded (xs : list A) (m : JsMap.t ConceptNode) (k : string) :
  JsMap.get k (fold_left (guarded_step key method) xs m)
  = option_map (calls_on key method k xs) (JsMap.get k m).
Proof.
  revert m. induction xs as [|x xs IH]; intros m.
  - simpl. now destruct (JsMap.get k m).
  - cbn [fold_left]. rewrite IH. unfold guarded_step, calls_on. cbn [fold_left].
    destruct (String.eqb_spec (key x) k) as [<-|Hne].
    + destruct (JsMap.has (key x) m) eqn:E.
      * rewrite get_update_eq. now destruct (JsMap.get (key x) m).
      * apply has_false_get in E. now rewrite E.
    + destruct (JsMap.has (key x) m); [|reflexivity].
      rewrite get_update_neq by congruence. reflexivity.
Qed.
End GuardedUpdates.

(** A run of [updateActivation] calls on one node. *)
Lemma calls_on_updateActivation (A : Type) (key : A -> string) (val : A -> R)
    (k : string) (xs : list A) (n : ConceptNode) :
  let n' := calls_on key (fun x => Node.updateActivation (val x)) k xs n in
  same_but_activation n n' /\
  (~ In k (map key xs) ->
   activation n' = activation n /\ prevActivation n' = prevActivation n) /\
  (forall x, In x xs -> key x = k ->
             (forall y, In y xs -> key y = k -> val y = val x) ->
             activation n' = val x) /\
  (forall x, In x xs -> key x = k -> NoDup (map key xs) ->
             prevActivation n' = activation n).
Proof.
  unfold calls_on. revert n. induction xs as [|a xs IH]; intros n; cbn [fold_left].
  - unfold same_but_activation. repeat split; try reflexivity; intros x [].
  - set (n1 := if String.eqb (key a) k then Node.updateActivation (val a) n else n).
    destruct (IH n1) as (Hsame & Hout & Hval & Hprev).
    assert (Hsame1 : same_but_activation n n1).
    { unfold n1, same_but_activation.
      destruct (String.eqb (key a) k); simpl; tauto. }
    split; [|split; [|split]].
    + unfold same_but_activation in *.
      destruct Hsame as (? & ? & ? & ? & ?), Hsame1 as (? & ? & ? & ? & ?).
      repeat split; congruence.
    + intros Hnot. simpl in Hnot.
      destruct Hout as [Ha Hp]; [tauto|]. rewrite Ha, Hp. unfold n1.
      destruct (String.eqb_spec (key a) k); [tauto | auto].
    + intros x Hx Hk Hall.
      destruct (in_dec string_dec k (map key xs)) as [Hin|Hnot].
      * apply in_map_iff in Hin as [y [Hy Hyin]].
        rewrite (Hval y Hyin Hy).
        -- apply Hall; [now right | assumption].
        -- intros z Hz Hzk. rewrite (Hall z), (Hall y); auto; now right.
      * destruct (Hout Hnot) as [-> _].
        destruct Hx as [->|Hx].
        -- unfold n1. rewrite <- Hk, String.eqb_refl. reflexivity.
        -- exfalso. apply Hnot. apply in_map_iff. eauto.
    + intros x Hx Hk Hnd. simpl in Hnd. inversion Hnd as [|? ? Hnotin Hnd']; subst.
      destruct Hx as [->|Hx].
      * destruct (Hout Hnotin) as [_ ->]. unfold n1.
        rewrite String.eqb_refl. reflexivity.
      * rewrite (Hprev x Hx eq_refl Hnd'). unfold n1.
        destruct (String.eqb_spec (key a) (key x)) as [E|_]; [|reflexivity].
        exfalso. apply Hnotin. rewrite E. now apply in_map.
Qed.

Lemma setInitialActivation_run (concepts : Net.Selection)
    (activationValue : option R) (net : ConceptNetwork) :
  let m' := seeded concepts
              (match activationValue with Some v => v | None => 1.0 end)
              (nodes net) in
  Net.setInitialActivation concepts activationValue net
  = (Return tt,
     {| nodes := m';
        activationHistory :=
          [{| entry_iteration := 0; entry_activations := Net.snapshot m' |}];
        iterationCount := 1;
        params := params net |}).
Proof.
  destruct net as [m h i p]. unfold Net.setInitialActivation, seeded.
  unfold Net.recordActivationState.
  destruct concepts as [ids|entries|]; run_M.
  - rewrite (for_of_guarded (fun i : string => i)
               (fun _ : string => Node.updateActivation
                  (match activationValue with Some v => v | None => 1.0 end))).
    reflexivity.
  - rewrite (for_of_guarded (@fst string R)
               (fun e : string * R => Node.updateActivation (snd e))).
    reflexivity.
  - reflexivity.
Qed.

(** C2, as the code has it.  [setInitialActivation] never throws, whatever
    ids the selection names; it keeps the node set, every node's other
    fields and the parameters.  Every node's activation is first moved into
    its previousActivation and set to 0, so a node outside the selection
    ends with activation 0 and with its activation of before the call as
    previousActivation.  A selected node that is present ends with the
    selected value (an id of the array gets the uniform value, an id of the
    object its own value).  The history is cleared and holds one entry, of
    round 0, with the snapshot of the state after reset and seeding; the
    counter is 1. *)
Theorem setInitialActivation_reset_and_seed (concepts : Net.Selection)
    (activationValue : option R) (net : ConceptNetwork) :
  let value := match activationValue with Some v => v | None => 1.0 end in
  exists net',
    Net.setInitialActivation concepts activationValue net = (Return tt, net') /\
    params net' = params net /\
    JsMap.keys (nodes net') = JsMap.keys (nodes net) /\
    activationHistory net'
    = [{| entry_iteration := 0;
          entry_activations := Net.snapshot (nodes net') |}] /\
    iterationCount net' = 1%Z /\
    forall k n, JsMap.get k (nodes net) = Some n ->
      exists n', JsMap.get k (nodes net') = Some n' /\
                 same_but_activation n n' /\
                 (~ selected concepts k ->
                  activation n' = 0 /\ prevActivation n' = activation n) /\
                 (forall x, selects concepts value k x -> activation n' = x).
Proof.
  intros value. eexists. split; [apply setInitialActivation_run|].
  cbn [nodes activationHistory iterationCount params]. fold value.
  split; [reflexivity|]. split.
  { unfold seeded. destruct concepts; rewrite ?keys_guarded; apply keys_map_values. }
  split; [reflexivity|]. split; [reflexivity|].
  intros k n Hk.
  set (n0 := Node.updateActivation 0.0 n).
  assert (H0 : JsMap.get k
                 (map (fun e => (fst e, Node.updateActivation 0.0 (snd e)))
                      (nodes net)) = Some n0)
    by (rewrite get_map_values, Hk; reflexivity).
  assert (Hs0 : same_but_activation n n0)
    by (unfold same_but_activation; simpl; tauto).
  assert (Ha0 : activation n0 = 0) by (simpl; lra).
  assert (Hp0 : prevActivation n0 = activation n) by reflexivity.
  assert (Htrans : forall n1, same_but_activation n0 n1 -> same_but_activation n n1).
  { unfold same_but_activation in *. intros n1 (? & ? & ? & ? & ?).
    destruct Hs0 as (? & ? & ? & ? & ?). repeat split; congruence. }
  unfold seeded. destruct concepts as [ids|entries|]; cbn [selected selects].
  - rewrite get_guarded, H0. cbn [option_map].
    eexists. split; [reflexivity|].
    destruct (calls_on_updateActivation (fun i : string => i) (fun _ => value)
                k ids n0) as (Hsame & Hout & Hval & _).
    rewrite map_id in Hout.
    split; [auto|]. split.
    + intros Hnot. destruct (Hout Hnot) as [-> ->]. auto.
    + intros x [Hin ->]. apply (Hval k Hin eq_refl). reflexivity.
  - rewrite get_guarded, H0. cbn [option_map].
    eexists. split; [reflexivity|].
    destruct (calls_on_updateActivation (@fst string R) (@snd string R)
                k entries n0) as (Hsame & Hout & Hval & _).
    split; [auto|]. split.
    + intros Hnot. destruct (Hout Hnot) as [-> ->]. auto.
    + intros x [Hin Hnd]. apply (Hval (k, x) Hin eq_refl).
      intros [k' y] Hy Hk'. simpl in *. subst k'.
      clear - Hin Hy Hnd. induction entries as [|[k0 z] entries IH]; [destruct Hin|].
      simpl in *. inversion Hnd as [|? ? Hnotin Hnd']; subst.
      destruct Hin as [Hin|Hin], Hy as [Hy|Hy].
      * congruence.
      * injection Hin as -> ->. exfalso. apply Hnotin.
        apply in_map_iff. exists (k, y). auto.
      * injection Hy as -> ->. exfalso. apply Hnotin.
        apply in_map_iff. exists (k, x). auto.
      * auto.
  - exists n0. split; [exact H0|]. split; [exact Hs0|].
    split; [auto | intros x []].
Qed.

(* ------------------------------------------------------------------ *)
(** ** The analysis methods do not write *)

(** C10.  [getTopActivatedConcepts], [identifyEmergentPatterns],
    [getNetworkSize] and [generateSummary] leave the network object as it
    was, whether they return or throw: the node map (so every node's
    activation, previousActivation, outgoing edges and metadata), the
    activation history, the iteration counter and the parameters after the
    call are those of before the call. *)
Theorem analysis_is_read_only (net : ConceptNetwork) :
  (forall limit threshold,
      snd (Net.getTopActivatedConcepts limit threshold net) = net) /\
  (forall uuid threshold,
      snd (Net.identifyEmergentPatterns uuid threshold net) = net) /\
  snd (Net.getNetworkSize net) = net /\
  (forall uuid, snd (Net.generateSummary uuid net) = net).
Proof.
  assert (Htop : forall limit threshold,
             snd (Net.getTopActivatedConcepts limit threshold net) = net)
    by reflexivity.
  assert (Hpat : forall uuid threshold,
             snd (Net.identifyEmergentPatterns uuid threshold net) = net).
  { intros uuid threshold. unfold Net.identifyEmergentPatterns. run_M.
    now destruct (Net.collect _ _ _ _ _ _). }
  assert (Hsize : snd (Net.getNetworkSize net) = net) by reflexivity.
  repeat split; auto.
  intros uuid. unfold Net.generateSummary, bind.
  destruct (Net.getTopActivatedConcepts (Some 5%Z) None net) as [[top|e] s1] eqn:E1;
    pose proof (Htop (Some 5%Z) None) as H1; rewrite E1 in H1; simpl in H1; subst s1;
    [|reflexivity].
  destruct (Net.identifyEmergentPatterns uuid None net) as [[pats|e] s2] eqn:E2;
    pose proof (Hpat uuid None) as H2; rewrite E2 in H2; simpl in H2; subst s2;
    reflexivity.
Qed.

(* ------------------------------------------------------------------ *)
(** ** One round: [spreadActivation] *)

Lemma map_ext_get (V : Type) (m1 m2 : JsMap.t V) :
  JsMap.keys m1 = JsMap.keys m2 -> JsMap.wf m1 ->
  (forall k, JsMap.get k m1 = JsMap.get k m2) -> m1 = m2.
Proof.
  unfold JsMap.wf, JsMap.keys. revert m2.
  induction m1 as [|[k1 v1] m1 IH]; intros [|[k2 v2] m2]; simpl;
    try discriminate; [reflexivity|].
  intros Hkeys Hnd Hget. injection Hkeys as -> Hkeys.
  inversion Hnd as [|? ? Hnotin Hnd']; subst.
  pose proof (Hget k2) as H2. simpl in H2. rewrite String.eqb_refl in H2.
  injection H2 as ->. f_equal. apply IH; [assumption | assumption |].
  intros k. specialize (Hget k). simpl in Hget.
  destruct (String.eqb_spec k2 k) as [E|Hne]; [subst k|assumption].
  assert (H1 : JsMap.get k2 m1 = None).
  { apply has_false_get. destruct (JsMap.has k2 m1) eqn:E; [|reflexivity].
    apply has_In_keys in E. contradiction. }
  assert (H3 : JsMap.get k2 m2 = None).
  { apply has_false_get. destruct (JsMap.has k2 m2) eqn:E; [|reflexivity].
    apply has_In_keys in E. unfold JsMap.keys in E. rewrite <- Hkeys in E.
    contradiction. }
  congruence.
Qed.

Lemma calls_on_once (A : Type) (key : A -> string)
    (method : A -> ConceptNode -> ConceptNode) (xs : list A) (x : A)
    (n : ConceptNode) :
  NoDup (map key xs) -> In x xs ->
  calls_on key method (key x) xs n = method x n.
Proof.
  unfold calls_on. revert n. induction xs as [|a xs IH]; intros n Hnd Hin;
    [destruct Hin|].
  simpl in Hnd. inversion Hnd as [|? ? Hnotin Hnd']; subst.
  cbn [fold_left]. destruct Hin as [->|Hin].
  - rewrite String.eqb_refl.
    assert (Hrest : forall n0, fold_left
              (fun n1 y => if String.eqb (key y) (key x) then method y n1 else n1)
              xs n0 = n0).
    { clear - Hnotin. induction xs as [|b xs IH]; intros n0; [reflexivity|].
      cbn [fold_left]. simpl in Hnotin.
      destruct (String.eqb_spec (key b) (key x)) as [E|_]; [tauto|].
      apply IH. tauto. }
    apply Hrest.
  - destruct (String.eqb_spec (key a) (key x)) as [E|_].
    + exfalso. apply Hnotin. rewrite E. now apply in_map.
    + now apply IH.
Qed.

Lemma calls_on_none (A : Type) (key : A -> string)
    (method : A -> ConceptNode -> ConceptNode) (xs : list A) (k : string)
    (n : ConceptNode) :
  ~ In k (map key xs) -> calls_on key method k xs n = n.
Proof.
  unfold calls_on. revert n. induction xs as [|a xs IH]; intros n Hnot;
    [reflexivity|].
  cbn [fold_left]. simpl in Hnot.
  destruct (String.eqb_spec (key a) k) as [E|_]; [tauto|]. apply IH. tauto.
Qed.

Lemma fold_set_fresh (V W : Type) (g : string * V -> W)
    (l : JsMap.t V) (acc : JsMap.t W) :
  NoDup (JsMap.keys acc ++ JsMap.keys l) ->
  fold_left (fun acc e => JsMap.set (fst e) (g e) acc) l acc
  = acc ++ map (fun e => (fst e, g e)) l.
Proof.
  revert acc. induction l as [|[k v] l IH]; intros acc Hnd; cbn [fold_left map].
  - now rewrite app_nil_r.
  - cbn [JsMap.keys map fst] in Hnd.
    rewrite set_absent.
    + rewrite IH.
      * now rewrite <- app_assoc.
      * unfold JsMap.keys in *. rewrite map_app. cbn [map fst].
        rewrite <- app_assoc. exact Hnd.
    + cbn [fst]. destruct (JsMap.has k acc) eqn:E; [|reflexivity].
      apply has_In_keys in E. apply NoDup_remove_2 in Hnd.
      exfalso. apply Hnd. apply in_or_app. now left.
Qed.

Lemma newActivations_wf (m : JsMap.t ConceptNode) (d : R) :
  JsMap.wf m ->
  Net.newActivations m d = map (fun e => (fst e, next_activation m d (snd e))) m.
Proof.
  intros Hwf. unfold Net.newActivations, JsMap.entries.
  rewrite (fold_set_fresh (fun e => next_activation m d (snd e))); [reflexivity|].
  exact Hwf.
Qed.

Lemma keys_fold_set (V W : Type) (g : string * V -> W)
    (l : JsMap.t V) (acc : JsMap.t W) (k : string) :
  In k (JsMap.keys (fold_left (fun acc e => JsMap.set (fst e) (g e) acc) l acc))
  -> In k (JsMap.keys acc) \/ In k (JsMap.keys l).
Proof.
  revert acc. induction l as [|[k0 v0] l IH]; intros acc; cbn [fold_left].
  - auto.
  - intros H. apply IH in H as [H|H].
    + apply has_In_keys in H. apply has_get in H as [w H].
      destruct (String.eqb_spec k k0) as [->|Hne].
      * right. now left.
      * rewrite get_set_neq in H by assumption. left.
        apply has_In_keys. apply has_get. eauto.
    + right. now right.
Qed.

Lemma for_of_on_node (A : Type) (key : A -> string)
    (method : A -> ConceptNode -> ConceptNode) (xs : list A)
    (net : ConceptNetwork) :
  (forall x, In x xs -> In (key x) (JsMap.keys (nodes net))) ->
  for_of xs (fun x => on_node (key x) (method x)) net
  = (Return tt, with_nodes net (fold_left (guarded_step key method) xs (nodes net))).
Proof.
  revert net. induction xs as [|x xs IH]; intros [m h i p] Hin.
  - reflexivity.
  - cbn [for_of fold_left]. run_M. unfold guarded_step at 2.
    assert (E : JsMap.has (key x) m = true)
      by (apply has_In_keys, Hin; now left).
    rewrite E. apply has_get in E as [n E]. rewrite E. run_M.
    rewrite IH; [reflexivity|].
    intros y Hy. cbn [nodes]. rewrite keys_update. apply Hin. now right.
Qed.

(** [spreadActivation] never throws; its result and final state. *)
Lemma spreadActivation_run (rate : option R) (net : ConceptNetwork) :
  let d := match rate with Some d => d | None => decayRate (params net) end in
  let m' := spread_nodes (nodes net) d in
  Net.spreadActivation rate net
  = (Return {| Net.res_iteration := iterationCount net + 1 - 1;
               Net.res_totalDelta := total_delta m' |},
     {| nodes := m';
        activationHistory :=
          activationHistory net ++
            [{| entry_iteration := iterationCount net;
                entry_activations := Net.snapshot m' |}];
        iterationCount := iterationCount net + 1;
        params := params net |}).
Proof.
  destruct net as [m h i p]. cbn [nodes params iterationCount activationHistory].
  unfold Net.spreadActivation, Net.recordActivationState, JsMap.entries.
  unfold bind at 1. unfold this at 1. cbn [params nodes].
  unfold bind at 1.
  rewrite (for_of_on_node (@fst string R)
             (fun e : string * R => Node.updateActivation (snd e))).
  - reflexivity.
  - intros [k v] Hin. cbn [nodes fst].
    apply (in_map fst) in Hin. cbn [fst] in Hin.
    apply (keys_fold_set _ _ _ k) in Hin as [[]|Hin]. exact Hin.
Qed.

Lemma spread_nodes_wf (m : JsMap.t ConceptNode) (d : R) :
  JsMap.wf m ->
  spread_nodes m d = map (fun e => (fst e, round_update m d (snd e))) m.
Proof.
  intros Hwf. unfold spread_nodes. apply map_ext_get.
  - now rewrite keys_guarded, keys_map_values.
  - unfold JsMap.wf. now rewrite keys_guarded.
  - intros k. rewrite get_guarded, get_map_values.
    destruct (JsMap.get k m) as [n|] eqn:E; [|reflexivity].
    cbn [option_map]. f_equal.
    rewrite newActivations_wf by assumption.
    apply get_In in E.
    change k with (fst (k, next_activation m d n)) at 1.
    apply (calls_on_once (@fst string R)
             (fun e : string * R => Node.updateActivation (snd e))).
    + rewrite map_map. cbn [fst]. exact Hwf.
    + apply in_map_iff. exists (k, n). auto.
Qed.

Lemma incomingActivation_sum (m : JsMap.t ConceptNode) (node : ConceptNode) :
  Net.incomingActivation m node = outgoing_sum m node.
Proof.
  unfold Net.incomingActivation, outgoing_sum, JsMap.entries.
  assert (H : forall l a,
    fold_left
      (fun incoming (e : string * R) =>
         if JsMap.has (fst e) m
         then match JsMap.get (fst e) m with
              | Some connectedNode => incoming + activation connectedNode * snd e
              | None => incoming
              end
         else incoming) l a
    = a + fold_right
            (fun (e : string * R) rest =>
               match JsMap.get (fst e) m with
               | Some target => activation target * snd e + rest
               | None => rest
               end) 0 l).
  { induction l as [|e l IH]; intros a; cbn [fold_left fold_right]; [lra|].
    rewrite IH. unfold JsMap.has.
    destruct (JsMap.get (fst e) m); lra. }
  rewrite H. lra.
Qed.

Ltac js_compute :=
  cbv -[Rplus Rmult Rminus Rdiv Ropp Rinv exp Rabs Rmax Rmin IZR Q2R
        Net.sigmoid Net.safeWeight Rge_dec Rgt_dec Rle_dec Req_dec_T].

(** C1.  One call [spreadActivation(d)] returns, keeps the node set, and
    gives every node [n] of the graph the activation
    [sigmoid(activation(n) * (1 - d) + sum)], where [sum] adds
    [activation(target) * w] over [n]'s own outgoing edges whose target is
    in the graph; [activation(n)] and every [activation(target)] are those
    of the state before the call.  The node's previousActivation becomes its
    activation of before the call, and its other fields are kept.  In
    scenario 1 the round ends with A at [sigmoid(0.9)] and B at
    [sigmoid(0.8)]; the binary64 computation of the two values ends there
    too, without rounding error in the arguments. *)
Theorem spreadActivation_synchronous :
  (forall (net : ConceptNetwork) (d : R), wf_net net ->
     exists res net',
       Net.spreadActivation (Some d) net = (Return res, net') /\
       JsMap.keys (nodes net') = JsMap.keys (nodes net) /\
       forall k n, In (k, n) (nodes net) ->
         exists n', JsMap.get k (nodes net') = Some n' /\
                    same_but_activation n n' /\
                    prevActivation n' = activation n /\
                    activation n'
                    = Net.sigmoid (activation n * (1 - d)
                                   + outgoing_sum (nodes net) n)) /\
  (exists res net' a b,
     scenario1 Net.new = (Return res, net') /\
     JsMap.get "A" (nodes net') = Some a /\
     JsMap.get "B" (nodes net') = Some b /\
     activation a = Net.sigmoid 0.9 /\
     activation b = Net.sigmoid 0.8) /\
  (forall approx : float -> float,
     Binary64.newActivation approx 1 0.1 [(0%float, 0.8%float)]
     = Binary64.sigmoid approx 0.9 /\
     Binary64.newActivation approx 0 0.1 [(1%float, 0.8%float)]
     = Binary64.sigmoid approx 0.8).
Proof.
  split; [|split].
  - intros net d [Hwf _]. do 2 eexists.
    split; [apply (spreadActivation_run (Some d))|].
    cbn [nodes]. rewrite spread_nodes_wf by assumption.
    split; [apply keys_map_values|].
    intros k n Hin.
    rewrite get_map_values, (wf_In_get _ _ Hwf Hin). cbn [option_map].
    eexists. split; [reflexivity|].
    split; [unfold same_but_activation; simpl; tauto|].
    split; [reflexivity|].
    unfold round_update, next_activation. cbn [activation Node.updateActivation].
    now rewrite incomingActivation_sum.
  - do 4 eexists. split; [|split; [|split]].
    + js_compute. reflexivity.
    + reflexivity.
    + reflexivity.
    + cbn [activation].
      assert (Hw : Net.safeWeight 0.8 = 0.8) by (apply safeWeight_clamps; lra).
      rewrite Hw. split; f_equal; lra.
  - intros approx. split; reflexivity.
Qed.

Lemma sigmoid_range (x : R) : 0 < Net.sigmoid x < 1.
Proof.
  unfold Net.sigmoid. pose proof (exp_pos (- x)) as Hexp.
  assert (Hinv : 0 < / (1 + exp (- x))) by (apply Rinv_0_lt_compat; lra).
  assert (Hone : (1 + exp (- x)) * / (1 + exp (- x)) = 1)
    by (apply Rinv_r; lra).
  unfold Rdiv. split; nra.
Qed.

(** In binary64 the value committed for a node of finite activation can be
    exactly 1 or exactly 0: with activation [2^1023], decay rate 0 and an
    edge of weight 1 to a node of the same activation, the argument of
    [sigmoid] overflows to [Infinity], [Math.exp(-Infinity)] is 0 and
    [1 / (1 + 0)] is 1; with the opposite activations the result is
    [1 / (1 + Infinity)], which is 0. *)
Lemma binary64_saturation (approx : float -> float) :
  is_finite 0x1p1023%float = true /\
  Binary64.newActivation approx 0x1p1023 0 [(0x1p1023%float, 1%float)] = 1%float /\
  Binary64.newActivation approx (-0x1p1023) 0 [((-0x1p1023)%float, 1%float)]
  = 0%float.
Proof. repeat split; reflexivity. Qed.

(** Rounding alone has the same effect on ordinary inputs: for a node of
    activation 40 without edges, decay rate 0, the committed value is
    exactly 1 when [Math.exp(-40)] is the double nearest to [e^(-40)],
    [0x1.39792499b1a24p-58], since [1 + Math.exp(-40)] rounds to 1. *)
Lemma binary64_rounding (approx : float -> float) :
  approx (-40)%float = 0x1.39792499b1a24p-58%float ->
  Binary64.newActivation approx 40 0 [] = 1%float.
Proof.
  intros H. unfold Binary64.newActivation, Binary64.sigmoid, Binary64.Math_exp.
  cbn [fold_left].
  change (- (40 * (1 - 0) + 0))%float with (-40)%float.
  change (is_nan (-40)) with false. change (is_zero (-40)) with false.
  change ((-40 =? infinity)%float) with false.
  change ((-40 =? neg_infinity)%float) with false.
  cbv iota. rewrite H. reflexivity.
Qed.

(** C5 fails as stated: for a node of finite activation [2^1023] with an
    edge of weight 1 to a node of the same activation, and decay rate 0, the
    value that [spreadActivation] commits is exactly 1, whatever the
    approximation [Math.exp] makes; 1 is not strictly inside (0,1). *)
Lemma spreadActivation_binary64_not_strict :
  is_finite 0x1p1023%float = true /\
  (forall approx : float -> float,
     Binary64.newActivation approx 0x1p1023 0 [(0x1p1023%float, 1%float)]
     = 1%float) /\
  Binary64.strictly_inside 1 = false.
Proof.
  split; [reflexivity|]. split; [|reflexivity].
  intros approx. apply (binary64_saturation approx).
Qed.

(* ------------------------------------------------------------------ *)
(** ** The convergence loop: [runUntilConvergence] *)

Lemma gtb_true (a b : R) : Js.gtb a b = true <-> a > b.
Proof. unfold Js.gtb. destruct (Rgt_dec a b); split; auto; discriminate. Qed.

Lemma gtb_false (a b : R) : Js.gtb a b = false <-> a <= b.
Proof.
  unfold Js.gtb. destruct (Rgt_dec a b); split; auto; try discriminate; lra.
Qed.

Lemma leb_true (a b : R) : Js.leb a b = true <-> a <= b.
Proof. unfold Js.leb. destruct (Rle_dec a b); split; auto; discriminate. Qed.

Lemma geb_true (a b : R) : Js.geb a b = true <-> a >= b.
Proof. unfold Js.geb. destruct (Rge_dec a b); split; auto; discriminate. Qed.

Lemma geb_false (a b : R) : Js.geb a b = false <-> a < b.
Proof.
  unfold Js.geb. destruct (Rge_dec a b); split; auto; try discriminate; lra.
Qed.

Lemma after_rounds_S (d : R) (k : nat) (net : ConceptNetwork) :
  after_rounds d (S k) net = round d (after_rounds d k net).
Proof.
  revert net. induction k as [|k IH]; intros net; [reflexivity|].
  change (after_rounds d (S (S k)) net) with (after_rounds d (S k) (round d net)).
  rewrite IH. reflexivity.
Qed.

Lemma spreadActivation_round (d : R) (net : ConceptNetwork) :
  Net.spreadActivation (Some d) net
  = (Return {| Net.res_iteration := iterationCount net + 1 - 1;
               Net.res_totalDelta := round_delta d net |},
     round d net).
Proof.
  unfold round, round_delta. rewrite spreadActivation_run. reflexivity.
Qed.

Section Loop.
Variable cfg : Net.Config.
Let d := Net.cfg_decayRate cfg.
Let threshold := Net.cfg_convergenceThreshold cfg.

(** The loop returns after [k <= fuel] rounds; all of them but the last
    returned a delta above the threshold; it stops because the round count
    reached [maxIterations] or because the delta is not above the
    threshold. *)
Lemma run_loop_rounds (fuel : nat) :
  forall (iteration : Z) (initial : Js.Delta) (net : ConceptNetwork),
    (Net.cfg_maxIterations cfg <= iteration + Z.of_nat fuel)%Z ->
    exists k : nat,
      (k <= fuel)%nat /\
      Net.run_loop fuel cfg iteration initial net
      = (Return ((iteration + Z.of_nat k)%Z, delta_after d net k initial),
         after_rounds d k net) /\
      (forall i, (S i < k)%nat ->
                 round_delta d (after_rounds d i net) > threshold) /\
      ((Net.cfg_maxIterations cfg <= iteration + Z.of_nat k)%Z \/
       Js.Delta_gtb (delta_after d net k initial) threshold = false) /\
      ((iteration + Z.of_nat k <= Z.max iteration (Net.cfg_maxIterations cfg))%Z) /\
      ((iteration < Net.cfg_maxIterations cfg)%Z ->
       Js.Delta_gtb initial threshold = true -> (0 < k)%nat) /\
      ((0 < k)%nat -> Js.Delta_gtb initial threshold = true).
Proof.
  induction fuel as [|fuel IH]; intros iteration initial net Hfuel.
  - exists O. cbn [Net.run_loop].
    replace (iteration <? Net.cfg_maxIterations cfg)%Z with false
      by (symmetry; apply Z.ltb_ge; lia).
    cbn [andb]. rewrite Z.add_0_r.
    repeat split; auto; intros; lia.
  - cbn [Net.run_loop].
    destruct (Z.ltb_spec iteration (Net.cfg_maxIterations cfg)) as [Hlt|Hge];
      cbn [andb]; fold threshold.
    + destruct (Js.Delta_gtb initial threshold) eqn:Hgt.
      * unfold bind. fold d. rewrite spreadActivation_round.
        cbn [Net.res_totalDelta].
        destruct (IH (iteration + 1)%Z (Js.Finite (round_delta d net))
                     (round d net))
          as (k & Hk & Hrun & Hbefore & Hstop & Hmax & _ & Hpos); [lia|].
        exists (S k). split; [lia|].
        split; [|split; [|split; [|split; [|split]]]].
        -- rewrite Hrun. cbn [after_rounds]. f_equal. f_equal. f_equal; [lia|].
           destruct k as [|k]; reflexivity.
        -- intros [|i] Hi.
           ++ cbn [after_rounds]. apply gtb_true.
              destruct k as [|k]; [lia|]. apply Hpos. lia.
           ++ cbn [after_rounds]. apply Hbefore. lia.
        -- destruct Hstop as [Hstop|Hstop]; [left; lia | right].
           destruct k as [|k]; exact Hstop.
        -- lia.
        -- intros; lia.
        -- auto.
      * exists O. rewrite Z.add_0_r. cbn [delta_after after_rounds].
        repeat split; auto; try (intros; lia).
    + exists O. rewrite Z.add_0_r. cbn [delta_after after_rounds].
      repeat split; auto; try (intros; lia).
Qed.
End Loop.

(** X30.  With a positive integer [maxIterations] in the options,
    [runUntilConvergence] returns (the loop is total) after [k] rounds of
    [spreadActivation], [1 <= k <= maxIterations]; its final state is the
    state after these [k] rounds.  The decay rate and the threshold are
    those of the [config] object, [options.x || this.params.x]: every round
    before the last returned a delta above this threshold, and the last one
    returned a delta at most this threshold or was round number
    [maxIterations]; [converged] is true exactly when the last delta is at
    most this threshold; [iterations] is [k] and [finalDelta] the last
    delta.  (The deltas are real numbers: none is [NaN].) *)
Theorem runUntilConvergence_bounded (options : Net.Options) (m : Z)
    (net : ConceptNetwork) :
  Net.opt_maxIterations options = Some m -> (0 < m)%Z ->
  let cfg := Net.config options (params net) in
  let d := Net.cfg_decayRate cfg in
  let threshold := Net.cfg_convergenceThreshold cfg in
  exists k : nat,
    (1 <= k)%nat /\ (Z.of_nat k <= m)%Z /\
    let last := round_delta d (after_rounds d (k - 1) net) in
    Net.runUntilConvergence options net
    = (Return {| Net.converged := Js.leb last threshold;
                 Net.iterations := Z.of_nat k;
                 Net.finalDelta := Js.Finite last |},
       after_rounds d k net) /\
    (forall i, (S i < k)%nat ->
               round_delta d (after_rounds d i net) > threshold) /\
    (last <= threshold \/ Z.of_nat k = m) /\
    (Js.leb last threshold = true <-> last <= threshold).
Proof.
  intros Hm Hpos cfg d threshold.
  assert (Hmax : Net.cfg_maxIterations cfg = m).
  { unfold cfg, Net.config. cbn [Net.cfg_maxIterations]. rewrite Hm.
    unfold Js.or_Z. destruct (Z.eqb_spec m 0); [lia | reflexivity]. }
  destruct (run_loop_rounds cfg (Z.to_nat m) 0%Z Js.Infinity net)
    as (k & Hk & Hrun & Hbefore & Hstop & _ & Hsome & _); [lia|].
  assert (Hk1 : (0 < k)%nat) by (apply Hsome; [lia | reflexivity]).
  exists k. split; [lia|]. split; [lia|].
  destruct k as [|k]; [lia|]. cbn zeta.
  replace (S k - 1)%nat with k by lia.
  split; [|split; [|split]].
  - unfold Net.runUntilConvergence. unfold bind at 1. unfold this at 1.
    fold cfg. rewrite Hmax. unfold bind.
    rewrite Hrun. cbn [delta_after]. reflexivity.
  - exact Hbefore.
  - destruct Hstop as [Hstop|Hstop].
    + right. lia.
    + left. cbn [delta_after Js.Delta_gtb] in Hstop. now apply gtb_false.
  - apply leb_true.
Qed.

(** Whatever the options, [runUntilConvergence] returns. *)
Lemma runUntilConvergence_returns (options : Net.Options) (net : ConceptNetwork) :
  exists result net',
    Net.runUntilConvergence options net = (Return result, net').
Proof.
  unfold Net.runUntilConvergence. unfold bind at 1. unfold this at 1.
  set (cfg := Net.config options (params net)).
  destruct (run_loop_rounds cfg (Z.to_nat (Net.cfg_maxIterations cfg)) 0%Z
              Js.Infinity net) as (k & _ & Hrun & _); [lia|].
  unfold bind. rewrite Hrun. do 2 eexists. reflexivity.
Qed.

Lemma sigmoid_injective (x y : R) : Net.sigmoid x = Net.sigmoid y -> x = y.
Proof.
  unfold Net.sigmoid. intros H.
  pose proof (exp_pos (- x)) as Hx. pose proof (exp_pos (- y)) as Hy.
  assert (Hexp : exp (- x) = exp (- y)).
  { apply (f_equal Rinv) in H. unfold Rdiv in H.
    rewrite !Rmult_1_l, !Rinv_inv in H. lra. }
  apply exp_inv in Hexp. lra.
Qed.

(** C4.  What the code does with an option that is supplied as zero.  The
    [config] of [runUntilConvergence] takes the parameters' value in place of
    a supplied 0, for each of the three options.  On the one-node network
    [seeded_a], [runUntilConvergence({maxIterations: 1, decayRate: 0})] runs
    its round with the default decay rate 0.1: the node ends at
    [sigmoid(1 * (1 - 0.1))], which is not the [sigmoid(1 * (1 - 0))] of a
    round with rate 0; [spreadActivation(0)] itself does use the rate 0. *)
Theorem runUntilConvergence_zero_option_ignored :
  Net.config {| Net.opt_maxIterations := Some 0%Z;
                Net.opt_convergenceThreshold := Some 0;
                Net.opt_decayRate := Some 0 |} (params Net.new)
  = {| Net.cfg_maxIterations := 5; Net.cfg_convergenceThreshold := 0.01;
       Net.cfg_decayRate := 0.1 |} /\
  (exists a,
     JsMap.get "a"
       (nodes (snd (Net.runUntilConvergence
                      {| Net.opt_maxIterations := Some 1%Z;
                         Net.opt_convergenceThreshold := None;
                         Net.opt_decayRate := Some 0 |} seeded_a))) = Some a /\
     activation a = Net.sigmoid (1 * (1 - 0.1)) /\
     activation a <> Net.sigmoid (1 * (1 - 0))) /\
  (exists a,
     JsMap.get "a" (nodes (snd (Net.spreadActivation (Some 0) seeded_a))) = Some a /\
     activation a = Net.sigmoid (1 * (1 - 0))).
Proof.
  assert (Hor : forall fallback, Js.or_R (Some 0) fallback = fallback).
  { intros fallback. unfold Js.or_R. destruct (Req_dec_T 0 0); [reflexivity | lra]. }
  split; [|split].
  - unfold Net.config. cbn [Net.opt_maxIterations Net.opt_convergenceThreshold
                             Net.opt_decayRate].
    rewrite !Hor. reflexivity.
  - unfold Net.runUntilConvergence. unfold bind at 1. unfold this at 1.
    unfold Net.config.
    cbn [Net.opt_maxIterations Net.opt_convergenceThreshold Net.opt_decayRate].
    rewrite Hor.
    cbn [Js.or_Z Z.eqb Net.cfg_maxIterations Net.cfg_decayRate
         Net.cfg_convergenceThreshold].
    change (Z.to_nat 1) with 1%nat.
    cbn [Net.run_loop Net.cfg_maxIterations Net.cfg_decayRate].
    change (0 <? 1)%Z with true. change (0 + 1 <? 1)%Z with false.
    cbn [andb Js.Delta_gtb].
    unfold bind. rewrite spreadActivation_round. cbn [ret snd].
    unfold round. rewrite spreadActivation_run. cbn [snd nodes].
    eexists. split; [js_compute; reflexivity|].
    cbn [activation]. split.
    + f_equal. lra.
    + intros H. apply sigmoid_injective in H. lra.
  - rewrite spreadActivation_run. cbn [snd nodes].
    eexists. split; [js_compute; reflexivity|].
    cbn [activation]. f_equal. lra.
Qed.

Lemma round_delta_lenient_a : round_delta 0.1 lenient_a = 1 - Net.sigmoid 0.9.
Proof.
  unfold round_delta. js_compute.
  replace (1 * (1 - 0.1) + 0) with 0.9 by lra.
  pose proof (sigmoid_range 0.9) as H.
  rewrite Rabs_left by lra. lra.
Qed.

(** C3 fails on the code for a supplied [convergenceThreshold] of 0, a value
    of the documented range.  On the one-node network [lenient_a], whose
    parameters hold the threshold 1,
    [runUntilConvergence({maxIterations: 3, convergenceThreshold: 0})]
    returns after one round of the three allowed, with [converged = true],
    although the delta of this round, [1 - sigmoid(0.9)], is above the
    supplied threshold 0: the [config] object takes [this.params]'s
    threshold in place of the supplied 0, so the loop stops and reports
    convergence against the threshold 1. *)
Theorem runUntilConvergence_zero_threshold_ignored :
  convergenceThreshold (params lenient_a) = 1 /\
  exists last,
    fst (Net.runUntilConvergence
           {| Net.opt_maxIterations := Some 3%Z;
              Net.opt_convergenceThreshold := Some 0;
              Net.opt_decayRate := None |} lenient_a)
    = Return {| Net.converged := true; Net.iterations := 1;
                Net.finalDelta := Js.Finite last |} /\
    last = 1 - Net.sigmoid 0.9 /\
    0 < last <= 1 /\
    Js.leb last 0 = false.
Proof.
  split; [reflexivity|].
  pose proof (sigmoid_range 0.9) as Hrange.
  exists (1 - Net.sigmoid 0.9).
  split; [|split; [reflexivity|split; [lra|]]].
  - unfold Net.runUntilConvergence. unfold bind at 1. unfold this at 1.
    unfold Net.config.
    cbn [Net.opt_maxIterations Net.opt_convergenceThreshold Net.opt_decayRate].
    change (params lenient_a)
      with {| activationThreshold := 0.7; decayRate := 0.1; maxIterations := 5;
              convergenceThreshold := 1 |}.
    cbn [convergenceThreshold decayRate maxIterations].
    assert (Hor : forall fallback, Js.or_R (Some 0) fallback = fallback).
    { intros fallback. unfold Js.or_R.
      destruct (Req_dec_T 0 0); [reflexivity | lra]. }
    rewrite Hor.
    cbn [Js.or_Z Js.or_R Z.eqb Net.cfg_maxIterations Net.cfg_decayRate
         Net.cfg_convergenceThreshold].
    change (Z.to_nat 3) with 3%nat.
    cbn [Net.run_loop Net.cfg_maxIterations Net.cfg_decayRate
         Net.cfg_convergenceThreshold].
    change (0 <? 3)%Z with true. cbn [andb Js.Delta_gtb].
    assert (Hgt : Js.gtb (1 - Net.sigmoid 0.9) 1 = false)
      by (apply gtb_false; lra).
    assert (Hle : Js.leb (1 - Net.sigmoid 0.9) 1 = true)
      by (apply leb_true; lra).
    unfold bind. rewrite spreadActivation_round. cbn [Net.res_totalDelta].
    rewrite round_delta_lenient_a.
    change (0 + 1 <? 3)%Z with true. cbn [andb]. rewrite Hgt.
    unfold ret. cbn [fst Js.Delta_leb].
    rewrite Hle. reflexivity.
  - unfold Js.leb. destruct (Rle_dec (1 - Net.sigmoid 0.9) 0); [lra|reflexivity].
Qed.

(* ------------------------------------------------------------------ *)
(** ** Sorting in descending order of a numeric field *)

Section SortDescending.
Variable A : Type.
Variable field : A -> R.

(** The comparator [(a, b) => b.field - a.field]. *)
Let comparefn (a b : A) : R := field b - field a.

Lemma insert_permutation (x : A) (l : list A) :
  Permutation (Js.insert comparefn x l) (x :: l).
Proof.
  induction l as [|y l IH]; cbn [Js.insert]; [reflexivity|].
  destruct (Js.gtb (comparefn x y) 0); [|reflexivity].
  rewrite IH. apply perm_swap.
Qed.

Lemma sort_permutation (l : list A) : Permutation (Js.sort comparefn l) l.
Proof.
  induction l as [|x l IH]; cbn [Js.sort fold_right]; [reflexivity|].
  fold (Js.sort comparefn l). rewrite insert_permutation. now constructor.
Qed.

Lemma insert_sorted (x : A) (l : list A) :
  StronglySorted (fun a b => field a >= field b) l ->
  StronglySorted (fun a b => field a >= field b) (Js.insert comparefn x l).
Proof.
  induction l as [|y l IH]; intros Hs; cbn [Js.insert].
  - repeat constructor.
  - apply StronglySorted_inv in Hs as [Hs Hy].
    destruct (Js.gtb (comparefn x y) 0) eqn:E.
    + apply gtb_true in E. unfold comparefn in E.
      constructor; [now apply IH|].
      rewrite Forall_forall in *. intros z Hz.
      apply (Permutation_in _ (insert_permutation x l)) in Hz as [<-|Hz].
      * lra.
      * now apply Hy.
    + apply gtb_false in E. unfold comparefn in E.
      constructor; [now constructor|].
      constructor; [lra|].
      rewrite Forall_forall in *. intros z Hz. specialize (Hy z Hz). lra.
Qed.

Lemma sort_sorted (l : list A) :
  StronglySorted (fun a b => field a >= field b) (Js.sort comparefn l).
Proof.
  induction l as [|x l IH]; cbn [Js.sort fold_right]; [constructor|].
  now apply insert_sorted.
Qed.

(** Stability: the elements with one value of the field stay in the order
    they had. *)
Lemma insert_stable (v : R) (x : A) (l : list A) :
  filter (holds field v) (Js.insert comparefn x l)
  = filter (holds field v) (x :: l).
Proof.
  induction l as [|y l IH]; cbn [Js.insert]; [reflexivity|].
  destruct (Js.gtb (comparefn x y) 0) eqn:E; [|reflexivity].
  apply gtb_true in E. unfold comparefn in E.
  cbn [filter] in *. rewrite IH. unfold holds.
  destruct (Req_dec_T (field x) v), (Req_dec_T (field y) v);
    try reflexivity; lra.
Qed.

Lemma sort_stable (v : R) (l : list A) :
  filter (holds field v) (Js.sort comparefn l) = filter (holds field v) l.
Proof.
  induction l as [|x l IH]; cbn [Js.sort fold_right]; [reflexivity|].
  fold (Js.sort comparefn l). rewrite insert_stable.
  cbn [filter]. now rewrite IH.
Qed.
End SortDescending.

Lemma slice0_firstn (A : Type) (limit : Z) (l : list A) :
  (0 <= limit)%Z -> Js.slice0 limit l = firstn (Z.to_nat limit) l.
Proof.
  intros Hpos. unfold Js.slice0.
  destruct (Z.ltb_spec limit 0) as [Hneg|_]; [lia|].
  destruct (Z.le_gt_cases limit (Z.of_nat (List.length l))) as [Hle|Hgt].
  - now rewrite Z.min_l by lia.
  - rewrite Z.min_r by lia. rewrite Nat2Z.id.
    rewrite firstn_all. symmetry. apply firstn_all2. lia.
Qed.

(* ------------------------------------------------------------------ *)
(** ** Ranking: [getTopActivatedConcepts] *)

(** Evaluates a method on a concrete network: the comparisons of numbers
    that the evaluation meets are settled by [lra]. *)
Ltac decide_R :=
  repeat (js_compute;
    match goal with
    | |- context [Rge_dec ?a ?b] =>
        destruct (Rge_dec a b); [ try (exfalso; lra) | try (exfalso; lra) ]
    | |- context [Rgt_dec ?a ?b] =>
        destruct (Rgt_dec a b); [ try (exfalso; lra) | try (exfalso; lra) ]
    | |- context [Rle_dec ?a ?b] =>
        destruct (Rle_dec a b); [ try (exfalso; lra) | try (exfalso; lra) ]
    end); js_compute.

(** C8 fails as stated: with c2 added before c1 and both seeded to 1.0,
    [getTopActivatedConcepts(10, 0.5)] returns c2 before c1. *)
Lemma getTopActivatedConcepts_ties_not_by_id :
  returned_ids (Net.getTopActivatedConcepts (Some 10%Z) (Some 0.5) c2_then_c1)
  = Some ["c2"; "c1"].
Proof. unfold returned_ids. decide_R. reflexivity. Qed.

(** C8, as the code has it.  [getTopActivatedConcepts(limit, threshold)]
    returns the records of a list [ranked] cut by [slice(0, limit)], which
    for [limit >= 0] keeps the first [limit] entries.  [ranked] holds
    exactly the nodes whose activation is at least the threshold (the
    parameter [activationThreshold] when none is given), in descending
    order of activation, and nodes of equal activation stay in the order in
    which the graph holds them (insertion order): ties are not ordered by
    id.  After seeding c1 and c2 to 1.0, [getTopActivatedConcepts(10, 0.5)]
    returns c1 then c2 when c1 was added first. *)
Theorem getTopActivatedConcepts_ranked :
  (forall (limit : option Z) (threshold : option R) (net : ConceptNetwork),
     let lim := match limit with Some l => l | None => 10%Z end in
     let actualThreshold :=
       match threshold with
       | Some t => t
       | None => activationThreshold (params net)
       end in
     let active := filter (fun node => Js.geb (activation node) actualThreshold)
                          (JsMap.values (nodes net)) in
     exists ranked,
       Net.getTopActivatedConcepts limit threshold net
       = (Return (map Net.info_of (Js.slice0 lim ranked)), net) /\
       Permutation ranked active /\
       (forall node, In node ranked <->
                     In node (JsMap.values (nodes net)) /\
                     activation node >= actualThreshold) /\
       StronglySorted (fun a b => activation a >= activation b) ranked /\
       (forall v, filter (holds activation v) ranked
                  = filter (holds activation v) active) /\
       ((0 <= lim)%Z -> Js.slice0 lim ranked = firstn (Z.to_nat lim) ranked)) /\
  returned_ids (Net.getTopActivatedConcepts (Some 10%Z) (Some 0.5) c1_then_c2)
  = Some ["c1"; "c2"].
Proof.
  split.
  - intros limit threshold net lim actualThreshold active.
    exists (Js.sort (fun a b => activation b - activation a) active).
    split; [reflexivity|].
    split; [apply sort_permutation|].
    split; [|split; [apply sort_sorted | split;
                     [intros v; apply sort_stable | apply slice0_firstn]]].
    intros node. split.
    + intros Hin. apply (Permutation_in _ (sort_permutation activation active)) in Hin.
      apply filter_In in Hin as [Hin Hge]. split; [assumption|].
      now apply geb_true.
    + intros [Hin Hge].
      apply (Permutation_in _ (Permutation_sym (sort_permutation activation active))).
      apply filter_In. split; [assumption|]. now apply geb_true.
  - unfold returned_ids. decide_R. reflexivity.
Qed.

(* ------------------------------------------------------------------ *)
(** ** Clusters: [identifyEmergentPatterns] *)

Lemma set_has_In (x : string) (s : list string) :
  Js.set_has x s = true <-> In x s.
Proof.
  unfold Js.set_has. rewrite existsb_exists. split.
  - intros [y [Hy E]]. apply String.eqb_eq in E. now subst.
  - intros H. exists x. split; [assumption | apply String.eqb_refl].
Qed.

Lemma set_has_not_In (x : string) (s : list string) :
  Js.set_has x s = false <-> ~ In x s.
Proof.
  rewrite <- set_has_In. destruct (Js.set_has x s); split; intros H;
    try reflexivity; try discriminate; try (intros E; discriminate).
  exfalso. now apply H.
Qed.

Section Search.
Variable m : JsMap.t ConceptNode.
Variable actualThreshold : R.

Lemma active_get (k : string) :
  active m actualThreshold k ->
  exists node, JsMap.get k m = Some node
               /\ Js.geb (activation node) actualThreshold = true.
Proof.
  unfold active, Net.is_active. destruct (JsMap.get k m) as [node|];
    [eauto | discriminate].
Qed.

Lemma push_connected_pushed (visited : list string) (currentNode : ConceptNode)
    (queue : list string) :
  Net.push_connected m actualThreshold visited currentNode queue
  = queue ++ pushed m actualThreshold visited currentNode.
Proof.
  unfold Net.push_connected, pushed, JsMap.entries, JsMap.keys.
  generalize (connections currentNode) as edges. intros edges. revert queue.
  induction edges as [|e edges IH]; intros queue; cbn [fold_left map filter].
  - now rewrite app_nil_r.
  - rewrite IH.
    destruct (Js.set_has (fst e) visited); cbn [negb andb]; [reflexivity|].
    unfold JsMap.has, Net.is_active.
    destruct (JsMap.get (fst e) m) as [node|]; [|reflexivity].
    destruct (Js.geb (activation node) actualThreshold); [|reflexivity].
    now rewrite <- app_assoc.
Qed.

Lemma pushed_length (visited : list string) (currentNode : ConceptNode) :
  (List.length (pushed m actualThreshold visited currentNode)
   <= JsMap.size (connections currentNode))%nat.
Proof.
  unfold pushed, JsMap.size, JsMap.keys.
  etransitivity; [apply filter_length_le|]. now rewrite length_map.
Qed.

Lemma set_has_app (x : string) (s s' : list string) :
  Js.set_has x (s ++ s') = Js.set_has x s || Js.set_has x s'.
Proof. unfold Js.set_has. apply existsb_app. Qed.

Lemma unvisited_edges_visit (visited : list string) (k : string)
    (node : ConceptNode) :
  Js.set_has k visited = false -> JsMap.get k m = Some node ->
  (unvisited_edges m (visited ++ [k]) + JsMap.size (connections node)
   <= unvisited_edges m visited)%nat.
Proof.
  unfold unvisited_edges. intros Hk. induction m as [|[k0 n0] m0 IH];
    cbn [JsMap.get map list_sum fold_right fst snd]; [discriminate|].
  assert (Hmono : forall l,
    (list_sum (map (fun e : string * ConceptNode =>
                      if Js.set_has (fst e) (visited ++ [k]) then 0%nat
                      else JsMap.size (connections (snd e))) l)
     <= list_sum (map (fun e : string * ConceptNode =>
                         if Js.set_has (fst e) visited then 0%nat
                         else JsMap.size (connections (snd e))) l))%nat).
  { unfold list_sum in *.
    induction l as [|e l IHl]; cbn [map fold_right]; [lia|].
    rewrite set_has_app. destruct (Js.set_has (fst e) visited); cbn [orb]; [lia|].
    destruct (Js.set_has (fst e) [k]); lia. }
  destruct (String.eqb_spec k0 k) as [->|Hne]; intros Hget.
  - injection Hget as ->. rewrite set_has_app, Hk. cbn [orb].
    assert (E : Js.set_has k [k] = true) by (apply set_has_In; now left).
    rewrite E. specialize (Hmono m0). unfold list_sum in *. lia.
  - specialize (IH Hget). rewrite set_has_app. unfold list_sum in *.
    destruct (Js.set_has k0 visited); cbn [orb]; [lia|].
    destruct (Js.set_has k0 [k]); lia.
Qed.

(** The [while] loop of the search: it returns; what it appends to
    [visited] are exactly the ids of the records it appends to [pattern];
    these are active nodes not visited before and reachable from the
    queue; the queue is visited in the end; every active edge target of an
    appended node is visited in the end. *)
Lemma search_spec (fuel : nat) :
  forall (queue visited : list string) (pattern : list ConceptInfo),
    Forall (active m actualThreshold) queue ->
    (List.length queue + unvisited_edges m visited <= fuel)%nat ->
    exists found : list ConceptInfo,
      Net.search fuel m actualThreshold queue visited pattern
      = Return (visited ++ ids found, pattern ++ found) /\
      Forall (describes_active m actualThreshold) found /\
      (NoDup visited -> NoDup (visited ++ ids found)) /\
      (forall q, In q queue -> In q (visited ++ ids found)) /\
      (forall k, In k (ids found) -> exists q,
                   In q queue /\ reaches m actualThreshold q k) /\
      (forall u v, In u (ids found) -> active_edge m actualThreshold u v ->
                   In v (visited ++ ids found)) /\
      (forall s rest, queue = s :: rest -> ~ In s visited ->
                      exists others, ids found = s :: others).
Proof.
  induction fuel as [|fuel IH]; intros queue visited pattern Hact Hfuel.
  - destruct queue as [|c queue]; [|cbn [List.length] in Hfuel; lia].
    exists []. cbn [Net.search ids map]. rewrite !app_nil_r.
    split; [reflexivity|]. split; [constructor|]. split; [auto|].
    split; [intros ? []|]. split; [intros ? []|]. split; [intros ? ? []|].
    intros; discriminate.
  - destruct queue as [|c queue].
    { exists []. cbn [Net.search ids map]. rewrite !app_nil_r.
      split; [reflexivity|]. split; [constructor|]. split; [auto|].
      split; [intros ? []|]. split; [intros ? []|]. split; [intros ? ? []|].
      intros; discriminate. }
    cbn [Net.search]. inversion Hact as [|? ? Hc Hqueue]; subst.
    cbn [List.length] in Hfuel.
    destruct (Js.set_has c visited) eqn:Hvis.
    + destruct (IH queue visited pattern Hqueue) as
        (found & Hrun & Hdesc & Hnd & Hq & Hreach & Hclosed & _); [lia|].
      exists found. split; [exact Hrun|]. split; [exact Hdesc|].
      split; [exact Hnd|]. split; [|split; [|split]].
      * intros q [<-|Hin]; [|now apply Hq].
        apply in_or_app. left. now apply set_has_In.
      * intros k Hk. destruct (Hreach k Hk) as [q [Hin Hr]].
        exists q. split; [now right | assumption].
      * exact Hclosed.
      * intros s rest Heq Hs. injection Heq as -> _.
        apply set_has_In in Hvis. contradiction.
    + destruct (active_get Hc) as [node [Hget Hge]].
      rewrite Hget, Hge. rewrite push_connected_pushed.
      pose proof (@unvisited_edges_visit visited c node Hvis Hget) as Hdrop.
      pose proof (pushed_length (visited ++ [c]) node) as Hpush.
      destruct (IH (queue ++ pushed m actualThreshold (visited ++ [c]) node)
                   (visited ++ [c])
                   (pattern ++ [node_info c node]))
        as (found & Hrun & Hdesc & Hnd & Hq & Hreach & Hclosed & _).
      { apply Forall_app. split; [assumption|].
        apply Forall_forall. intros t Ht. unfold pushed in Ht.
        apply filter_In in Ht as [_ Ht]. apply andb_prop in Ht as [_ Ht].
        exact Ht. }
      { rewrite length_app. lia. }
      exists (node_info c node :: found).
      cbn [ids map info_id node_info]. fold (ids found).
      assert (Happ : forall l, visited ++ c :: l = (visited ++ [c]) ++ l)
        by (intros l; now rewrite <- app_assoc).
      split; [|split; [|split; [|split; [|split; [|split]]]]].
      * unfold node_info in Hrun. rewrite Hrun. rewrite <- !app_assoc. reflexivity.
      * constructor; [|assumption]. split; [assumption|].
        exists node. cbn [info_id node_info]. split; [assumption | reflexivity].
      * intros Hv. rewrite Happ. apply Hnd.
        apply NoDup_app; [assumption | repeat constructor; intros [] |].
        intros x Hx [<-|[]]. apply set_has_not_In in Hvis. contradiction.
      * rewrite Happ. intros q [<-|Hin].
        -- apply in_or_app. left. apply in_or_app. right. now left.
        -- apply Hq. apply in_or_app. now left.
      * intros k [<-|Hk].
        -- exists c. split; [now left | apply rt_refl].
        -- destruct (Hreach k Hk) as [q [Hin Hr]].
           apply in_app_or in Hin as [Hin|Hin].
           ++ exists q. split; [now right | assumption].
           ++ exists c. split; [now left|].
              apply rt_trans with q; [|assumption]. apply rt_step.
              unfold pushed in Hin. apply filter_In in Hin as [Hin Ht].
              apply andb_prop in Ht as [_ Ht].
              split; [assumption|]. split; [exact Ht|]. eauto.
      * rewrite Happ. intros u v [<-|Hu] Hedge; [|now apply Hclosed with u].
        destruct Hedge as (_ & Hv & node' & Hget' & Hin).
        rewrite Hget in Hget'. injection Hget' as <-.
        destruct (Js.set_has v (visited ++ [c])) eqn:Hvv.
        -- apply in_or_app. left. now apply set_has_In.
        -- apply Hq. apply in_or_app. right. unfold pushed.
           apply filter_In. split; [assumption|].
           rewrite Hvv. cbn [negb andb]. exact Hv.
      * intros s rest Heq _. injection Heq as -> _. eauto.
Qed.
End Search.

Lemma all_ids_snoc (patterns : list Net.Pattern) (p : Net.Pattern) :
  all_ids (patterns ++ [p]) = all_ids patterns ++ pattern_ids p.
Proof.
  unfold all_ids. rewrite map_app, concat_app. cbn [map List.concat].
  now rewrite app_nil_r.
Qed.

Section Collect.
Variable m : JsMap.t ConceptNode.
Variable actualThreshold : R.

Abbreviation active := (active m actualThreshold).
Abbreviation active_edge := (active_edge m actualThreshold).
Abbreviation reaches := (reaches m actualThreshold).
Abbreviation discovered := (discovered m actualThreshold).

Lemma discovered_NoDup (found : list Net.Pattern) :
  discovered found -> NoDup (all_ids found).
Proof.
  intros H. destruct H as [|found p _ _ Hnd _ _ _]; [constructor|].
  now rewrite all_ids_snoc.
Qed.

Lemma unvisited_edges_bound (visited : list string) :
  (S (unvisited_edges m visited) <= Net.search_fuel m)%nat.
Proof.
  unfold Net.search_fuel, unvisited_edges, JsMap.values.
  assert (H : forall l a,
    fold_left (fun sum (node : ConceptNode) =>
                 (sum + JsMap.size (connections node))%nat) (map snd l) a
    = (a + list_sum (map (fun e : string * ConceptNode =>
                            JsMap.size (connections (snd e))) l))%nat).
  { unfold list_sum.
    induction l as [|e l IH]; intros a; cbn [map fold_left fold_right]; [lia|].
    rewrite IH. lia. }
  rewrite H. apply le_n_S. cbn [Nat.add]. unfold list_sum.
  induction m as [|e l IH]; cbn [map fold_right]; [lia|].
  destruct (Js.set_has (fst e) visited); lia.
Qed.

Variable uuid : nat -> string.

(** The outer loop returns, and its patterns cover the nodes it was
    given. *)
Lemma collect_spec (activeNodes : list ConceptNode) :
  forall found : list Net.Pattern,
    discovered found ->
    Forall (fun node => active (id node)) activeNodes ->
    exists found',
      Net.collect uuid m actualThreshold activeNodes found (all_ids found)
      = Return found' /\
      discovered found' /\
      (forall k, In k (all_ids found) -> In k (all_ids found')) /\
      (forall node, In node activeNodes -> In (id node) (all_ids found')).
Proof.
  induction activeNodes as [|node rest IH]; intros found Hfound Hact.
  - exists found. cbn [Net.collect]. repeat split; auto. intros ? [].
  - inversion Hact as [|? ? Hnode Hrest]; subst. cbn [Net.collect].
    destruct (Js.set_has (id node) (all_ids found)) eqn:Hvis.
    + destruct (IH found Hfound Hrest) as (found' & Hrun & Hd & Hkeep & Hcover).
      exists found'. repeat split; auto.
      intros n [<-|Hin]; [|now apply Hcover].
      apply Hkeep. now apply set_has_In.
    + destruct (@search_spec m actualThreshold (Net.search_fuel m)
                  [id node] (all_ids found) [])
        as (new & Hrun & Hdesc & Hnd & Hq & Hreach & Hclosed & Hstart).
      { repeat constructor. exact Hnode. }
      { pose proof (unvisited_edges_bound (all_ids found)). cbn [List.length]. lia. }
      rewrite Hrun. cbn [app].
      destruct (Hstart (id node) [] eq_refl) as [others Hids];
        [now apply set_has_not_In|].
      assert (Hlen : (0 <? List.length new)%nat = true).
      { destruct new; [discriminate | reflexivity]. }
      rewrite Hlen.
      set (p := {| Net.patternId := uuid (List.length found);
                   Net.concepts := new;
                   Net.averageActivation := Net.average new |}).
      assert (Hp : discovered (found ++ [p])).
      { constructor; auto.
        - apply Hnd. now apply discovered_NoDup.
        - exists (id node), others. split; [exact Hids|].
          intros k Hk. destruct (Hreach k Hk) as [q [[<-|[]] Hr]]. exact Hr. }
      destruct (IH (found ++ [p]) Hp Hrest) as (found' & Hrun' & Hd & Hkeep & Hcover).
      rewrite all_ids_snoc in Hrun', Hkeep. unfold pattern_ids in Hrun', Hkeep.
      cbn [Net.concepts p] in Hrun', Hkeep.
      exists found'. split; [exact Hrun'|]. split; [exact Hd|]. split.
      * intros k Hk. apply Hkeep. apply in_or_app. now left.
      * intros n [<-|Hin]; [|now apply Hcover].
        apply Hkeep. apply in_or_app. right. rewrite Hids. now left.
Qed.
End Collect.

Lemma NoDup_app_disjoint (A : Type) (l l' : list A) (x : A) :
  NoDup (l ++ l') -> In x l -> In x l' -> False.
Proof.
  induction l as [|a l IH]; cbn [app]; intros Hnd Hin Hin'; [destruct Hin|].
  inversion Hnd as [|? ? Hnotin Hnd']; subst.
  destruct Hin as [->|Hin]; [|now apply IH].
  apply Hnotin. apply in_or_app. now right.
Qed.

Lemma all_ids_In (patterns : list Net.Pattern) (k : string) :
  In k (all_ids patterns) <-> exists p, In p patterns /\ In k (pattern_ids p).
Proof.
  unfold all_ids. rewrite in_concat. split.
  - intros [l [Hl Hk]]. apply in_map_iff in Hl as [p [<- Hp]]. eauto.
  - intros [p [Hp Hk]]. exists (pattern_ids p). split; [now apply in_map | assumption].
Qed.

Lemma all_ids_permutation (l l' : list Net.Pattern) :
  Permutation l l' -> Permutation (all_ids l) (all_ids l').
Proof.
  unfold all_ids. rewrite <- !flat_map_concat_map.
  apply Permutation_flat_map.
Qed.

Lemma average_mean (pattern : list ConceptInfo) :
  Net.average pattern = mean (map info_activation pattern).
Proof.
  unfold Net.average, mean. rewrite length_map. f_equal.
  assert (H : forall l a,
             fold_left (fun sum n => sum + info_activation n) l a
             = a + fold_right Rplus 0 (map info_activation l)).
  { induction l as [|c l IH]; intros a; cbn [fold_left fold_right map]; [lra|].
    rewrite IH. lra. }
  rewrite H. lra.
Qed.

Section Patterns.
Variable m : JsMap.t ConceptNode.
Variable actualThreshold : R.

Abbreviation active' := (active m actualThreshold).
Abbreviation edge' := (active_edge m actualThreshold).
Abbreviation reaches' := (reaches m actualThreshold).
Abbreviation discovered' := (discovered m actualThreshold).

(** What [discovered] says of each of its patterns. *)
Lemma discovered_pattern (found : list Net.Pattern) :
  discovered' found ->
  forall p, In p found ->
    Forall (describes_active m actualThreshold) (Net.concepts p) /\
    (exists s others, pattern_ids p = s :: others /\
                      forall k, In k (pattern_ids p) -> reaches' s k) /\
    Net.averageActivation p = mean (map info_activation (Net.concepts p)).
Proof.
  induction 1 as [|found p0 Hfound IH Hdesc Hnd Hstart Hclosed Havg];
    intros p Hin; [destruct Hin|].
  apply in_app_or in Hin as [Hin|[<-|[]]]; [now apply IH|].
  split; [assumption|]. split; [assumption|].
  rewrite Havg. apply average_mean.
Qed.

Lemma discovered_active (found : list Net.Pattern) (k : string) :
  discovered' found -> In k (all_ids found) -> active' k.
Proof.
  intros Hfound Hk. apply all_ids_In in Hk as [p [Hp Hk]].
  destruct (discovered_pattern Hfound p Hp) as [Hdesc _].
  unfold pattern_ids, ids in Hk. apply in_map_iff in Hk as [c [<- Hc]].
  rewrite Forall_forall in Hdesc. now destruct (Hdesc c Hc).
Qed.

Lemma reaches_closed (S : string -> Prop) (u v : string) :
  (forall a b, S a -> edge' a b -> S b) -> S u -> reaches' u v -> S v.
Proof.
  intros Hclosed Hu Hr. induction Hr as [a b Hab| |a b c _ IH1 _ IH2]; eauto.
Qed.

Lemma reaches_into (s k : string) :
  reaches' s k -> s <> k -> exists u, u <> k /\ edge' u k.
Proof.
  intros Hr. apply clos_rt_rtn1 in Hr.
  induction Hr as [|y z Hyz Hr IH]; intros Hne; [congruence|].
  destruct (string_dec y z) as [->|Hyz']; [now apply IH | eauto].
Qed.

Lemma reaches_out (k v : string) :
  reaches' k v -> v <> k -> exists w, w <> k /\ edge' k w.
Proof.
  intros Hr. apply clos_rt_rt1n in Hr.
  induction Hr as [|x y z Hxy Hr IH]; intros Hne; [congruence|].
  destruct (string_dec y x) as [->|Hyx]; [now apply IH | eauto].
Qed.

(** A pattern whose first node lies in a set that active edges do not
    leave, whose nodes all reach one another, and that no earlier pattern
    meets, is that set. *)
Lemma pattern_is_component (S : string -> Prop) (found : list Net.Pattern)
    (p : Net.Pattern) (s : string) (others : list string) :
  (forall a b, S a -> edge' a b -> S b) ->
  (forall a b, S a -> S b -> reaches' a b) ->
  pattern_ids p = s :: others ->
  (forall k, In k (pattern_ids p) -> reaches' s k) ->
  (forall u v, In u (pattern_ids p) -> edge' u v ->
               In v (all_ids found ++ pattern_ids p)) ->
  (forall v, In v (all_ids found) -> S v -> False) ->
  S s ->
  forall k, In k (pattern_ids p) <-> S k.
Proof.
  intros Hclosed Hmutual Hids Hreach Hedges Hfresh Hs k. split.
  - intros Hk. apply (reaches_closed S Hclosed Hs). now apply Hreach.
  - intros Hk. specialize (Hmutual s k Hs Hk). apply clos_rt_rtn1 in Hmutual.
    induction Hmutual as [|y z Hyz Hr IH].
    + rewrite Hids. now left.
    + assert (Hy : S y).
      { apply (reaches_closed S Hclosed Hs). now apply clos_rtn1_rt. }
      specialize (IH Hy).
      apply Hedges with (v := z) in IH; [|assumption].
      apply in_app_or in IH as [Hin|Hin]; [|assumption].
      exfalso. now apply (Hfresh z).
Qed.
End Patterns.

Section Components.
Variable m : JsMap.t ConceptNode.
Variable actualThreshold : R.
Variables S1 S2 : string -> Prop.
Hypothesis Hcomp : two_components m actualThreshold S1 S2.

Lemma component_closed_1 (a b : string) :
  S1 a -> active_edge m actualThreshold a b -> S1 b.
Proof.
  destruct Hcomp as (Hact & _ & _ & _ & Hcross & _).
  intros Ha Hedge. assert (Hb : active m actualThreshold b) by apply Hedge.
  apply Hact in Hb as [Hb|Hb]; [assumption|].
  destruct (Hcross a b Ha Hb) as [H _]. contradiction.
Qed.

Lemma component_closed_2 (a b : string) :
  S2 a -> active_edge m actualThreshold a b -> S2 b.
Proof.
  destruct Hcomp as (Hact & _ & _ & _ & Hcross & _).
  intros Ha Hedge. assert (Hb : active m actualThreshold b) by apply Hedge.
  apply Hact in Hb as [Hb|Hb]; [|assumption].
  destruct (Hcross b a Hb Ha) as [_ H]. contradiction.
Qed.

Lemma discovered_components (found : list Net.Pattern) :
  discovered m actualThreshold found ->
  forall p, In p found -> holds_exactly p S1 \/ holds_exactly p S2.
Proof.
  induction 1 as [|found p0 Hfound IH Hdesc Hnd Hstart Hclosed Havg];
    intros p Hin; [destruct Hin|].
  apply in_app_or in Hin as [Hin|[<-|[]]]; [now apply IH|].
  assert (Hd : discovered m actualThreshold (found ++ [p0]))
    by (constructor; assumption).
  destruct Hstart as (s & others & Hids & Hreach).
  assert (Hs : active m actualThreshold s).
  { apply discovered_active with (found := found ++ [p0]).
    - exact Hd.
    - rewrite all_ids_snoc. apply in_or_app. right. rewrite Hids. now left. }
  assert (Hs0 : In s (pattern_ids p0)) by (rewrite Hids; now left).
  destruct Hcomp as (Hact & _ & _ & Hdisj & _ & Hm1 & Hm2).
  assert (Hfresh : forall S : string -> Prop, S s ->
            (forall q, holds_exactly q S -> forall v, In v (pattern_ids q) -> S v) ->
            (S = S1 \/ S = S2) ->
            forall v, In v (all_ids found) -> S v -> False).
  { intros S HSs _ HS v Hv HSv.
    apply all_ids_In in Hv as [q [Hq Hvq]].
    assert (Hsq : In s (pattern_ids q)).
    { destruct (IH q Hq) as [Hq1|Hq2], HS as [->| ->].
      - now apply Hq1.
      - exfalso. apply (Hdisj v); [now apply Hq1 | assumption].
      - exfalso. apply (Hdisj v); [assumption | now apply Hq2].
      - now apply Hq2. }
    apply (NoDup_app_disjoint _ _ s Hnd); [|assumption].
    apply all_ids_In. eauto. }
  apply Hact in Hs as [Hs|Hs].
  - left. unfold holds_exactly.
    apply (pattern_is_component S1 found p0 component_closed_1 Hm1 Hids Hreach Hclosed);
      [|assumption].
    apply Hfresh; auto. intros q Hq v Hv. now apply Hq.
  - right. unfold holds_exactly.
    apply (pattern_is_component S2 found p0 component_closed_2 Hm2 Hids Hreach Hclosed);
      [|assumption].
    apply Hfresh; auto. intros q Hq v Hv. now apply Hq.
Qed.

(** With two components, the loop finds two patterns, one per component. *)
Lemma discovered_two (found : list Net.Pattern) :
  discovered m actualThreshold found ->
  (forall k, active m actualThreshold k -> In k (all_ids found)) ->
  exists p1 p2, Permutation found [p1; p2] /\
                holds_exactly p1 S1 /\ holds_exactly p2 S2.
Proof.
  intros Hfound Hcover.
  pose proof (discovered_components Hfound) as Hclass.
  pose proof (discovered_NoDup Hfound) as Hnd.
  destruct Hcomp as (Hact & [a Ha] & [b Hb] & Hdisj & _).
  assert (Hina : In a (all_ids found)) by (apply Hcover, Hact; now left).
  assert (Hinb : In b (all_ids found)) by (apply Hcover, Hact; now right).
  assert (Hsame : forall (S : string -> Prop) x p q l1 l2,
             S x -> holds_exactly p S -> holds_exactly q S ->
             NoDup (all_ids (l1 ++ p :: q :: l2)) -> False).
  { intros S x p q l1 l2 Hx Hp Hq Hn. unfold all_ids in Hn.
    rewrite map_app, concat_app in Hn. apply NoDup_app_remove_l in Hn.
    cbn [map List.concat] in Hn.
    apply (NoDup_app_disjoint _ _ x Hn); [now apply Hp|].
    apply in_or_app. left. now apply Hq. }
  assert (Hsame' : forall (S : string -> Prop) x p q r l2,
             S x -> holds_exactly p S -> holds_exactly r S ->
             NoDup (all_ids (p :: q :: r :: l2)) -> False).
  { intros S x p q r l2 Hx Hp Hr Hn. unfold all_ids in Hn.
    cbn [map List.concat] in Hn.
    apply (NoDup_app_disjoint _ _ x Hn); [now apply Hp|].
    apply in_or_app. right. apply in_or_app. left. now apply Hr. }
  destruct found as [|p [|q [|r rest]]].
  - destruct Hina.
  - exfalso. unfold all_ids in Hina, Hinb. cbn [map List.concat] in Hina, Hinb.
    rewrite app_nil_r in Hina, Hinb.
    destruct (Hclass p (or_introl eq_refl)) as [Hp|Hp].
    + apply Hp in Hinb. now apply (Hdisj b).
    + apply Hp in Hina. now apply (Hdisj a).
  - destruct (Hclass p (or_introl eq_refl)) as [Hp|Hp];
      destruct (Hclass q (or_intror (or_introl eq_refl))) as [Hq|Hq].
    + exfalso. now apply (Hsame S1 a p q [] []).
    + exists p, q. auto.
    + exists q, p. split; [apply perm_swap | auto].
    + exfalso. now apply (Hsame S2 b p q [] []).
  - exfalso.
    destruct (Hclass p (or_introl eq_refl)) as [Hp|Hp];
      destruct (Hclass q (or_intror (or_introl eq_refl))) as [Hq|Hq];
      destruct (Hclass r (or_intror (or_intror (or_introl eq_refl)))) as [Hr|Hr];
      first [ now apply (Hsame S1 a p q [] (r :: rest))
            | now apply (Hsame S2 b p q [] (r :: rest))
            | now apply (Hsame S1 a q r [p] rest)
            | now apply (Hsame S2 b q r [p] rest)
            | now apply (Hsame' S1 a p q r rest)
            | now apply (Hsame' S2 b p q r rest) ].
Qed.
End Components.

Section Singleton.
Variable m : JsMap.t ConceptNode.
Variable actualThreshold : R.

(** A node with no active edge to or from another node is a pattern of its
    own. *)
Lemma discovered_singleton (found : list Net.Pattern) (k : string) :
  discovered m actualThreshold found ->
  In k (all_ids found) ->
  (forall v, active_edge m actualThreshold k v -> v = k) ->
  (forall u, active_edge m actualThreshold u k -> u = k) ->
  exists p, In p found /\ pattern_ids p = [k].
Proof.
  intros Hfound Hk Hout Hin.
  pose proof (discovered_NoDup Hfound) as Hnd.
  apply all_ids_In in Hk as [p [Hp Hkp]].
  exists p. split; [assumption|].
  destruct (discovered_pattern Hfound p Hp) as (_ & (s & others & Hids & Hreach) & _).
  assert (Hs : s = k).
  { destruct (string_dec s k) as [E|Hne]; [assumption|].
    destruct (reaches_into (Hreach k Hkp) Hne) as [u [Hu Hedge]].
    now apply Hin in Hedge. }
  subst s.
  assert (Hall : forall v, In v (pattern_ids p) -> v = k).
  { intros v Hv. destruct (string_dec v k) as [E|Hne]; [assumption|].
    destruct (reaches_out (Hreach v Hv) Hne) as [w [Hw Hedge]].
    now apply Hout in Hedge. }
  assert (Hndp : NoDup (pattern_ids p)).
  { apply in_split in Hp as [l1 [l2 ->]]. unfold all_ids in Hnd.
    rewrite map_app, concat_app in Hnd. apply NoDup_app_remove_l in Hnd.
    cbn [map List.concat] in Hnd. now apply NoDup_app_remove_r in Hnd. }
  rewrite Hids in *. destruct others as [|o others]; [reflexivity|].
  assert (o = k) by (apply Hall; right; now left). subst o.
  inversion Hndp as [|? ? Hnotin _]; subst. exfalso. apply Hnotin. now left.
Qed.
End Singleton.

Lemma wf_net_active_nodes (net : ConceptNetwork) (actualThreshold : R) :
  wf_net net ->
  Forall (fun node => active (nodes net) actualThreshold (id node))
         (filter (fun node => Js.geb (activation node) actualThreshold)
                 (JsMap.values (nodes net))).
Proof.
  intros [Hwf Hid]. apply Forall_forall. intros node Hin.
  apply filter_In in Hin as [Hin Hge].
  unfold JsMap.values in Hin. apply in_map_iff in Hin as [[k n] [Heq Hin]].
  cbn [snd] in Heq. subst n.
  rewrite (Hid k node Hin). unfold active, Net.is_active.
  now rewrite (wf_In_get _ _ Hwf Hin).
Qed.

(** [identifyEmergentPatterns] returns: no search runs out of fuel or meets
    a missing node.  Its result is the sorted list of the patterns found. *)
Lemma identifyEmergentPatterns_returns (uuid : nat -> string)
    (threshold : option R) (net : ConceptNetwork) :
  wf_net net ->
  let actualThreshold :=
    match threshold with Some t => t | None => activationThreshold (params net) end in
  exists found,
    discovered (nodes net) actualThreshold found /\
    (forall k, active (nodes net) actualThreshold k -> In k (all_ids found)) /\
    Net.identifyEmergentPatterns uuid threshold net
    = (Return (Js.sort (fun a b => Net.averageActivation b - Net.averageActivation a)
                       found),
       net).
Proof.
  intros Hnet actualThreshold.
  destruct (@collect_spec (nodes net) actualThreshold uuid
              (filter (fun node => Js.geb (activation node) actualThreshold)
                      (JsMap.values (nodes net))) [])
    as (found & Hrun & Hfound & _ & Hcover).
  { constructor. }
  { now apply wf_net_active_nodes. }
  exists found. split; [assumption|]. split.
  - intros k Hk. destruct (active_get Hk) as [node [Hget Hge]].
    destruct Hnet as [_ Hid].
    pose proof (get_In _ _ Hget) as Hin.
    rewrite <- (Hid k node Hin). apply Hcover.
    apply filter_In. split; [|assumption].
    unfold JsMap.values. apply in_map_iff. exists (k, node). auto.
  - unfold Net.identifyEmergentPatterns. unfold bind, this.
    fold actualThreshold. cbn [all_ids map List.concat] in Hrun.
    rewrite Hrun. reflexivity.
Qed.

(** C9 fails as stated: in [w_to_u] the active node u has no outgoing edge,
    so it reaches no other active node, and yet no pattern is the singleton
    of u: the traversal from w, which runs first, takes u into its
    pattern. *)
Lemma identifyEmergentPatterns_no_singleton :
  Net.is_active (nodes w_to_u) 0.5 "u" = true /\
  (forall v, ~ active_edge (nodes w_to_u) 0.5 "u" v) /\
  returned_patterns (Net.identifyEmergentPatterns (fun _ => "") (Some 0.5) w_to_u)
  = Some [["w"; "u"]].
Proof.
  split; [|split].
  - decide_R. reflexivity.
  - intros v (_ & _ & node & Hget & Hin). revert Hget Hin. js_compute.
    intros Hget. injection Hget as <-. intros [].
  - unfold returned_patterns. decide_R. reflexivity.
Qed.

(** C9, as the code has it.  On a network [identifyEmergentPatterns]
    returns a list of patterns that partitions the set of active nodes
    (activation at least the threshold): every active node is in exactly
    one pattern and every record of a pattern describes an active node.
    Each pattern is what a traversal along active-to-active outgoing edges
    reached from its first node.  The list is in descending order of
    [averageActivation], the arithmetic mean of the members' activations.
    If the active set consists of two components (no active edge between
    them, every node of a component reaching every other) the result is
    two patterns, each holding exactly the nodes of one component.  An
    active node with no active edge to or from another node is a singleton
    pattern.  With no active node the result is the empty list. *)
Theorem identifyEmergentPatterns_partition (uuid : nat -> string)
    (threshold : option R) (net : ConceptNetwork) :
  wf_net net ->
  let actualThreshold :=
    match threshold with Some t => t | None => activationThreshold (params net) end in
  let m := nodes net in
  exists patterns,
    Net.identifyEmergentPatterns uuid threshold net = (Return patterns, net) /\
    NoDup (all_ids patterns) /\
    (forall k, In k (all_ids patterns) <-> active m actualThreshold k) /\
    (forall p, In p patterns ->
       Forall (describes_active m actualThreshold) (Net.concepts p) /\
       (exists s others, pattern_ids p = s :: others /\
                         forall k, In k (pattern_ids p) ->
                                   reaches m actualThreshold s k) /\
       Net.averageActivation p = mean (map info_activation (Net.concepts p))) /\
    StronglySorted
      (fun a b => Net.averageActivation a >= Net.averageActivation b) patterns /\
    (forall S1 S2, two_components m actualThreshold S1 S2 ->
       exists p1 p2, Permutation patterns [p1; p2] /\
                     holds_exactly p1 S1 /\ holds_exactly p2 S2) /\
    (forall k, active m actualThreshold k ->
       (forall v, active_edge m actualThreshold k v -> v = k) ->
       (forall u, active_edge m actualThreshold u k -> u = k) ->
       exists p, In p patterns /\ pattern_ids p = [k]) /\
    ((forall k, ~ active m actualThreshold k) -> patterns = []).
Proof.
  intros Hnet actualThreshold m.
  destruct (identifyEmergentPatterns_returns uuid threshold Hnet)
    as (found & Hfound & Hcover & Hrun).
  fold actualThreshold in Hfound, Hcover. fold m in Hfound, Hcover.
  set (patterns := Js.sort
         (fun a b => Net.averageActivation b - Net.averageActivation a) found) in *.
  assert (Hperm : Permutation patterns found)
    by apply (sort_permutation Net.averageActivation).
  exists patterns. split; [exact Hrun|].
  split; [|split; [|split; [|split; [|split; [|split]]]]].
  - apply (Permutation_NoDup (Permutation_sym (all_ids_permutation Hperm))).
    now apply discovered_NoDup with m actualThreshold.
  - intros k. split.
    + intros Hk. apply (Permutation_in _ (all_ids_permutation Hperm)) in Hk.
      now apply discovered_active with found.
    + intros Hk.
      apply (Permutation_in _ (Permutation_sym (all_ids_permutation Hperm))).
      now apply Hcover.
  - intros p Hp. apply (Permutation_in _ Hperm) in Hp.
    now apply discovered_pattern with found.
  - apply (sort_sorted Net.averageActivation).
  - intros S1 S2 Hcomp.
    destruct (discovered_two Hcomp Hfound Hcover) as (p1 & p2 & Hp & H1 & H2).
    exists p1, p2. split; [|auto]. now rewrite Hperm.
  - intros k Hk Hout Hin.
    destruct (discovered_singleton Hfound (Hcover k Hk) Hout Hin) as [p [Hp Hids]].
    exists p. split; [|assumption].
    now apply (Permutation_in _ (Permutation_sym Hperm)).
  - intros Hnone. destruct patterns as [|p rest] eqn:E; [reflexivity|].
    exfalso. assert (Hp : In p found) by (apply (Permutation_in _ Hperm); now left).
    destruct (discovered_pattern Hfound p Hp) as (_ & (s & others & Hids & _) & _).
    apply (Hnone s). apply discovered_active with found; [assumption|].
    apply all_ids_In. exists p. split; [assumption|]. rewrite Hids. now left.
Qed.

(* ------------------------------------------------------------------ *)
(** ** The representation invariant is kept by every method *)

Lemma preserves_bind (A B : Type) (c : M A) (k : A -> M B) :
  preserves_wf c -> (forall a, preserves_wf (k a)) -> preserves_wf (bind c k).
Proof.
  intros Hc Hk net Hnet. unfold bind. specialize (Hc net Hnet).
  destruct (c net) as [[a|e] net']; cbn [snd] in *; [|assumption].
  now apply Hk.
Qed.

Lemma preserves_ret (A : Type) (a : A) : preserves_wf (ret a).
Proof. intros net Hnet. exact Hnet. Qed.

Lemma wf_nodes_update (m : JsMap.t ConceptNode) (k : string)
    (f : ConceptNode -> ConceptNode) :
  (forall n, id (f n) = id n) -> wf_nodes m -> wf_nodes (JsMap.update k f m).
Proof.
  intros Hf [Hwf Hid]. split.
  - unfold JsMap.wf. now rewrite keys_update.
  - clear Hwf. induction m as [|[k0 n0] m IH]; cbn [JsMap.update]; [intros ? ? []|].
    intros k1 n1.
    assert (Hid' : forall k n, In (k, n) m -> id n = k)
      by (intros; apply Hid; now right).
    destruct (String.eqb k0 k); intros [Heq|Hin].
    + injection Heq as <- <-. rewrite Hf. apply Hid. now left.
    + now apply Hid'.
    + injection Heq as <- <-. apply Hid. now left.
    + now apply IH.
Qed.

Lemma wf_nodes_map (m : JsMap.t ConceptNode) (f : ConceptNode -> ConceptNode) :
  (forall n, id (f n) = id n) -> wf_nodes m ->
  wf_nodes (map (fun e => (fst e, f (snd e))) m).
Proof.
  intros Hf [Hwf Hid]. split.
  - unfold JsMap.wf. now rewrite keys_map_values.
  - intros k n Hin. apply in_map_iff in Hin as [[k0 n0] [Heq Hin]].
    cbn [fst snd] in Heq. injection Heq as <- <-. rewrite Hf. now apply Hid.
Qed.

Lemma wf_nodes_guarded (A : Type) (key : A -> string)
    (method : A -> ConceptNode -> ConceptNode) (xs : list A)
    (m : JsMap.t ConceptNode) :
  (forall x n, id (method x n) = id n) -> wf_nodes m ->
  wf_nodes (fold_left (guarded_step key method) xs m).
Proof.
  intros Hf. revert m. induction xs as [|x xs IH]; intros m Hm; [assumption|].
  cbn [fold_left]. apply IH. unfold guarded_step.
  destruct (JsMap.has (key x) m); [|assumption].
  apply wf_nodes_update; [apply Hf | assumption].
Qed.

Lemma wf_nodes_remove (m : JsMap.t ConceptNode) (k : string) :
  wf_nodes m -> wf_nodes (JsMap.remove k m).
Proof.
  intros [Hwf Hid]. split.
  - unfold JsMap.wf. rewrite keys_remove. now apply NoDup_filter.
  - intros k0 n Hin. unfold JsMap.remove in Hin.
    apply filter_In in Hin as [Hin _]. now apply Hid.
Qed.

Lemma preserves_on_node (k : string) (f : ConceptNode -> ConceptNode) :
  (forall n, id (f n) = id n) -> preserves_wf (on_node k f).
Proof.
  intros Hf [m h i p] Hnet. run_M.
  destruct (JsMap.get k m); cbn [snd]; [|assumption].
  now apply (wf_nodes_update k f Hf).
Qed.

Lemma wf_new : wf_net Net.new.
Proof. split; [constructor | intros ? ? []]. Qed.

Lemma preserves_addConcept (uuid l : string) (c i : option string) :
  preserves_wf (Net.addConcept uuid l c i).
Proof.
  intros [m h n p] [Hwf Hid]. unfold Net.addConcept. run_M.
  set (conceptId := match i with
                    | Some s => if String.eqb s "" then uuid else s
                    | None => uuid
                    end).
  destruct (JsMap.has conceptId m) eqn:E; run_M; cbn [snd]; [now split|].
  rewrite set_absent by assumption. split; cbn [nodes].
  - unfold JsMap.wf, JsMap.keys. rewrite map_app. cbn [map fst].
    apply NoDup_app; [assumption | repeat constructor; intros [] |].
    intros k Hk [<-|[]]. apply has_In_keys in Hk. unfold JsMap.keys in Hk.
    congruence.
  - intros k0 n0 Hin. apply in_app_or in Hin as [Hin|[Heq|[]]].
    + now apply Hid.
    + now injection Heq as <- <-.
Qed.

Lemma preserves_removeConcept (x : string) : preserves_wf (Net.removeConcept x).
Proof.
  intros [m h n p] Hnet. unfold Net.removeConcept. run_M.
  destruct (JsMap.has x m); cbv [negb]; run_M; cbn [snd]; [|assumption].
  unfold JsMap.delete. run_M. cbn [snd].
  apply wf_nodes_remove.
  apply (wf_nodes_map (fun node => snd (Node.removeConnection x node)));
    [reflexivity | assumption].
Qed.

Lemma preserves_addConnection (source target : string) (weight : option R)
    (bidirectional : option bool) :
  preserves_wf (Net.addConnection source target weight bidirectional).
Proof.
  unfold Net.addConnection, Net.getConcept.
  apply preserves_bind.
  { intros net Hnet. unfold bind, this, ret, throw.
    now destruct (JsMap.get source (nodes net)). }
  intros _. apply preserves_bind.
  { intros net Hnet. unfold bind, this, ret, throw.
    now destruct (JsMap.get target (nodes net)). }
  intros _. apply preserves_bind; [now apply preserves_on_node|].
  intros _. destruct (match bidirectional with Some b => b | None => true end);
    [now apply preserves_on_node | apply preserves_ret].
Qed.

Lemma preserves_setInitialActivation (concepts : Net.Selection)
    (activationValue : option R) :
  preserves_wf (Net.setInitialActivation concepts activationValue).
Proof.
  intros net Hnet. rewrite setInitialActivation_run. cbn [snd].
  unfold wf_net. cbn [nodes]. unfold seeded.
  assert (Hreset : wf_nodes (map (fun e => (fst e, Node.updateActivation 0.0 (snd e)))
                                 (nodes net)))
    by (apply wf_nodes_map; [reflexivity | assumption]).
  destruct concepts; [| |assumption];
    apply wf_nodes_guarded; auto.
Qed.

Lemma preserves_spreadActivation (rate : option R) :
  preserves_wf (Net.spreadActivation rate).
Proof.
  intros net Hnet. rewrite spreadActivation_run. cbn [snd].
  unfold wf_net. cbn [nodes]. unfold spread_nodes.
  apply wf_nodes_guarded; auto.
Qed.

Lemma wf_after_rounds (d : R) (k : nat) (net : ConceptNetwork) :
  wf_net net -> wf_net (after_rounds d k net).
Proof.
  revert net. induction k as [|k IH]; intros net Hnet; [assumption|].
  cbn [after_rounds]. apply IH. now apply preserves_spreadActivation.
Qed.

Lemma preserves_removeConnection (source target : string)
    (bidirectional : option bool) :
  preserves_wf (Net.removeConnection source target bidirectional).
Proof.
  unfold Net.removeConnection.
  apply preserves_bind; [intros net Hnet; exact Hnet|]. intros s.
  apply preserves_bind.
  { destruct (JsMap.has source (nodes s)); [|apply preserves_ret].
    apply preserves_bind; [now apply preserves_on_node|].
    intros _. apply preserves_ret. }
  intros success. apply preserves_bind; [intros net Hnet; exact Hnet|]. intros s'.
  apply preserves_bind; [|intros _; apply preserves_ret].
  destruct (match bidirectional with Some b => b | None => true end
            && JsMap.has target (nodes s'));
    [now apply preserves_on_node | apply preserves_ret].
Qed.

Lemma preserves_runUntilConvergence (options : Net.Options) :
  preserves_wf (Net.runUntilConvergence options).
Proof.
  intros net Hnet. unfold Net.runUntilConvergence. unfold bind at 1. unfold this at 1.
  set (cfg := Net.config options (params net)).
  destruct (run_loop_rounds cfg (Z.to_nat (Net.cfg_maxIterations cfg)) 0%Z
              Js.Infinity net) as (k & _ & Hrun & _); [lia|].
  unfold bind. rewrite Hrun. cbn [snd ret]. now apply wf_after_rounds.
Qed.

Lemma preserves_identifyEmergentPatterns (uuid : nat -> string)
    (threshold : option R) :
  preserves_wf (Net.identifyEmergentPatterns uuid threshold).
Proof.
  intros net Hnet. unfold Net.identifyEmergentPatterns. run_M.
  now destruct (Net.collect _ _ _ _ _ _).
Qed.

Lemma preserves_generateSummary (uuid : nat -> string) :
  preserves_wf (Net.generateSummary uuid).
Proof.
  unfold Net.generateSummary.
  apply preserves_bind; [intros net Hnet; exact Hnet|]. intros ?.
  apply preserves_bind; [apply preserves_identifyEmergentPatterns|]. intros ?.
  apply preserves_bind; [intros net Hnet; exact Hnet|]. intros ?.
  apply preserves_bind; [intros net Hnet; exact Hnet|]. intros ?.
  apply preserves_ret.
Qed.

(** Every network that calls of the public methods build from the
    constructor's network satisfies the representation invariant. *)
Lemma reachable_wf (net : ConceptNetwork) : reachable net -> wf_net net.
Proof.
  induction 1 as [|c net Hnet IH]; [apply wf_new|].
  destruct c; cbn [after_call].
  - now apply preserves_addConcept.
  - now apply preserves_removeConcept.
  - now apply preserves_addConnection.
  - now apply preserves_removeConnection.
  - exact IH.
  - now apply preserves_setInitialActivation.
  - now apply preserves_spreadActivation.
  - now apply preserves_runUntilConvergence.
  - exact IH.
  - now apply preserves_identifyEmergentPatterns.
  - exact IH.
  - now apply preserves_generateSummary.
Qed.

(* ------------------------------------------------------------------ *)
(** ** Concrete runs *)

(** Proves that a program of method calls keeps the invariant. *)
Ltac wf_program :=
  repeat first
    [ apply preserves_addConcept
    | apply preserves_addConnection
    | apply preserves_setInitialActivation
    | apply preserves_spreadActivation
    | apply preserves_removeConcept
    | apply preserves_ret
    | apply preserves_bind; [|intros ?] ].

Lemma wf_c1_then_c2 : wf_net c1_then_c2.
Proof.
  unfold c1_then_c2.
  match goal with |- wf_net (snd (?c Net.new)) =>
    apply (fun H : preserves_wf c => H Net.new wf_new) end.
  wf_program.
Qed.

Lemma wf_w_to_u : wf_net w_to_u.
Proof.
  unfold w_to_u.
  match goal with |- wf_net (snd (?c Net.new)) =>
    apply (fun H : preserves_wf c => H Net.new wf_new) end.
  wf_program.
Qed.

(** C2 fails as stated: in [seeded_a] the node a has activation 1; after
    [setInitialActivation([])], which selects no node, its activation is 0
    but its previousActivation is 1. *)
Lemma setInitialActivation_keeps_previous :
  exists a,
    JsMap.get "a" (nodes (snd (Net.setInitialActivation (Net.IdArray []) None
                                 seeded_a))) = Some a /\
    activation a = 0 /\ prevActivation a = 1 /\ prevActivation a <> 0.
Proof.
  rewrite setInitialActivation_run. cbn [snd nodes].
  eexists. split; [js_compute; reflexivity|].
  cbn [activation prevActivation]. repeat split; lra.
Qed.

Lemma spreadActivation_synchronous_witness :
  exists res net',
    Net.spreadActivation (Some 0.1) c1_then_c2 = (Return res, net') /\
    JsMap.keys (nodes net') = JsMap.keys (nodes c1_then_c2).
Proof.
  destruct (proj1 spreadActivation_synchronous c1_then_c2 0.1 wf_c1_then_c2)
    as (res & net' & Hrun & Hkeys & _).
  exists res, net'. split; assumption.
Defined.

Lemma setInitialActivation_reset_and_seed_witness :
  exists net',
    Net.setInitialActivation (Net.IdArray ["a"; "zz"]) (Some 0.5) seeded_a
    = (Return tt, net') /\
    iterationCount net' = 1%Z /\
    JsMap.keys (nodes net') = JsMap.keys (nodes seeded_a).
Proof.
  destruct (setInitialActivation_reset_and_seed
              (Net.IdArray ["a"; "zz"]) (Some 0.5) seeded_a)
    as (net' & Hrun & _ & Hkeys & _ & Hcount & _).
  exists net'. repeat split; assumption.
Defined.

Lemma runUntilConvergence_bounded_witness :
  exists (k : nat) (result : Net.RunResult) (net' : ConceptNetwork),
    (1 <= k)%nat /\ (Z.of_nat k <= 3)%Z /\
    Net.runUntilConvergence
      {| Net.opt_maxIterations := Some 3%Z;
         Net.opt_convergenceThreshold := Some 0.0001;
         Net.opt_decayRate := None |} c1_then_c2
    = (Return result, net') /\
    Net.iterations result = Z.of_nat k.
Proof.
  destruct (@runUntilConvergence_bounded
              {| Net.opt_maxIterations := Some 3%Z;
                 Net.opt_convergenceThreshold := Some 0.0001;
                 Net.opt_decayRate := None |} 3%Z c1_then_c2 eq_refl)
    as (k & Hk1 & Hk3 & Hrun & _); [lia|].
  exists k. do 2 eexists. split; [assumption|]. split; [assumption|].
  split; [exact Hrun | reflexivity].
Defined.

Lemma removeConcept_cascade_witness :
  exists net',
    Net.removeConcept "u" w_to_u = (Return true, net') /\
    JsMap.get "u" (nodes net') = None /\
    forall k n', In (k, n') (nodes net') -> JsMap.has "u" (connections n') = false.
Proof.
  destruct (proj2 (removeConcept_cascade "u" w_to_u))
    as (net' & Hrun & _ & Hgone & _ & _ & Hedges).
  - js_compute. reflexivity.
  - exists net'. repeat split; assumption.
Defined.

Lemma addConnection_stores_clamped_witness :
  exists net' u,
    Net.addConnection "w" "u" (Some 5) (Some true) w_to_u = (Return tt, net') /\
    JsMap.get "u" (nodes net') = Some u /\
    JsMap.get "w" (connections u) = Some 1.
Proof.
  destruct (addConnection_stores_clamped "w" "u" 5 true w_to_u)
    as (_ & _ & Hfive & _ & _ & Hboth).
  destruct Hboth as (net' & Hrun & _ & _ & Hnodes);
    [js_compute; reflexivity | js_compute; reflexivity |].
  assert (Hu : exists u, JsMap.get "u" (nodes w_to_u) = Some u)
    by (eexists; js_compute; reflexivity).
  destruct Hu as [u Hu].
  destruct (Hnodes "u" u Hu) as (u' & Hget & _ & Hedges).
  exists net', u'. split; [assumption|]. split; [assumption|].
  rewrite (Hedges "w"). cbn. now rewrite Hfive.
Defined.

Lemma getTopActivatedConcepts_ranked_witness :
  exists ranked,
    Net.getTopActivatedConcepts (Some 10%Z) (Some 0.5) c1_then_c2
    = (Return (map Net.info_of (firstn 10 ranked)), c1_then_c2) /\
    StronglySorted (fun a b => activation a >= activation b) ranked.
Proof.
  destruct (proj1 getTopActivatedConcepts_ranked (Some 10%Z) (Some 0.5) c1_then_c2)
    as (ranked & Hrun & _ & _ & Hsorted & _ & Hslice).
  exists ranked. split; [|assumption].
  rewrite Hrun, Hslice by lia. reflexivity.
Defined.

Lemma wf_ab_and_c : wf_net ab_and_c.
Proof.
  unfold ab_and_c.
  match goal with |- wf_net (snd (?c Net.new)) =>
    apply (fun H : preserves_wf c => H Net.new wf_new) end.
  wf_program.
Qed.

Lemma ab_and_c_nodes :
  exists a b c,
    nodes ab_and_c = [("a", a); ("b", b); ("c", c)] /\
    activation a = 1 /\ activation b = 1 /\ activation c = 1 /\
    JsMap.keys (connections a) = ["b"] /\
    JsMap.keys (connections b) = ["a"] /\
    JsMap.keys (connections c) = [].
Proof.
  do 3 eexists. split; [js_compute; reflexivity|].
  cbn [activation connections]. repeat split; reflexivity.
Qed.

(** The active set of [ab_and_c] at threshold 0.5 consists of two
    components. *)
Lemma ab_and_c_components :
  two_components (nodes ab_and_c) 0.5 component_ab component_c.
Proof.
  destruct ab_and_c_nodes as (a & b & c & Hnodes & Ha & Hb & Hc & Hca & Hcb & Hcc).
  assert (Hge : Js.geb 1 0.5 = true) by (apply geb_true; lra).
  assert (Hact : forall k, active (nodes ab_and_c) 0.5 k
                           <-> component_ab k \/ component_c k).
  { intros k. unfold active, Net.is_active, component_ab, component_c.
    rewrite Hnodes. cbn [JsMap.get].
    destruct (String.eqb_spec "a" k) as [<-|Hna]; [rewrite Ha; tauto|].
    destruct (String.eqb_spec "b" k) as [<-|Hnb]; [rewrite Hb; tauto|].
    destruct (String.eqb_spec "c" k) as [<-|Hnc]; [rewrite Hc; tauto|].
    split; [discriminate|]. intros [[E|E]|E]; congruence. }
  assert (Hedge : forall u v, active_edge (nodes ab_and_c) 0.5 u v ->
                              (u = "a" /\ v = "b") \/ (u = "b" /\ v = "a")).
  { intros u v (_ & _ & node & Hget & Hin). rewrite Hnodes in Hget.
    cbn [JsMap.get] in Hget.
    destruct (String.eqb_spec "a" u) as [<-|Hna].
    { injection Hget as <-. rewrite Hca in Hin. destruct Hin as [<-|[]]. auto. }
    destruct (String.eqb_spec "b" u) as [<-|Hnb].
    { injection Hget as <-. rewrite Hcb in Hin. destruct Hin as [<-|[]]. auto. }
    destruct (String.eqb_spec "c" u) as [<-|Hnc]; [|discriminate].
    injection Hget as <-. rewrite Hcc in Hin. destruct Hin. }
  assert (Hab : active_edge (nodes ab_and_c) 0.5 "a" "b").
  { split; [apply Hact; left; now left|]. split; [apply Hact; left; now right|].
    exists a. rewrite Hnodes, Hca. split; [reflexivity | now left]. }
  assert (Hba : active_edge (nodes ab_and_c) 0.5 "b" "a").
  { split; [apply Hact; left; now right|]. split; [apply Hact; left; now left|].
    exists b. rewrite Hnodes, Hcb. split; [reflexivity | now left]. }
  split; [exact Hact|]. split; [exists "a"; now left|].
  split; [exists "c"; reflexivity|].
  unfold component_ab, component_c.
  split; [intros k [->| ->] E; discriminate|].
  split; [|split].
  - intros u v Hu ->. split; intros H; apply Hedge in H as [[? ?]|[? ?]];
      destruct Hu; congruence.
  - intros u v [->| ->] [->| ->];
      first [apply rt_refl | apply rt_step; assumption].
  - intros u v -> ->. apply rt_refl.
Qed.

Lemma identifyEmergentPatterns_partition_witness :
  exists patterns p1 p2,
    Net.identifyEmergentPatterns (fun _ => "") (Some 0.5) ab_and_c
    = (Return patterns, ab_and_c) /\
    NoDup (all_ids patterns) /\
    Permutation patterns [p1; p2] /\
    holds_exactly p1 component_ab /\ holds_exactly p2 component_c.
Proof.
  destruct (identifyEmergentPatterns_partition (fun _ => "") (Some 0.5) wf_ab_and_c)
    as (patterns & Hrun & Hnd & _ & _ & _ & Htwo & _).
  destruct (Htwo component_ab component_c ab_and_c_components)
    as (p1 & p2 & Hperm & H1 & H2).
  exists patterns, p1, p2. repeat split; try assumption; try apply H1; apply H2.
Defined.

(* ================================================================== *)
(** * Further properties of the network *)

(* ------------------------------------------------------------------ *)
(** ** The graph mutations in closed form *)

Lemma with_nodes_same (net : ConceptNetwork) : with_nodes net (nodes net) = net.
Proof. now destruct net. Qed.

Lemma addConcept_run (uuid l : string) (c i : option string) (net : ConceptNetwork) :
  let conceptId := chosen_id uuid i in
  Net.addConcept uuid l c i net
  = if JsMap.has conceptId (nodes net)
    then (Throw (ConceptExists conceptId), net)
    else (Return conceptId,
          with_nodes net (nodes net ++ [(conceptId, Node.new conceptId l c)])).
Proof.
  intros conceptId. destruct net as [m h n p]. unfold Net.addConcept. run_M.
  fold (chosen_id uuid i). fold conceptId.
  destruct (JsMap.has conceptId m) eqn:E; run_M; [reflexivity|].
  now rewrite set_absent.
Qed.

Lemma removeConcept_run (x : string) (net : ConceptNetwork) :
  Net.removeConcept x net
  = if JsMap.has x (nodes net)
    then (Return true,
          with_nodes net
            (JsMap.remove x
               (map (fun e => (fst e, snd (Node.removeConnection x (snd e))))
                    (nodes net))))
    else (Return false, net).
Proof.
  destruct net as [m h n p]. unfold Net.removeConcept. run_M.
  destruct (JsMap.has x m) eqn:E; cbv [negb]; run_M; [|reflexivity].
  unfold JsMap.delete. run_M.
  assert (Hb : JsMap.has x
                 (map (fun e : string * ConceptNode =>
                         (fst e, snd (Node.removeConnection x (snd e)))) m) = true).
  { unfold JsMap.has in *.
    rewrite (get_map_values (fun n => snd (Node.removeConnection x n))).
    destruct (JsMap.get x m); [reflexivity | discriminate]. }
  rewrite Hb. reflexivity.
Qed.

Lemma addConnection_run (source target : string) (weight : option R)
    (bidirectional : option bool) (net : ConceptNetwork) :
  let w := Net.safeWeight (match weight with Some w => w | None => 0.5 end) in
  let b := match bidirectional with Some b => b | None => true end in
  Net.addConnection source target weight bidirectional net
  = match JsMap.get source (nodes net), JsMap.get target (nodes net) with
    | None, _ => (Throw (ConceptNotFound source), net)
    | Some _, None => (Throw (ConceptNotFound target), net)
    | Some _, Some _ =>
        (Return tt,
         with_nodes net
           (let m1 := JsMap.update source (Node.addConnection target w) (nodes net) in
            if b then JsMap.update target (Node.addConnection source w) m1 else m1))
    end.
Proof.
  intros w b. destruct net as [m h n p].
  unfold Net.addConnection, Net.getConcept. fold w. fold b. run_M.
  destruct (JsMap.get source m) as [ns|] eqn:Hs; run_M; [|reflexivity].
  destruct (JsMap.get target m) as [nt|] eqn:Ht; run_M; [|reflexivity].
  rewrite Hs. run_M. destruct b; run_M; [|reflexivity].
  assert (Ht' : exists nt', JsMap.get target
                  (JsMap.update source (Node.addConnection target w) m) = Some nt').
  { destruct (String.eqb_spec target source) as [->|Hne].
    - rewrite get_update_eq, Hs. simpl. eauto.
    - rewrite get_update_neq, Ht by assumption. eauto. }
  destruct Ht' as [nt' Ht']. rewrite Ht'. reflexivity.
Qed.

Lemma removeConnection_run (source target : string) (bidirectional : option bool)
    (net : ConceptNetwork) :
  let b := match bidirectional with Some b => b | None => true end in
  let m1 := if JsMap.has source (nodes net)
            then JsMap.update source
                   (fun n => snd (Node.removeConnection target n)) (nodes net)
            else nodes net in
  let m2 := if b && JsMap.has target (nodes net)
            then JsMap.update target
                   (fun n => snd (Node.removeConnection source n)) m1
            else m1 in
  Net.removeConnection source target bidirectional net
  = (Return (match JsMap.get source (nodes net) with
             | Some n => JsMap.has target (connections n)
             | None => false
             end),
     with_nodes net m2).
Proof.
  intros b m1 m2. destruct net as [m h n p].
  unfold Net.removeConnection. fold b. run_M. unfold with_nodes. cbn [nodes
    activationHistory iterationCount params] in *.
  assert (Hkeys : JsMap.has target m1 = JsMap.has target m).
  { unfold m1. destruct (JsMap.has source m); [|reflexivity].
    destruct (JsMap.has target m) eqn:E.
    - apply has_In_keys. rewrite keys_update. now apply has_In_keys.
    - destruct (JsMap.has target (JsMap.update source _ m)) eqn:E'; [|reflexivity].
      apply has_In_keys in E'. rewrite keys_update in E'.
      apply has_In_keys in E'. congruence. }
  unfold m2, m1 in *. clear m1 m2.
  destruct (JsMap.has source m) eqn:Hs.
  - apply has_get in Hs as [ns Hs]. rewrite Hs. run_M. rewrite Hs. run_M.
    rewrite Hkeys.
    destruct (b && JsMap.has target m) eqn:Hb; run_M; [|reflexivity].
    apply andb_prop in Hb as [_ Hb]. rewrite <- Hkeys in Hb.
    apply has_get in Hb as [nt Hb]. rewrite Hb. reflexivity.
  - apply has_false_get in Hs. rewrite Hs. run_M.
    destruct (b && JsMap.has target m) eqn:Hb; run_M; [|reflexivity].
    apply andb_prop in Hb as [_ Hb].
    apply has_get in Hb as [nt Hb]. rewrite Hb. reflexivity.
Qed.

(* ------------------------------------------------------------------ *)
(** ** More facts about [Map] *)

Section JsMapMoreFacts.
Variable V : Type.
Implicit Types (m : JsMap.t V) (k : string) (v : V).

Lemma remove_absent m k : JsMap.has k m = false -> JsMap.remove k m = m.
Proof.
  unfold JsMap.has, JsMap.remove.
  induction m as [|[k0 v0] m IH]; cbn [JsMap.get filter fst]; [reflexivity|].
  destruct (String.eqb k0 k); cbn [negb]; intros H; [discriminate|].
  now rewrite IH.
Qed.

Lemma remove_app m m' k :
  JsMap.remove k (m ++ m') = JsMap.remove k m ++ JsMap.remove k m'.
Proof. unfold JsMap.remove. apply filter_app. Qed.

Lemma remove_set_absent m k v :
  JsMap.has k m = false -> JsMap.remove k (JsMap.set k v m) = m.
Proof.
  intros H. rewrite set_absent, remove_app, remove_absent by assumption.
  unfold JsMap.remove. cbn [filter fst]. rewrite String.eqb_refl. cbn [negb].
  apply app_nil_r.
Qed.

Lemma has_remove m k : JsMap.has k (JsMap.remove k m) = false.
Proof. apply has_false_get, get_remove_eq. Qed.

Lemma update_ext m k (f g : V -> V) :
  (forall v, JsMap.get k m = Some v -> f v = g v) ->
  JsMap.update k f m = JsMap.update k g m.
Proof.
  induction m as [|[k0 v0] m IH]; cbn [JsMap.update JsMap.get]; [reflexivity|].
  destruct (String.eqb k0 k); intros H.
  - now rewrite (H v0).
  - now rewrite IH.
Qed.

Lemma update_id m k : JsMap.update k (fun v => v) m = m.
Proof.
  induction m as [|[k0 v0] m IH]; cbn [JsMap.update]; [reflexivity|].
  destruct (String.eqb k0 k); [reflexivity | now rewrite IH].
Qed.

Lemma update_update m k (f g : V -> V) :
  JsMap.update k f (JsMap.update k g m) = JsMap.update k (fun v => f (g v)) m.
Proof.
  induction m as [|[k0 v0] m IH]; cbn [JsMap.update]; [reflexivity|].
  destruct (String.eqb k0 k) eqn:E; cbn [JsMap.update]; rewrite E;
    [reflexivity | now rewrite IH].
Qed.

Lemma update_comm m k k' (f g : V -> V) :
  k <> k' ->
  JsMap.update k f (JsMap.update k' g m) = JsMap.update k' g (JsMap.update k f m).
Proof.
  intros Hne. induction m as [|[k0 v0] m IH]; cbn [JsMap.update]; [reflexivity|].
  destruct (String.eqb_spec k0 k') as [E'|E'], (String.eqb_spec k0 k) as [E|E];
    subst; cbn [JsMap.update]; rewrite ?String.eqb_refl; try congruence.
  - destruct (String.eqb_spec k' k); [congruence | reflexivity].
  - destruct (String.eqb_spec k k'); [congruence | reflexivity].
  - destruct (String.eqb_spec k0 k'), (String.eqb_spec k0 k); try congruence.
Qed.

Lemma In_update m k (f : V -> V) k' v' :
  In (k', v') (JsMap.update k f m) ->
  In (k', v') m \/ (k' = k /\ exists v, In (k, v) m /\ v' = f v).
Proof.
  induction m as [|[k0 v0] m IH]; cbn [JsMap.update]; [intros []|].
  destruct (String.eqb_spec k0 k) as [->|Hne]; intros [H|H].
  - injection H as <- <-. right. split; [reflexivity|]. exists v0.
    split; [now left | reflexivity].
  - left. now right.
  - left. now left.
  - destruct (IH H) as [Hin|[-> [v [Hin ->]]]].
    + left. now right.
    + right. split; [reflexivity|]. exists v. split; [now right | reflexivity].
Qed.

Lemma size_update m k (f : V -> V) : JsMap.size (JsMap.update k f m) = JsMap.size m.
Proof.
  unfold JsMap.size. rewrite <- (length_map fst (JsMap.update k f m)).
  change (map fst (JsMap.update k f m)) with (JsMap.keys (JsMap.update k f m)).
  rewrite keys_update. apply length_map.
Qed.
End JsMapMoreFacts.

Lemma removeConnection_absent (x : string) (n : ConceptNode) :
  JsMap.has x (connections n) = false -> snd (Node.removeConnection x n) = n.
Proof.
  intros H. destruct n as [i l c conns a pa md]. cbn [connections] in H.
  unfold Node.removeConnection, JsMap.delete, Node.with_connections.
  cbn [snd id label category connections activation prevActivation metadata].
  now rewrite remove_absent.
Qed.

Lemma removeConnection_addConnection (t : string) (w : R) (n : ConceptNode) :
  JsMap.has t (connections n) = false ->
  snd (Node.removeConnection t (Node.addConnection t w n)) = n.
Proof.
  intros H. destruct n as [i l c conns a pa md]. cbn [connections] in H.
  unfold Node.removeConnection, Node.addConnection, JsMap.delete,
    Node.with_connections.
  cbn [snd id label category connections activation prevActivation metadata].
  now rewrite remove_set_absent.
Qed.

(* ------------------------------------------------------------------ *)
(** ** Adding and looking up a concept *)

(** X1.  [addConcept(label, category, id)] uses the given id unless it is
    missing or the empty string, in which case it uses the value of
    [uuidv4()].  If the graph already holds that id the call throws
    "already exists" and changes nothing.  Otherwise it returns the id and
    appends one node at the end of the graph, with the given label and
    category, activation and previousActivation 0 and no edges; all other
    nodes, the history, the counter and the parameters are untouched, and
    [getConcept] of the id then returns the new node. *)
Theorem addConcept_appends_or_throws (uuid l : string) (c i : option string)
    (net : ConceptNetwork) :
  let conceptId := chosen_id uuid i in
  (forall s, i = Some s -> s <> "" -> conceptId = s) /\
  (i = None \/ i = Some "" -> conceptId = uuid) /\
  (JsMap.has conceptId (nodes net) = true ->
   Net.addConcept uuid l c i net = (Throw (ConceptExists conceptId), net)) /\
  (JsMap.has conceptId (nodes net) = false ->
   exists net' node,
     Net.addConcept uuid l c i net = (Return conceptId, net') /\
     same_but_nodes net net' /\
     nodes net' = nodes net ++ [(conceptId, node)] /\
     id node = conceptId /\ label node = l /\ category node = c /\
     activation node = 0 /\ prevActivation node = 0 /\ connections node = [] /\
     Net.getConcept conceptId net' = (Return node, net') /\
     (forall k, k <> conceptId ->
                JsMap.get k (nodes net') = JsMap.get k (nodes net))).
Proof.
  intros conceptId. split; [|split; [|split]].
  - intros s -> Hs. unfold conceptId, chosen_id.
    destruct (String.eqb_spec s ""); [contradiction | reflexivity].
  - intros [->| ->]; reflexivity.
  - intros H. pose proof (addConcept_run uuid l c i net) as Hrun.
    cbv zeta in Hrun. fold conceptId in Hrun. now rewrite H in Hrun.
  - intros H. pose proof (addConcept_run uuid l c i net) as Hrun.
    cbv zeta in Hrun. fold conceptId in Hrun. rewrite H in Hrun.
    do 2 eexists. split; [exact Hrun|].
    split; [unfold same_but_nodes, with_nodes; cbn; auto|].
    split; [reflexivity|].
    do 6 (split; [reflexivity|]).
    apply has_false_get in H. split.
    + unfold Net.getConcept. run_M. unfold with_nodes.
      cbn [nodes]. rewrite get_app, H. cbn [JsMap.get].
      now rewrite String.eqb_refl.
    + intros k Hk. cbn [with_nodes nodes]. rewrite get_app.
      destruct (JsMap.get k (nodes net)); [reflexivity|].
      cbn [JsMap.get]. destruct (String.eqb_spec conceptId k); [congruence|].
      reflexivity.
Qed.

(** X1 at work: on the empty network, an id given as the empty string is
    replaced by the generated one. *)
Lemma addConcept_appends_or_throws_witness :
  exists net' node,
    Net.addConcept "generated" "A" None (Some "") Net.new
    = (Return "generated", net') /\
    nodes net' = [("generated", node)] /\ activation node = 0.
Proof.
  destruct (addConcept_appends_or_throws "generated" "A" None (Some "") Net.new)
    as (_ & _ & _ & Hfresh).
  destruct (Hfresh eq_refl)
    as (net' & node & Hrun & _ & Hnodes & _ & _ & _ & Hact & _).
  exists net', node. repeat split; assumption.
Defined.

(* ------------------------------------------------------------------ *)
(** ** Removing a connection *)

(** X2.  [removeConnection(source, target, bidirectional)] never throws,
    whatever ids it is given.  It removes the edge source->target if the
    source is in the graph, and with [bidirectional] also the edge
    target->source if the target is in the graph; every other edge, every
    node's other fields, the node order, the history, the counter and the
    parameters are kept.  The value returned tells whether the edge
    source->target existed: it is [false] when only the reverse edge was
    there, although that edge is removed. *)
Theorem removeConnection_reports_forward_edge
    (source target : string) (bidirectional : bool) (net : ConceptNetwork) :
  exists net',
    Net.removeConnection source target (Some bidirectional) net
    = (Return (match JsMap.get source (nodes net) with
               | Some n => JsMap.has target (connections n)
               | None => false
               end), net') /\
    same_but_nodes net net' /\
    JsMap.keys (nodes net') = JsMap.keys (nodes net) /\
    forall k n, JsMap.get k (nodes net) = Some n ->
      exists n', JsMap.get k (nodes net') = Some n' /\
                 same_but_connections n n' /\
                 forall t, JsMap.get t (connections n')
                           = if (String.eqb k source && String.eqb t target)
                                || (bidirectional && String.eqb k target
                                    && String.eqb t source)
                             then None
                             else JsMap.get t (connections n).
Proof.
  eexists. split; [apply (removeConnection_run source target (Some bidirectional))|].
  cbn zeta. unfold with_nodes. cbn [nodes activationHistory iterationCount params].
  split; [unfold same_but_nodes; cbn; auto|].
  set (rm := fun x (n : ConceptNode) => snd (Node.removeConnection x n)).
  change (fun n : ConceptNode => snd (Node.removeConnection target n))
    with (rm target).
  change (fun n : ConceptNode => snd (Node.removeConnection source n))
    with (rm source).
  set (m := nodes net).
  set (m1 := if JsMap.has source m then JsMap.update source (rm target) m else m).
  assert (Hk1 : JsMap.keys m1 = JsMap.keys m).
  { unfold m1. destruct (JsMap.has source m); [apply keys_update | reflexivity]. }
  assert (Hg1 : forall k n, JsMap.get k m = Some n ->
            JsMap.get k m1 = Some (if String.eqb k source then rm target n else n)).
  { intros k n Hk. unfold m1. destruct (String.eqb_spec k source) as [->|Hne].
    - assert (E : JsMap.has source m = true) by (apply has_get; eauto).
      rewrite E, get_update_eq, Hk. reflexivity.
    - destruct (JsMap.has source m); [|assumption].
      now rewrite get_update_neq. }
  split.
  { destruct (bidirectional && JsMap.has target m); [|assumption].
    now rewrite keys_update. }
  intros k n Hk. specialize (Hg1 k n Hk).
  assert (Hrm : forall x n0 t,
            JsMap.get t (connections (rm x n0))
            = if String.eqb t x then None else JsMap.get t (connections n0))
    by (intros; apply removeConnection_node).
  assert (Hsame : forall x n0, same_but_connections n0 (rm x n0))
    by (intros; apply removeConnection_node).
  assert (Hrefl : forall n0 : ConceptNode, same_but_connections n0 n0)
    by (intros; unfold same_but_connections; tauto).
  assert (Htrans : forall a b c : ConceptNode,
            same_but_connections a b -> same_but_connections b c ->
            same_but_connections a c).
  { unfold same_but_connections. intros a b c' (? & ? & ? & ? & ? & ?)
      (? & ? & ? & ? & ? & ?). repeat split; congruence. }
  destruct (bidirectional && JsMap.has target m) eqn:Hb.
  - apply andb_prop in Hb as [-> Ht]. cbn [andb].
    destruct (String.eqb_spec k target) as [->|Hkt].
    + rewrite get_update_eq, Hg1. cbn [option_map].
      eexists. split; [reflexivity|]. split.
      * destruct (String.eqb target source); eauto.
      * intros t.
        destruct (String.eqb_spec target source) as [->|Hne];
          rewrite ?Hrm; cbn [andb orb]; destruct (String.eqb t source);
          reflexivity.
    + rewrite get_update_neq, Hg1 by assumption.
      eexists. split; [reflexivity|]. split.
      * destruct (String.eqb k source); eauto.
      * intros t. rewrite orb_false_r.
        destruct (String.eqb k source); cbn [andb]; [apply Hrm | reflexivity].
  - rewrite Hg1. eexists. split; [reflexivity|]. split.
    + destruct (String.eqb k source); eauto.
    + intros t.
      assert (Hno : bidirectional && String.eqb k target && String.eqb t source
                    = false).
      { destruct bidirectional; [|reflexivity]. cbn [andb] in *.
        destruct (String.eqb_spec k target) as [->|]; [|reflexivity].
        apply has_false_get in Hb. congruence. }
      rewrite Hno, orb_false_r.
      destruct (String.eqb k source); cbn [andb]; [apply Hrm | reflexivity].
Qed.

(* ------------------------------------------------------------------ *)
(** ** Round trips *)

(** X3.  Removing a connection that was just added restores the network.
    If both endpoints are in the graph and there was no edge source->target
    (and, for a bidirectional connection, no edge target->source) before,
    then [addConnection(source, target, weight, bidirectional)] followed by
    [removeConnection(source, target, bidirectional)] returns [true] and
    leaves exactly the network of before the two calls. *)
Theorem addConnection_removeConnection_round_trip
    (source target : string) (weight : option R) (bidirectional : bool)
    (net : ConceptNetwork) (ns nt : ConceptNode) :
  JsMap.get source (nodes net) = Some ns ->
  JsMap.get target (nodes net) = Some nt ->
  JsMap.has target (connections ns) = false ->
  (bidirectional = true -> JsMap.has source (connections nt) = false) ->
  exists net1,
    Net.addConnection source target weight (Some bidirectional) net
    = (Return tt, net1) /\
    Net.removeConnection source target (Some bidirectional) net1
    = (Return true, net).
Proof.
  intros Hs Ht Hst Hts.
  pose proof (addConnection_run source target weight (Some bidirectional) net)
    as Hadd.
  cbv zeta in Hadd. rewrite Hs, Ht in Hadd.
  set (w := Net.safeWeight (match weight with Some w => w | None => 0.5 end)) in *.
  eexists. split; [exact Hadd|].
  rewrite removeConnection_run. cbv zeta. unfold with_nodes.
  cbn [nodes activationHistory iterationCount params].
  set (m := nodes net) in *.
  set (add := fun x (n : ConceptNode) => Node.addConnection x w n).
  set (rm := fun x (n : ConceptNode) => snd (Node.removeConnection x n)).
  change (Node.addConnection target w) with (add target).
  change (Node.addConnection source w) with (add source).
  change (fun n : ConceptNode => snd (Node.removeConnection target n))
    with (rm target).
  change (fun n : ConceptNode => snd (Node.removeConnection source n))
    with (rm source).
  assert (Hhas : forall k (f : ConceptNode -> ConceptNode) m0 x,
            JsMap.has x (JsMap.update k f m0) = JsMap.has x m0).
  { intros k f m0 x. destruct (JsMap.has x m0) eqn:E.
    - apply has_In_keys. rewrite keys_update. now apply has_In_keys.
    - destruct (JsMap.has x (JsMap.update k f m0)) eqn:E'; [|reflexivity].
      apply has_In_keys in E'. rewrite keys_update in E'.
      apply has_In_keys in E'. congruence. }
  assert (Hsm : JsMap.has source m = true) by (apply has_get; eauto).
  assert (Htm : JsMap.has target m = true) by (apply has_get; eauto).
  assert (Hnet : forall m', m' = m ->
            {| nodes := m'; activationHistory := activationHistory net;
               iterationCount := iterationCount net; params := params net |} = net).
  { intros m' ->. unfold m. now destruct net. }
  destruct bidirectional.
  - specialize (Hts eq_refl). rewrite !Hhas, Hsm, Htm. cbn [andb].
    destruct (String.eqb_spec source target) as [E|Hne].
    + subst target. rewrite Hs in Ht. injection Ht as <-.
      rewrite !update_update, get_update_eq, Hs. cbn [option_map].
      f_equal.
      * f_equal. unfold add, Node.addConnection, Node.with_connections.
        cbn [connections]. apply has_get. exists w.
        rewrite get_set_eq. reflexivity.
      * apply Hnet. rewrite <- (update_id m source) at 2.
        apply update_ext. intros v Hv. rewrite Hs in Hv.
        injection Hv as <-. unfold rm, add.
        assert (E1 : Node.addConnection source w (Node.addConnection source w ns)
                     = Node.addConnection source w ns).
        { unfold Node.addConnection, Node.with_connections. cbn [connections
            id label category activation prevActivation metadata].
          f_equal. clear. induction (connections ns) as [|[k0 v0] cs IH];
            cbn [JsMap.set].
          - now rewrite String.eqb_refl.
          - destruct (String.eqb k0 source) eqn:E; cbn [JsMap.set]; rewrite E;
              [reflexivity | now rewrite IH]. }
        rewrite E1, removeConnection_addConnection by assumption.
        now apply removeConnection_absent.
    + rewrite (update_comm _ (rm source) (rm target)) by congruence.
      rewrite (update_update _ target (rm source) (add source)).
      rewrite (update_comm _ (rm target)) by congruence.
      rewrite (update_update _ source (rm target) (add target)).
      rewrite get_update_neq, get_update_eq, Hs by congruence. cbn [option_map].
      f_equal.
      * f_equal. unfold add, Node.addConnection, Node.with_connections.
        cbn [connections]. apply has_get. exists w. apply get_set_eq.
      * apply Hnet.
        rewrite (update_ext m source (fun v => rm target (add target v))
                   (fun v => v)).
        2:{ intros v Hv. rewrite Hs in Hv. injection Hv as <-.
            now apply removeConnection_addConnection. }
        rewrite update_id.
        rewrite (update_ext m target (fun v => rm source (add source v))
                   (fun v => v)).
        2:{ intros v Hv. rewrite Ht in Hv. injection Hv as <-.
            now apply removeConnection_addConnection. }
        apply update_id.
  - rewrite !Hhas, Hsm. cbn [andb].
    rewrite update_update, get_update_eq, Hs. cbn [option_map].
    f_equal.
    + f_equal. unfold add, Node.addConnection, Node.with_connections.
      cbn [connections]. apply has_get. exists w. apply get_set_eq.
    + apply Hnet.
      rewrite (update_ext m source (fun v => rm target (add target v))
                 (fun v => v)).
      2:{ intros v Hv. rewrite Hs in Hv. injection Hv as <-.
          now apply removeConnection_addConnection. }
      apply update_id.
Qed.

(* ------------------------------------------------------------------ *)
(** ** Edges end in the graph *)

Lemma has_keys_eq (V W : Type) (m : JsMap.t V) (m' : JsMap.t W) (k : string) :
  JsMap.keys m' = JsMap.keys m -> JsMap.has k m' = JsMap.has k m.
Proof.
  intros Hkeys. destruct (JsMap.has k m) eqn:E.
  - apply has_In_keys. rewrite Hkeys. now apply has_In_keys.
  - destruct (JsMap.has k m') eqn:E'; [|reflexivity].
    apply has_In_keys in E'. rewrite Hkeys in E'. apply has_In_keys in E'.
    congruence.
Qed.

Lemma sub_graph_refl (m : JsMap.t ConceptNode) : sub_graph m m.
Proof.
  split; [reflexivity|]. intros k n Hin. exists n. split; [assumption|].
  apply incl_refl.
Qed.

Lemma sub_graph_trans (m1 m2 m3 : JsMap.t ConceptNode) :
  sub_graph m1 m2 -> sub_graph m2 m3 -> sub_graph m1 m3.
Proof.
  intros [Hk12 H12] [Hk23 H23]. split; [congruence|].
  intros k n3 Hin. destruct (H23 k n3 Hin) as (n2 & Hin2 & Hincl2).
  destruct (H12 k n2 Hin2) as (n1 & Hin1 & Hincl1).
  exists n1. split; [assumption|]. now apply incl_tran with (connections n2).
Qed.

Lemma graph_ok_sub_graph (m m' : JsMap.t ConceptNode) :
  graph_ok m -> sub_graph m m' -> graph_ok m'.
Proof.
  intros Hok [Hkeys Hsub] k n' t w Hin Hedge.
  destruct (Hsub k n' Hin) as (n & Hn & Hincl).
  destruct (Hok k n t w Hn (Hincl _ Hedge)) as [Hhas Hw].
  split; [|assumption]. now rewrite (has_keys_eq _ _ t Hkeys).
Qed.

Lemma sub_graph_update (m : JsMap.t ConceptNode) (k : string)
    (f : ConceptNode -> ConceptNode) :
  (forall n, incl (connections (f n)) (connections n)) ->
  sub_graph m (JsMap.update k f m).
Proof.
  intros Hf. split; [apply keys_update|].
  intros k' n' Hin. apply In_update in Hin as [Hin|[-> [n [Hin ->]]]].
  - exists n'. split; [assumption | apply incl_refl].
  - exists n. split; [assumption | apply Hf].
Qed.

Lemma sub_graph_map (m : JsMap.t ConceptNode) (f : ConceptNode -> ConceptNode) :
  (forall n, incl (connections (f n)) (connections n)) ->
  sub_graph m (map (fun e => (fst e, f (snd e))) m).
Proof.
  intros Hf. split; [apply keys_map_values|].
  intros k n' Hin. apply in_map_iff in Hin as [[k0 n0] [Heq Hin]].
  cbn [fst snd] in Heq. injection Heq as <- <-.
  exists n0. split; [assumption | apply Hf].
Qed.

Lemma sub_graph_guarded (A : Type) (key : A -> string)
    (method : A -> ConceptNode -> ConceptNode) (xs : list A)
    (m : JsMap.t ConceptNode) :
  (forall x n, incl (connections (method x n)) (connections n)) ->
  sub_graph m (fold_left (guarded_step key method) xs m).
Proof.
  intros Hf. revert m. induction xs as [|x xs IH]; intros m;
    [apply sub_graph_refl|].
  cbn [fold_left]. apply sub_graph_trans with (guarded_step key method m x);
    [|apply IH].
  unfold guarded_step. destruct (JsMap.has (key x) m);
    [|apply sub_graph_refl].
  apply sub_graph_update. apply Hf.
Qed.

Lemma sub_graph_seeded (concepts : Net.Selection) (activationValue : R)
    (m : JsMap.t ConceptNode) :
  sub_graph m (seeded concepts activationValue m).
Proof.
  unfold seeded.
  assert (Hreset : sub_graph m
            (map (fun e => (fst e, Node.updateActivation 0.0 (snd e))) m))
    by (apply sub_graph_map; intros n; apply incl_refl).
  destruct concepts as [ids|entries|]; [| |assumption];
    (eapply sub_graph_trans; [exact Hreset|]);
    apply sub_graph_guarded; intros x n; apply incl_refl.
Qed.

Lemma sub_graph_spread (m : JsMap.t ConceptNode) (d : R) :
  sub_graph m (spread_nodes m d).
Proof.
  unfold spread_nodes. apply sub_graph_guarded. intros x n. apply incl_refl.
Qed.

Lemma sub_graph_after_rounds (d : R) (k : nat) (net : ConceptNetwork) :
  sub_graph (nodes net) (nodes (after_rounds d k net)).
Proof.
  revert net. induction k as [|k IH]; intros net; [apply sub_graph_refl|].
  cbn [after_rounds]. apply sub_graph_trans with (nodes (round d net));
    [|apply IH].
  unfold round. rewrite spreadActivation_run. cbn [snd nodes].
  apply sub_graph_spread.
Qed.

Lemma In_remove (V : Type) (m : JsMap.t V) (k : string) (e : string * V) :
  In e (JsMap.remove k m) -> In e m /\ fst e <> k.
Proof.
  unfold JsMap.remove. intros H. apply filter_In in H as [Hin Hne].
  split; [assumption|]. intros E. rewrite E, String.eqb_refl in Hne. discriminate.
Qed.

Lemma In_set (V : Type) (m : JsMap.t V) (k : string) (v : V) (e : string * V) :
  In e (JsMap.set k v m) -> e = (k, v) \/ In e m.
Proof.
  induction m as [|[k0 v0] m IH]; cbn [JsMap.set].
  - intros [<-|[]]. now left.
  - destruct (String.eqb_spec k0 k) as [->|Hne]; intros [H|H].
    + left. now symmetry.
    + right. now right.
    + right. now left.
    + destruct (IH H) as [E|Hin]; [now left | right; now right].
Qed.

Lemma removeConnection_incl (x : string) (n : ConceptNode) :
  incl (connections (snd (Node.removeConnection x n))) (connections n).
Proof.
  unfold Node.removeConnection, JsMap.delete. cbn [snd Node.with_connections
    connections].
  intros e He. now apply In_remove in He.
Qed.

Lemma sub_graph_removeConnection (source target : string)
    (bidirectional : option bool) (net : ConceptNetwork) :
  sub_graph (nodes net)
    (nodes (snd (Net.removeConnection source target bidirectional net))).
Proof.
  rewrite removeConnection_run. cbv zeta. cbn [snd with_nodes nodes].
  set (m1 := if JsMap.has source (nodes net) then _ else _).
  assert (H1 : sub_graph (nodes net) m1).
  { unfold m1. destruct (JsMap.has source (nodes net)); [|apply sub_graph_refl].
    apply sub_graph_update. intros n. apply removeConnection_incl. }
  destruct (_ && _); [|assumption].
  apply sub_graph_trans with m1; [assumption|].
  apply sub_graph_update. intros n. apply removeConnection_incl.
Qed.

Lemma graph_ok_addConcept (uuid l : string) (c i : option string)
    (net : ConceptNetwork) :
  graph_ok (nodes net) -> graph_ok (nodes (snd (Net.addConcept uuid l c i net))).
Proof.
  intros Hok. rewrite addConcept_run. cbv zeta.
  destruct (JsMap.has (chosen_id uuid i) (nodes net)); cbn [snd]; [assumption|].
  cbn [with_nodes nodes]. intros k n t w Hin Hedge.
  apply in_app_or in Hin as [Hin|[Heq|[]]].
  - destruct (Hok k n t w Hin Hedge) as [Hhas Hw]. split; [|assumption].
    apply has_get in Hhas as [v Hv]. apply has_get. exists v.
    now rewrite get_app, Hv.
  - injection Heq as <- <-. destruct Hedge.
Qed.

Lemma graph_ok_removeConcept (x : string) (net : ConceptNetwork) :
  graph_ok (nodes net) -> graph_ok (nodes (snd (Net.removeConcept x net))).
Proof.
  intros Hok. rewrite removeConcept_run.
  destruct (JsMap.has x (nodes net)); cbn [snd]; [|assumption].
  cbn [with_nodes nodes]. intros k n' t w Hin Hedge.
  apply In_remove in Hin as [Hin Hk]. cbn [fst] in Hk.
  apply in_map_iff in Hin as [[k0 n0] [Heq Hin]]. cbn [fst snd] in Heq.
  injection Heq as <- <-.
  unfold Node.removeConnection, JsMap.delete in Hedge.
  cbn [snd Node.with_connections connections] in Hedge.
  apply In_remove in Hedge as [Hedge Ht]. cbn [fst] in Ht.
  destruct (Hok k0 n0 t w Hin Hedge) as [Hhas Hw]. split; [|assumption].
  apply has_In_keys. rewrite keys_remove.
  rewrite (keys_map_values (fun n => snd (Node.removeConnection x n))).
  apply filter_In. split; [now apply has_In_keys|].
  destruct (String.eqb_spec t x); [contradiction | reflexivity].
Qed.

Lemma graph_ok_addConnection (source target : string) (weight : option R)
    (bidirectional : option bool) (net : ConceptNetwork) :
  graph_ok (nodes net) ->
  graph_ok (nodes (snd (Net.addConnection source target weight bidirectional net))).
Proof.
  intros Hok. rewrite addConnection_run. cbv zeta.
  destruct (JsMap.get source (nodes net)) as [ns|] eqn:Hs; [|assumption].
  destruct (JsMap.get target (nodes net)) as [nt|] eqn:Ht; [|assumption].
  cbn [snd with_nodes nodes].
  set (w := Net.safeWeight _).
  assert (Hw : 0 <= w <= 1) by apply safeWeight_clamps.
  assert (Hstep : forall m a b,
            graph_ok m -> JsMap.has b m = true ->
            graph_ok (JsMap.update a (Node.addConnection b w) m)).
  { intros m a b Hm Hb k n' t w' Hin Hedge.
    rewrite (has_keys_eq _ _ t (keys_update m a _)).
    apply In_update in Hin as [Hin|[-> [n [Hin ->]]]]; [now apply (Hm k n')|].
    unfold Node.addConnection in Hedge.
    cbn [Node.with_connections connections] in Hedge.
    apply In_set in Hedge as [Heq|Hedge].
    - injection Heq as -> ->. auto.
    - now apply (Hm a n). }
  assert (Hsm : JsMap.has source (nodes net) = true) by (apply has_get; eauto).
  assert (Htm : JsMap.has target (nodes net) = true) by (apply has_get; eauto).
  destruct (match bidirectional with Some b => b | None => true end).
  - apply Hstep; [now apply Hstep|].
    now rewrite (has_keys_eq _ _ source (keys_update (nodes net) source _)).
  - now apply Hstep.
Qed.

Lemma run_loop_after_rounds (options : Net.Options) (net : ConceptNetwork) :
  let cfg := Net.config options (params net) in
  exists k : nat,
    Net.runUntilConvergence options net
    = (Return {| Net.converged :=
                   Js.Delta_leb (delta_after (Net.cfg_decayRate cfg) net k Js.Infinity)
                                (Net.cfg_convergenceThreshold cfg);
                 Net.iterations := Z.of_nat k;
                 Net.finalDelta :=
                   delta_after (Net.cfg_decayRate cfg) net k Js.Infinity |},
       after_rounds (Net.cfg_decayRate cfg) k net) /\
    (Z.of_nat k <= Z.max 0 (Net.cfg_maxIterations cfg))%Z /\
    ((Net.cfg_maxIterations cfg <= Z.of_nat k)%Z \/
     Js.Delta_gtb (delta_after (Net.cfg_decayRate cfg) net k Js.Infinity)
                  (Net.cfg_convergenceThreshold cfg) = false) /\
    ((0 < Net.cfg_maxIterations cfg)%Z -> (0 < k)%nat) /\
    (forall i, (S i < k)%nat ->
       round_delta (Net.cfg_decayRate cfg) (after_rounds (Net.cfg_decayRate cfg) i net)
       > Net.cfg_convergenceThreshold cfg).
Proof.
  intros cfg.
  destruct (run_loop_rounds cfg (Z.to_nat (Net.cfg_maxIterations cfg)) 0%Z
              Js.Infinity net) as (k & _ & Hrun & Hbefore & Hstop & Hmax & Hsome & _);
    [lia|].
  exists k.
  split; [|split; [lia | split; [exact Hstop | split; [|exact Hbefore]]]].
  2:{ intros Hpos. now apply Hsome. }
  unfold Net.runUntilConvergence. unfold bind at 1. unfold this at 1.
  fold cfg. unfold bind. rewrite Hrun. reflexivity.
Qed.

Lemma identifyEmergentPatterns_frame (uuid : nat -> string) (threshold : option R)
    (net : ConceptNetwork) :
  snd (Net.identifyEmergentPatterns uuid threshold net) = net.
Proof.
  unfold Net.identifyEmergentPatterns. run_M.
  now destruct (Net.collect _ _ _ _ _ _).
Qed.

Lemma generateSummary_frame (uuid : nat -> string) (net : ConceptNetwork) :
  snd (Net.generateSummary uuid net) = net.
Proof.
  unfold Net.generateSummary, bind.
  assert (Htop : snd (Net.getTopActivatedConcepts (Some 5%Z) None net) = net)
    by reflexivity.
  destruct (Net.getTopActivatedConcepts (Some 5%Z) None net) as [[top|e] s1];
    cbn [snd] in Htop; subst s1; [|reflexivity].
  pose proof (identifyEmergentPatterns_frame uuid None net) as H.
  destruct (Net.identifyEmergentPatterns uuid None net) as [[pats|e] s2];
    cbn [snd] in H; subst s2; reflexivity.
Qed.

Lemma graph_ok_call (c : Call) (net : ConceptNetwork) :
  graph_ok (nodes net) -> graph_ok (nodes (after_call c net)).
Proof.
  intros Hok. destruct c; cbn [after_call].
  - now apply graph_ok_addConcept.
  - now apply graph_ok_removeConcept.
  - now apply graph_ok_addConnection.
  - apply (graph_ok_sub_graph Hok). apply sub_graph_removeConnection.
  - exact Hok.
  - rewrite setInitialActivation_run. cbn [snd nodes].
    apply (graph_ok_sub_graph Hok). apply sub_graph_seeded.
  - rewrite spreadActivation_run. cbn [snd nodes].
    apply (graph_ok_sub_graph Hok). apply sub_graph_spread.
  - destruct (run_loop_after_rounds options net) as (k & Hrun & _).
    rewrite Hrun. cbn [snd].
    apply (graph_ok_sub_graph Hok). apply sub_graph_after_rounds.
  - exact Hok.
  - now rewrite identifyEmergentPatterns_frame.
  - exact Hok.
  - now rewrite generateSummary_frame.
Qed.

Lemma reachable_graph_ok (net : ConceptNetwork) :
  reachable net -> graph_ok (nodes net).
Proof.
  induction 1 as [|c net Hnet IH]; [intros ? ? ? ? []|].
  now apply graph_ok_call.
Qed.

Lemma reachable_w_to_u : reachable w_to_u.
Proof.
  change w_to_u with
    (after_call (SetInitialActivation (Net.IdArray ["w"; "u"]) (Some 1))
       (after_call (AddConnection "w" "u" (Some 1) (Some false))
          (after_call (AddConcept "" "u" None (Some "u"))
             (after_call (AddConcept "" "w" None (Some "w")) Net.new)))).
  repeat apply reachable_call. apply reachable_new.
Qed.

(** X5.  In every network that calls of the public methods build from the
    constructor's network, every edge ends at a node of the graph, stored
    under the edge's target id: no call leaves a dangling edge. *)
Theorem reachable_edges_closed (net : ConceptNetwork) :
  reachable net ->
  forall k n t w,
    JsMap.get k (nodes net) = Some n -> JsMap.get t (connections n) = Some w ->
    exists target, JsMap.get t (nodes net) = Some target /\ id target = t.
Proof.
  intros Hnet k n t w Hk Ht.
  destruct (reachable_graph_ok Hnet k n t w) as [Hhas _];
    [now apply get_In | now apply get_In |].
  apply has_get in Hhas as [target Htarget]. exists target.
  split; [assumption|].
  destruct (reachable_wf Hnet) as [_ Hid]. apply Hid. now apply get_In.
Qed.

Lemma reachable_edges_closed_witness :
  exists n w,
    JsMap.get "w" (nodes w_to_u) = Some n /\
    JsMap.get "u" (connections n) = Some w /\
    exists target, JsMap.get "u" (nodes w_to_u) = Some target /\ id target = "u".
Proof.
  assert (H : exists n w, JsMap.get "w" (nodes w_to_u) = Some n /\
                          JsMap.get "u" (connections n) = Some w)
    by (do 2 eexists; js_compute; split; reflexivity).
  destruct H as (n & w & Hn & Hw). exists n, w.
  split; [assumption|]. split; [assumption|].
  apply (reachable_edges_closed reachable_w_to_u "w" "u" Hn Hw).
Defined.

Lemma addConnection_removeConnection_round_trip_witness :
  exists net1,
    Net.addConnection "c1" "c2" (Some 0.3) (Some true) c1_then_c2
    = (Return tt, net1) /\
    Net.removeConnection "c1" "c2" (Some true) net1 = (Return true, c1_then_c2).
Proof.
  assert (H1 : exists n, JsMap.get "c1" (nodes c1_then_c2) = Some n /\
                         JsMap.has "c2" (connections n) = false)
    by (eexists; js_compute; split; reflexivity).
  assert (H2 : exists n, JsMap.get "c2" (nodes c1_then_c2) = Some n /\
                         JsMap.has "c1" (connections n) = false)
    by (eexists; js_compute; split; reflexivity).
  destruct H1 as (n1 & Hn1 & He1), H2 as (n2 & Hn2 & He2).
  apply (@addConnection_removeConnection_round_trip "c1" "c2" (Some 0.3) true
           c1_then_c2 n1 n2 Hn1 Hn2 He1 (fun _ => He2)).
Defined.

(** X4.  Removing a concept that was just added restores the network.  On a
    network built by the public methods, [addConcept] with an id that is
    not in the graph followed by [removeConcept] of that id returns [true]
    and leaves exactly the network of before the two calls: no other node
    can hold an edge to the id, so the cascade of [removeConcept] changes
    nothing else. *)
Theorem addConcept_removeConcept_round_trip (uuid l : string) (c : option string)
    (x : string) (net : ConceptNetwork) :
  reachable net -> x <> "" -> JsMap.has x (nodes net) = false ->
  exists net1,
    Net.addConcept uuid l c (Some x) net = (Return x, net1) /\
    Net.removeConcept x net1 = (Return true, net).
Proof.
  intros Hnet Hx Hfresh.
  pose proof (addConcept_run uuid l c (Some x) net) as Hadd. cbv zeta in Hadd.
  assert (Hid : chosen_id uuid (Some x) = x).
  { unfold chosen_id. destruct (String.eqb_spec x ""); [contradiction | reflexivity]. }
  rewrite Hid, Hfresh in Hadd.
  eexists. split; [exact Hadd|].
  rewrite removeConcept_run. cbn [with_nodes nodes].
  assert (Hthere : JsMap.has x (nodes net ++ [(x, Node.new x l c)]) = true).
  { apply has_get. exists (Node.new x l c). apply has_false_get in Hfresh.
    rewrite get_app, Hfresh. cbn [JsMap.get]. now rewrite String.eqb_refl. }
  rewrite Hthere. f_equal.
  cbn [activationHistory iterationCount params].
  assert (Hmap : map (fun e : string * ConceptNode =>
                        (fst e, snd (Node.removeConnection x (snd e))))
                     (nodes net ++ [(x, Node.new x l c)])
                 = nodes net ++ [(x, Node.new x l c)]).
  { rewrite <- (map_id (nodes net ++ [(x, Node.new x l c)])) at 2.
    apply map_ext_in. intros [k n] Hin. cbn [fst snd]. f_equal.
    apply removeConnection_absent.
    apply in_app_or in Hin as [Hin|[Heq|[]]].
    - destruct (JsMap.has x (connections n)) eqn:E; [|reflexivity].
      apply has_get in E as [w Hw]. apply get_In in Hw.
      destruct (reachable_graph_ok Hnet k n x w Hin Hw) as [Hhas _]. congruence.
    - injection Heq as <- <-. reflexivity. }
  rewrite Hmap, remove_app, remove_absent by assumption.
  unfold JsMap.remove. cbn [filter fst]. rewrite String.eqb_refl. cbn [negb].
  rewrite app_nil_r. now destruct net.
Qed.

Lemma addConcept_removeConcept_round_trip_witness :
  exists net1,
    Net.addConcept "" "v" None (Some "v") w_to_u = (Return "v", net1) /\
    Net.removeConcept "v" net1 = (Return true, w_to_u).
Proof.
  apply (@addConcept_removeConcept_round_trip "" "v" None "v" w_to_u
           reachable_w_to_u).
  - discriminate.
  - js_compute. reflexivity.
Defined.

(* ------------------------------------------------------------------ *)
(** ** The history is numbered *)

Lemma history_ok_same (net net' : ConceptNetwork) :
  activationHistory net' = activationHistory net ->
  iterationCount net' = iterationCount net ->
  history_ok net -> history_ok net'.
Proof. unfold history_ok. intros -> ->. auto. Qed.

Lemma history_ok_record (net : ConceptNetwork) (m : JsMap.t ConceptNode)
    (p : Params) :
  history_ok net ->
  history_ok
    {| nodes := m;
       activationHistory :=
         activationHistory net ++
           [{| entry_iteration := iterationCount net;
               entry_activations := Net.snapshot m |}];
       iterationCount := iterationCount net + 1;
       params := p |}.
Proof.
  intros [Hcount Hnth]. split; cbn [activationHistory iterationCount].
  - rewrite length_app. cbn [List.length]. lia.
  - intros i e Hi.
    destruct (Nat.lt_ge_cases i (List.length (activationHistory net))) as [Hlt|Hge].
    + rewrite nth_error_app1 in Hi by assumption. now apply Hnth.
    + rewrite nth_error_app2 in Hi by assumption.
      destruct (i - List.length (activationHistory net))%nat as [|j] eqn:E.
      * cbn [nth_error] in Hi. injection Hi as <-. cbn [entry_iteration]. lia.
      * cbn [nth_error] in Hi. now destruct j.
Qed.

Lemma history_ok_after_rounds (d : R) (k : nat) (net : ConceptNetwork) :
  history_ok net -> history_ok (after_rounds d k net).
Proof.
  revert net. induction k as [|k IH]; intros net Hnet; [assumption|].
  cbn [after_rounds]. apply IH. unfold round. rewrite spreadActivation_run.
  cbn [snd]. now apply history_ok_record.
Qed.

Lemma history_ok_call (c : Call) (net : ConceptNetwork) :
  history_ok net -> history_ok (after_call c net).
Proof.
  intros Hok. destruct c; cbn [after_call].
  - rewrite addConcept_run. cbv zeta.
    destruct (JsMap.has _ _); cbn [snd]; [assumption|].
    now apply history_ok_same with (net := net).
  - rewrite removeConcept_run.
    destruct (JsMap.has _ _); cbn [snd]; [|assumption].
    now apply history_ok_same with (net := net).
  - rewrite addConnection_run. cbv zeta.
    destruct (JsMap.get sourceId _); [|assumption].
    destruct (JsMap.get targetId _); [|assumption].
    now apply history_ok_same with (net := net).
  - rewrite removeConnection_run. cbv zeta. now apply history_ok_same with (net := net).
  - now apply history_ok_same with (net := net).
  - rewrite setInitialActivation_run. cbn [snd]. split.
    + reflexivity.
    + intros [|[|i]] e Hi; cbn [nth_error activationHistory] in Hi;
        try discriminate. now injection Hi as <-.
  - rewrite spreadActivation_run. cbn [snd]. now apply history_ok_record.
  - destruct (run_loop_after_rounds options net) as (k & Hrun & _).
    rewrite Hrun. cbn [snd]. now apply history_ok_after_rounds.
  - exact Hok.
  - now rewrite identifyEmergentPatterns_frame.
  - exact Hok.
  - now rewrite generateSummary_frame.
Qed.

(** X6.  In every network that calls of the public methods build from the
    constructor's network, the iteration counter is the number of history
    entries and the entries are numbered by their position: the entry at
    index [i] has [iteration = i]. *)
Theorem reachable_history_numbered (net : ConceptNetwork) :
  reachable net ->
  iterationCount net = Z.of_nat (List.length (activationHistory net)) /\
  forall i e, nth_error (activationHistory net) i = Some e ->
              entry_iteration e = Z.of_nat i.
Proof.
  induction 1 as [|c net Hnet IH].
  - split; [reflexivity|]. intros [|i] e Hi; discriminate.
  - now apply history_ok_call.
Qed.

Lemma reachable_history_numbered_witness :
  iterationCount w_to_u = Z.of_nat (List.length (activationHistory w_to_u)) /\
  activationHistory w_to_u <> [].
Proof.
  split.
  - apply (reachable_history_numbered reachable_w_to_u).
  - js_compute. discriminate.
Defined.

(* ------------------------------------------------------------------ *)
(** ** Edge cases and bookkeeping of [runUntilConvergence] *)

(** X7.  [runUntilConvergence] with no round to run.  When the effective
    [maxIterations] is not positive (a negative option, or an option that
    is missing or 0 while the parameter is not positive) the loop body is
    never entered: the call returns [converged = false], [iterations = 0]
    and [finalDelta = Infinity], and the network is left as it was. *)
Theorem runUntilConvergence_no_round (options : Net.Options) (net : ConceptNetwork) :
  let idle := (Return {| Net.converged := false; Net.iterations := 0;
                         Net.finalDelta := Js.Infinity |}, net) in
  (forall m, Net.opt_maxIterations options = Some m -> (m < 0)%Z ->
             Net.runUntilConvergence options net = idle) /\
  (Net.opt_maxIterations options = None \/ Net.opt_maxIterations options = Some 0%Z ->
   (maxIterations (params net) <= 0)%Z ->
   Net.runUntilConvergence options net = idle).
Proof.
  intros idle.
  assert (H : (Net.cfg_maxIterations (Net.config options (params net)) <= 0)%Z ->
              Net.runUntilConvergence options net = idle).
  { intros Hmax.
    destruct (run_loop_after_rounds options net) as (k & Hrun & Hk & _).
    cbv zeta in Hk. assert (k = O) by lia. subst k. exact Hrun. }
  split.
  - intros m Hm Hneg. apply H. unfold Net.config. cbn [Net.cfg_maxIterations].
    rewrite Hm. unfold Js.or_Z. destruct (Z.eqb_spec m 0); lia.
  - intros Hopt Hparam. apply H. unfold Net.config. cbn [Net.cfg_maxIterations].
    destruct Hopt as [-> | ->]; exact Hparam.
Qed.

Lemma runUntilConvergence_no_round_witness :
  Net.runUntilConvergence
    {| Net.opt_maxIterations := Some (-1)%Z; Net.opt_convergenceThreshold := None;
       Net.opt_decayRate := None |} seeded_a
  = (Return {| Net.converged := false; Net.iterations := 0;
               Net.finalDelta := Js.Infinity |}, seeded_a).
Proof.
  apply (proj1 (runUntilConvergence_no_round
                  {| Net.opt_maxIterations := Some (-1)%Z;
                     Net.opt_convergenceThreshold := None;
                     Net.opt_decayRate := None |} seeded_a) (-1)%Z eq_refl).
  lia.
Defined.




(** X9.  On a network without nodes a round changes nothing and reports the
    delta 0.  So with a positive effective [maxIterations] and a
    non-negative effective threshold, [runUntilConvergence] on such a
    network runs exactly one round and returns [converged = true],
    [iterations = 1], [finalDelta = 0]; the round is recorded in the
    history with an empty snapshot. *)
Theorem runUntilConvergence_empty_network (options : Net.Options)
    (net : ConceptNetwork) :
  nodes net = [] ->
  (0 < Net.cfg_maxIterations (Net.config options (params net)))%Z ->
  0 <= Net.cfg_convergenceThreshold (Net.config options (params net)) ->
  Net.runUntilConvergence options net
  = (Return {| Net.converged := true; Net.iterations := 1;
               Net.finalDelta := Js.Finite 0 |},
     {| nodes := [];
        activationHistory :=
          activationHistory net ++
            [{| entry_iteration := iterationCount net; entry_activations := [] |}];
        iterationCount := iterationCount net + 1;
        params := params net |}).
Proof.
  intros Hempty Hmax Hthr.
  destruct (run_loop_after_rounds options net)
    as (k & Hrun & Hk & Hstop & Hsome & Hbefore).
  cbv zeta in *. set (cfg := Net.config options (params net)) in *.
  set (d := Net.cfg_decayRate cfg) in *.
  assert (Hdelta : round_delta d net = 0).
  { unfold round_delta. rewrite Hempty. reflexivity. }
  specialize (Hsome Hmax).
  assert (Hk1 : k = 1%nat).
  { destruct k as [|[|k]]; [lia | reflexivity |].
    specialize (Hbefore O ltac:(lia)). cbn [after_rounds] in Hbefore. lra. }
  subst k. rewrite Hrun. cbn [delta_after after_rounds]. rewrite Hdelta.
  f_equal.
  - f_equal. f_equal. cbn [Js.Delta_leb]. apply leb_true. exact Hthr.
  - unfold round. rewrite spreadActivation_run. cbn [snd]. rewrite Hempty.
    reflexivity.
Qed.

Lemma runUntilConvergence_empty_network_witness :
  fst (Net.runUntilConvergence
         {| Net.opt_maxIterations := None; Net.opt_convergenceThreshold := None;
            Net.opt_decayRate := None |} Net.new)
  = Return {| Net.converged := true; Net.iterations := 1;
              Net.finalDelta := Js.Finite 0 |}.
Proof.
  rewrite (@runUntilConvergence_empty_network
             {| Net.opt_maxIterations := None; Net.opt_convergenceThreshold := None;
                Net.opt_decayRate := None |} Net.new eq_refl).
  - reflexivity.
  - reflexivity.
  - unfold Net.config, Js.or_R.
    cbn [Net.opt_convergenceThreshold Net.cfg_convergenceThreshold
         convergenceThreshold params Net.new]. lra.
Defined.

Lemma after_rounds_accounting (d : R) (k : nat) (net : ConceptNetwork) :
  exists added,
    activationHistory (after_rounds d k net) = activationHistory net ++ added /\
    List.length added = k /\
    iterationCount (after_rounds d k net) = (iterationCount net + Z.of_nat k)%Z /\
    params (after_rounds d k net) = params net /\
    JsMap.keys (nodes (after_rounds d k net)) = JsMap.keys (nodes net).
Proof.
  revert net. induction k as [|k IH]; intros net.
  - exists []. cbn [after_rounds List.length]. rewrite app_nil_r.
    repeat split; try reflexivity. lia.
  - cbn [after_rounds]. destruct (IH (round d net)) as (added & Hh & Hl & Hc & Hp & Hk).
    unfold round in *. rewrite spreadActivation_run in *.
    cbn [snd activationHistory iterationCount params nodes] in *.
    eexists (_ :: added). rewrite Hh, <- app_assoc. cbn [app List.length].
    split; [reflexivity|]. split; [now rewrite Hl|]. split; [lia|].
    split; [assumption|]. rewrite Hk. apply sub_graph_spread.
Qed.

(** X10.  The bookkeeping of [runUntilConvergence] when [maxIterations] is
    an integer, in the options (or missing there) and in the parameters.
    For every such options object the call returns; the number [iterations]
    it reports lies between 0 and the effective [maxIterations], and it is
    the number of entries the call appends to the history and the amount by
    which the iteration counter grows.  The earlier history entries, the set
    and order of the nodes and the parameters are kept. *)
Theorem runUntilConvergence_accounting (options : Net.Options)
    (net : ConceptNetwork) :
  exists result net' added,
    Net.runUntilConvergence options net = (Return result, net') /\
    (0 <= Net.iterations result
     <= Z.max 0 (Net.cfg_maxIterations (Net.config options (params net))))%Z /\
    activationHistory net' = activationHistory net ++ added /\
    Z.of_nat (List.length added) = Net.iterations result /\
    iterationCount net' = (iterationCount net + Net.iterations result)%Z /\
    params net' = params net /\
    JsMap.keys (nodes net') = JsMap.keys (nodes net).
Proof.
  destruct (run_loop_after_rounds options net) as (k & Hrun & Hk & _).
  cbv zeta in *.
  destruct (after_rounds_accounting
              (Net.cfg_decayRate (Net.config options (params net))) k net)
    as (added & Hh & Hl & Hc & Hp & Hkeys).
  do 2 eexists. exists added. split; [exact Hrun|].
  cbn [Net.iterations]. repeat split; try assumption; lia.
Qed.

(* ------------------------------------------------------------------ *)
(** ** Parameters and the defaults of later calls *)

(** X11.  [setParameters(patch)] returns and replaces exactly the
    parameters that the patch holds; the other parameters, the nodes, the
    history and the counter are kept.  Later calls take their defaults from
    the merged parameters: [spreadActivation()] runs with the stored decay
    rate, [getTopActivatedConcepts(limit)] and [identifyEmergentPatterns()]
    use the stored activation threshold, and [runUntilConvergence({})] is
    configured by the stored values.  A stored decay rate is also what
    [runUntilConvergence] uses when its option [decayRate] is 0: a round of
    the loop has decay rate 0 exactly when 0 is stored and the option is
    missing or 0. *)
Theorem setParameters_merges (p : Net.ParamsPatch) (net : ConceptNetwork) :
  exists net',
    Net.setParameters p net = (Return tt, net') /\
    nodes net' = nodes net /\
    activationHistory net' = activationHistory net /\
    iterationCount net' = iterationCount net /\
    activationThreshold (params net')
    = match Net.patch_activationThreshold p with
      | Some v => v
      | None => activationThreshold (params net)
      end /\
    decayRate (params net')
    = match Net.patch_decayRate p with
      | Some v => v
      | None => decayRate (params net)
      end /\
    maxIterations (params net')
    = match Net.patch_maxIterations p with
      | Some v => v
      | None => maxIterations (params net)
      end /\
    convergenceThreshold (params net')
    = match Net.patch_convergenceThreshold p with
      | Some v => v
      | None => convergenceThreshold (params net)
      end /\
    Net.spreadActivation None net'
    = Net.spreadActivation (Some (decayRate (params net'))) net' /\
    (forall limit,
       Net.getTopActivatedConcepts limit None net'
       = Net.getTopActivatedConcepts limit
           (Some (activationThreshold (params net'))) net') /\
    (forall uuid,
       Net.identifyEmergentPatterns uuid None net'
       = Net.identifyEmergentPatterns uuid
           (Some (activationThreshold (params net'))) net') /\
    Net.config {| Net.opt_maxIterations := None;
                  Net.opt_convergenceThreshold := None;
                  Net.opt_decayRate := None |} (params net')
    = {| Net.cfg_maxIterations := maxIterations (params net');
         Net.cfg_convergenceThreshold := convergenceThreshold (params net');
         Net.cfg_decayRate := decayRate (params net') |} /\
    (forall options,
       Net.cfg_decayRate (Net.config options (params net')) = 0 <->
       decayRate (params net') = 0 /\
       (Net.opt_decayRate options = None \/ Net.opt_decayRate options = Some 0)).
Proof.
  eexists. split; [reflexivity|]. cbn [nodes activationHistory iterationCount params
    activationThreshold decayRate maxIterations convergenceThreshold].
  unfold Net.spread_over.
  repeat (split; [reflexivity|]).
  intros options. unfold Net.config, Js.or_R. cbn [Net.cfg_decayRate].
  destruct (Net.opt_decayRate options) as [v|].
  - destruct (Req_dec_T v 0) as [->|Hv]; split.
    + intros H. split; [assumption | now right].
    + now intros [H _].
    + intros H. contradiction.
    + intros [_ [H|H]]; [discriminate | congruence].
  - split; [intros H; split; [assumption | now left] | now intros [H _]].
Qed.

(* ------------------------------------------------------------------ *)
(** ** How many concepts [getTopActivatedConcepts] returns *)

Lemma In_slice0 (A : Type) (limit : Z) (l : list A) (x : A) :
  In x (Js.slice0 limit l) -> In x l.
Proof.
  unfold Js.slice0. intros H.
  rewrite <- (firstn_skipn
                (Z.to_nat (if (limit <? 0)%Z
                           then Z.max (Z.of_nat (List.length l) + limit) 0
                           else Z.min limit (Z.of_nat (List.length l)))) l).
  apply in_or_app. now left.
Qed.

Lemma slice0_length (A : Type) (limit : Z) (l : list A) :
  ((0 <= limit)%Z ->
   List.length (Js.slice0 limit l) = Nat.min (Z.to_nat limit) (List.length l)) /\
  ((limit < 0)%Z ->
   List.length (Js.slice0 limit l) = (List.length l - Z.to_nat (- limit))%nat).
Proof.
  unfold Js.slice0. split; intros H.
  - destruct (Z.ltb_spec limit 0); [lia|]. rewrite length_firstn. lia.
  - destruct (Z.ltb_spec limit 0); [|lia]. rewrite length_firstn. lia.
Qed.

(** X12.  The number of records [getTopActivatedConcepts(limit, threshold)]
    returns, where [eligible] is the number of nodes whose activation is at
    least the threshold: for a limit that is not negative it is the smaller
    of [limit] and [eligible] (none for [limit = 0]); for a negative limit
    [-k] it is [eligible - k], or none if there are not that many: the call
    then drops the [k] last records of the ranking instead of returning
    nothing.  Every record returned has an activation of at least the
    threshold. *)
Theorem getTopActivatedConcepts_length (limit : option Z) (threshold : option R)
    (net : ConceptNetwork) :
  let lim := match limit with Some l => l | None => 10%Z end in
  let actualThreshold :=
    match threshold with
    | Some t => t
    | None => activationThreshold (params net)
    end in
  let eligible :=
    List.length (filter (fun node => Js.geb (activation node) actualThreshold)
                        (JsMap.values (nodes net))) in
  exists top,
    Net.getTopActivatedConcepts limit threshold net = (Return top, net) /\
    ((0 <= lim)%Z -> List.length top = Nat.min (Z.to_nat lim) eligible) /\
    ((lim < 0)%Z -> List.length top = (eligible - Z.to_nat (- lim))%nat) /\
    (forall c, In c top -> info_activation c >= actualThreshold).
Proof.
  intros lim actualThreshold eligible.
  eexists. split; [reflexivity|]. fold lim. fold actualThreshold.
  set (active := filter _ _) in *.
  set (ranked := Js.sort _ active).
  assert (Hperm : Permutation ranked active)
    by apply (sort_permutation activation).
  assert (Hlen : List.length ranked = eligible)
    by (unfold eligible; now apply Permutation_length).
  destruct (slice0_length lim ranked) as [Hpos Hneg].
  rewrite length_map, Hlen in *.
  split; [exact Hpos|]. split; [exact Hneg|].
  intros c Hc. apply in_map_iff in Hc as [node [<- Hnode]].
  cbn [Net.info_of info_activation].
  assert (Hin : In node ranked) by (now apply In_slice0 in Hnode).
  apply (Permutation_in _ Hperm) in Hin. unfold active in Hin.
  apply filter_In in Hin as [_ Hge]. now apply geb_true.
Qed.

(* ------------------------------------------------------------------ *)
(** ** The patterns lie above the threshold *)

(** X13.  On a network, [identifyEmergentPatterns] returns patterns that
    are never empty and whose members all have an activation of at least
    the threshold. *)
Theorem identifyEmergentPatterns_above_threshold (uuid : nat -> string)
    (threshold : option R) (net : ConceptNetwork) :
  wf_net net ->
  let actualThreshold :=
    match threshold with Some t => t | None => activationThreshold (params net) end in
  exists patterns,
    Net.identifyEmergentPatterns uuid threshold net = (Return patterns, net) /\
    forall p, In p patterns ->
      Net.concepts p <> [] /\
      forall c, In c (Net.concepts p) -> info_activation c >= actualThreshold.
Proof.
  intros Hnet actualThreshold.
  destruct (identifyEmergentPatterns_returns uuid threshold Hnet)
    as (found & Hfound & _ & Hrun).
  fold actualThreshold in Hfound.
  eexists. split; [exact Hrun|].
  intros p Hp.
  apply (Permutation_in _ (sort_permutation Net.averageActivation found)) in Hp.
  destruct (discovered_pattern Hfound p Hp)
    as (Hdesc & (s & others & Hids & _) & _).
  split.
  - intros E. unfold pattern_ids, ids in Hids. rewrite E in Hids. discriminate.
  - intros c Hc. rewrite Forall_forall in Hdesc.
    destruct (Hdesc c Hc) as [Hact (node & Hget & ->)].
    cbn [node_info info_activation].
    unfold active, Net.is_active in Hact. cbn [node_info info_id] in Hact, Hget.
    rewrite Hget in Hact. now apply geb_true.
Qed.

Lemma identifyEmergentPatterns_above_threshold_witness :
  exists patterns,
    Net.identifyEmergentPatterns (fun _ => "") (Some 0.5) ab_and_c
    = (Return patterns, ab_and_c) /\
    forall p, In p patterns ->
      Net.concepts p <> [] /\
      forall c, In c (Net.concepts p) -> info_activation c >= 0.5.
Proof.
  destruct (identifyEmergentPatterns_above_threshold (fun _ => "") (Some 0.5)
              wf_ab_and_c) as (patterns & Hrun & Hall).
  exists patterns. split; [exact Hrun|].
  intros p Hp. apply (Hall p Hp).
Defined.

(* ------------------------------------------------------------------ *)
(** ** The summary *)

(** X14.  On a network, [generateSummary] returns (no search of its
    pattern detection fails) and writes nothing.  Its [iterationCount] is
    the network's counter, its top concepts are those of
    [getTopActivatedConcepts(5)], at most five, its patterns are those of
    [identifyEmergentPatterns()], and its [networkSize] counts the nodes of
    the graph. *)
Theorem generateSummary_returns (uuid : nat -> string) (net : ConceptNetwork) :
  wf_net net ->
  exists summary,
    Net.generateSummary uuid net = (Return summary, net) /\
    Net.sum_iterationCount summary = iterationCount net /\
    Net.getTopActivatedConcepts (Some 5%Z) None net
    = (Return (Net.topActivatedConcepts summary), net) /\
    (List.length (Net.topActivatedConcepts summary) <= 5)%nat /\
    Net.identifyEmergentPatterns uuid None net
    = (Return (Net.emergentPatterns summary), net) /\
    Net.conceptCount (Net.networkSize summary) = List.length (nodes net).
Proof.
  intros Hnet.
  destruct (identifyEmergentPatterns_returns uuid None Hnet)
    as (found & _ & _ & Hrun).
  assert (Htop : exists top,
            Net.getTopActivatedConcepts (Some 5%Z) None net = (Return top, net) /\
            (List.length top <= 5)%nat).
  { eexists. split; [reflexivity|]. rewrite length_map.
    match goal with |- (List.length (Js.slice0 _ ?l) <= _)%nat =>
      destruct (slice0_length 5 l) as [Hlen _] end.
    rewrite Hlen by lia. lia. }
  destruct Htop as (top & Htop & Hfive).
  unfold Net.generateSummary, bind. rewrite Htop, Hrun.
  eexists. split; [reflexivity|].
  cbn [Net.sum_iterationCount Net.topActivatedConcepts Net.emergentPatterns
       Net.networkSize Net.conceptCount].
  repeat split. exact Hfive.
Qed.

Lemma generateSummary_returns_witness :
  exists summary,
    Net.generateSummary (fun _ => "") ab_and_c = (Return summary, ab_and_c) /\
    (List.length (Net.topActivatedConcepts summary) <= 5)%nat.
Proof.
  destruct (generateSummary_returns (fun _ => "") wf_ab_and_c)
    as (summary & Hrun & _ & _ & Hfive & _).
  exists summary. split; assumption.
Defined.

(* ------------------------------------------------------------------ *)
(** ** The floor of a round *)

Lemma sigmoid_half (x : R) : 0 <= x -> 1 / 2 <= Net.sigmoid x.
Proof.
  intros Hx. unfold Net.sigmoid.
  pose proof (exp_pos (- x)) as Hpos.
  assert (Hle : exp (- x) <= 1).
  { destruct (Req_dec x 0) as [->|Hne].
    - rewrite Ropp_0, exp_0. lra.
    - rewrite <- exp_0. left. apply exp_increasing. lra. }
  unfold Rdiv. rewrite !Rmult_1_l.
  apply Rinv_le_contravar; lra.
Qed.

Lemma outgoing_sum_nonneg (m : JsMap.t ConceptNode) (node : ConceptNode) :
  (forall k n, In (k, n) m -> 0 <= activation n) ->
  (forall t w, In (t, w) (connections node) -> 0 <= w) ->
  0 <= outgoing_sum m node.
Proof.
  intros Hact Hw. unfold outgoing_sum.
  induction (connections node) as [|[t w] edges IH]; cbn [fold_right]; [lra|].
  assert (Hrest : 0 <= fold_right
            (fun (e : string * R) rest =>
               match JsMap.get (fst e) m with
               | Some target => activation target * snd e + rest
               | None => rest
               end) 0 edges)
    by (apply IH; intros t' w' H; apply (Hw t' w'); now right).
  cbn [fst snd]. destruct (JsMap.get t m) as [target|] eqn:E; [|assumption].
  assert (0 <= activation target) by (apply (Hact t), get_In, E).
  assert (0 <= w) by (apply (Hw t); now left).
  assert (0 <= activation target * w) by now apply Rmult_le_pos.
  lra.
Qed.

(** X16.  A round never leaves a node below 1/2 when nothing is negative:
    on a network whose activations and edge weights are all at least 0,
    [spreadActivation(d)] with a decay rate [d <= 1] gives every node an
    activation of at least 1/2.  A node of activation 0 without edges ends
    at exactly 1/2. *)
Theorem spreadActivation_floor_one_half (net : ConceptNetwork) (d : R) :
  wf_net net ->
  (forall k n, In (k, n) (nodes net) ->
     0 <= activation n /\ forall t w, In (t, w) (connections n) -> 0 <= w) ->
  d <= 1 ->
  forall k n, In (k, n) (nodes net) ->
    exists n',
      JsMap.get k (nodes (snd (Net.spreadActivation (Some d) net))) = Some n' /\
      1 / 2 <= activation n' /\
      (activation n = 0 -> connections n = [] -> activation n' = 1 / 2).
Proof.
  intros [Hwf Hid] Hpos Hd k n Hin.
  rewrite spreadActivation_run. cbn [snd nodes].
  rewrite spread_nodes_wf by assumption.
  rewrite get_map_values, (wf_In_get _ _ Hwf Hin). cbn [option_map].
  eexists. split; [reflexivity|].
  unfold round_update, next_activation. cbn [activation Node.updateActivation].
  rewrite incomingActivation_sum.
  destruct (Hpos k n Hin) as [Ha Hw].
  split.
  - apply sigmoid_half.
    assert (0 <= outgoing_sum (nodes net) n).
    { apply outgoing_sum_nonneg; [|assumption].
      intros k0 n0 H0. now apply (Hpos k0 n0). }
    assert (0 <= activation n * (1 - d)) by (apply Rmult_le_pos; lra).
    lra.
  - intros Hzero Hnone. unfold outgoing_sum. rewrite Hzero, Hnone.
    cbn [fold_right]. unfold Net.sigmoid.
    replace (- (0 * (1 - d) + 0)) with 0 by lra. rewrite exp_0. lra.
Qed.

Lemma spreadActivation_floor_one_half_witness :
  exists n',
    JsMap.get "c1" (nodes (snd (Net.spreadActivation (Some 0.1) c1_then_c2)))
    = Some n' /\
    1 / 2 <= activation n'.
Proof.
  assert (Hnodes : exists n1 n2,
            nodes c1_then_c2 = [("c1", n1); ("c2", n2)] /\
            activation n1 = 1 /\ activation n2 = 1 /\
            connections n1 = [] /\ connections n2 = []).
  { do 2 eexists. split; [js_compute; reflexivity|].
    cbn [activation connections]. repeat split; lra. }
  destruct Hnodes as (n1 & n2 & Hnodes & Ha1 & Ha2 & Hc1 & Hc2).
  assert (Hpos : forall k n, In (k, n) (nodes c1_then_c2) ->
            0 <= activation n /\ forall t w, In (t, w) (connections n) -> 0 <= w).
  { intros k n Hin. rewrite Hnodes in Hin.
    destruct Hin as [Heq|[Heq|[]]]; injection Heq as <- <-.
    - rewrite Ha1, Hc1. split; [lra | intros ? ? []].
    - rewrite Ha2, Hc2. split; [lra | intros ? ? []]. }
  assert (Hd : 0.1 <= 1) by lra.
  assert (Hin : In ("c1", n1) (nodes c1_then_c2))
    by (rewrite Hnodes; now left).
  destruct (@spreadActivation_floor_one_half c1_then_c2 0.1 wf_c1_then_c2 Hpos Hd
              "c1" n1 Hin) as (n' & Hget & Hhalf & _).
  exists n'. split; assumption.
Defined.

(* ------------------------------------------------------------------ *)
(** ** [getNetworkSize] counts directed edges *)

Lemma fold_sizes_shift (l : list ConceptNode) (a : nat) :
  fold_left (fun sum node => (sum + JsMap.size (connections node))%nat) l a
  = (a + fold_left (fun sum node => (sum + JsMap.size (connections node))%nat) l 0)%nat.
Proof.
  revert a. induction l as [|n l IH]; intros a; cbn [fold_left]; [lia|].
  rewrite IH, (IH (0 + _)%nat). lia.
Qed.

Lemma connectionCount_update (m : JsMap.t ConceptNode) (k : string)
    (f : ConceptNode -> ConceptNode) (n : ConceptNode) :
  JsMap.get k m = Some n ->
  (fold_left (fun sum node => (sum + JsMap.size (connections node))%nat)
             (JsMap.values (JsMap.update k f m)) 0
   + JsMap.size (connections n)
   = fold_left (fun sum node => (sum + JsMap.size (connections node))%nat)
               (JsMap.values m) 0
     + JsMap.size (connections (f n)))%nat.
Proof.
  unfold JsMap.values.
  induction m as [|[k0 n0] m IH]; cbn [JsMap.get JsMap.update]; [discriminate|].
  destruct (String.eqb k0 k); intros Hget; cbn [map snd fold_left].
  - injection Hget as ->.
    rewrite fold_sizes_shift, (fold_sizes_shift _ (0 + _)%nat). lia.
  - specialize (IH Hget).
    rewrite fold_sizes_shift, (fold_sizes_shift _ (0 + _)%nat). lia.
Qed.

Lemma size_set (V : Type) (m : JsMap.t V) (k : string) (v : V) :
  JsMap.size (JsMap.set k v m)
  = if JsMap.has k m then JsMap.size m else S (JsMap.size m).
Proof.
  unfold JsMap.size, JsMap.has.
  induction m as [|[k0 v0] m IH]; cbn [JsMap.set JsMap.get List.length];
    [reflexivity|].
  destruct (String.eqb k0 k); cbn [List.length]; [reflexivity|].
  rewrite IH. now destruct (JsMap.get k m).
Qed.

Lemma size_addConnection (t : string) (w : R) (n : ConceptNode) :
  JsMap.size (connections (Node.addConnection t w n))
  = if JsMap.has t (connections n)
    then JsMap.size (connections n)
    else S (JsMap.size (connections n)).
Proof.
  unfold Node.addConnection. cbn [Node.with_connections connections].
  apply size_set.
Qed.

(** X17.  [getNetworkSize] counts nodes and directed edges.  After
    [addConnection(source, target, weight, bidirectional)] between two
    nodes of the graph, [conceptCount] is unchanged and [connectionCount]
    has grown by one for the edge source->target if there was none, and,
    for a bidirectional connection between two different nodes, by one more
    for the edge target->source if there was none; overwriting the weight
    of an edge does not change the count. *)
Theorem getNetworkSize_counts_directed_edges
    (source target : string) (weight : option R) (bidirectional : bool)
    (net : ConceptNetwork) (ns nt : ConceptNode) :
  JsMap.get source (nodes net) = Some ns ->
  JsMap.get target (nodes net) = Some nt ->
  exists size net' size',
    Net.getNetworkSize net = (Return size, net) /\
    Net.addConnection source target weight (Some bidirectional) net
    = (Return tt, net') /\
    Net.getNetworkSize net' = (Return size', net') /\
    Net.conceptCount size' = Net.conceptCount size /\
    Net.connectionCount size'
    = (Net.connectionCount size
       + (if JsMap.has target (connections ns) then 0 else 1)
       + (if bidirectional && negb (String.eqb source target)
             && negb (JsMap.has source (connections nt))
          then 1 else 0))%nat.
Proof.
  intros Hs Ht.
  pose proof (addConnection_run source target weight (Some bidirectional) net)
    as Hadd.
  cbv zeta in Hadd. rewrite Hs, Ht in Hadd.
  set (w := Net.safeWeight _) in Hadd.
  do 3 eexists. split; [reflexivity|]. split; [exact Hadd|].
  split; [reflexivity|].
  cbn [Net.conceptCount Net.connectionCount with_nodes nodes].
  set (m1 := JsMap.update source (Node.addConnection target w) (nodes net)).
  pose proof (connectionCount_update (nodes net) source
                (Node.addConnection target w) Hs) as H1.
  fold m1 in H1.
  rewrite size_addConnection in H1.
  destruct bidirectional; cbn [andb].
  - split; [unfold m1; now rewrite !size_update|].
    destruct (String.eqb_spec source target) as [E|Hne]; cbn [negb andb].
    + subst target. rewrite Hs in Ht. injection Ht as <-.
      assert (Hs1 : JsMap.get source m1
                    = Some (Node.addConnection source w ns))
        by (unfold m1; now rewrite get_update_eq, Hs).
      pose proof (connectionCount_update m1 source
                    (Node.addConnection source w) Hs1) as H2.
      rewrite (size_addConnection source w (Node.addConnection source w ns)) in H2.
      rewrite size_addConnection in H2.
      assert (Hthere : JsMap.has source
                         (connections (Node.addConnection source w ns)) = true).
      { apply has_get. exists w. unfold Node.addConnection.
        cbn [Node.with_connections connections]. apply get_set_eq. }
      rewrite Hthere in H2.
      destruct (JsMap.has source (connections ns)); lia.
    + assert (Ht1 : JsMap.get target m1 = Some nt)
        by (unfold m1; rewrite get_update_neq by congruence; exact Ht).
      pose proof (connectionCount_update m1 target
                    (Node.addConnection source w) Ht1) as H2.
      rewrite size_addConnection in H2.
      destruct (JsMap.has target (connections ns)),
               (JsMap.has source (connections nt)); cbn [negb]; lia.
  - split; [unfold m1; now rewrite size_update|].
    destruct (JsMap.has target (connections ns)); lia.
Qed.

Lemma getNetworkSize_counts_directed_edges_witness :
  exists size net' size',
    Net.getNetworkSize c1_then_c2 = (Return size, c1_then_c2) /\
    Net.addConnection "c1" "c2" None (Some true) c1_then_c2 = (Return tt, net') /\
    Net.getNetworkSize net' = (Return size', net') /\
    Net.connectionCount size' = (Net.connectionCount size + 2)%nat.
Proof.
  assert (H1 : exists n, JsMap.get "c1" (nodes c1_then_c2) = Some n /\
                         JsMap.has "c2" (connections n) = false)
    by (eexists; js_compute; split; reflexivity).
  assert (H2 : exists n, JsMap.get "c2" (nodes c1_then_c2) = Some n /\
                         JsMap.has "c1" (connections n) = false)
    by (eexists; js_compute; split; reflexivity).
  destruct H1 as (n1 & Hn1 & He1), H2 as (n2 & Hn2 & He2).
  destruct (@getNetworkSize_counts_directed_edges "c1" "c2" None true c1_then_c2
              n1 n2 Hn1 Hn2) as (size & net' & size' & Hsize & Hadd & Hsize' & _ & Hcount).
  exists size, net', size'. repeat split; try assumption.
  rewrite Hcount, He1, He2. cbn. lia.
Defined.

(* ================================================================== *)
(** * Properties of the session manager *)

Lemma wf_filter (V : Type) (p : string * V -> bool) (m : JsMap.t V) :
  JsMap.wf m -> JsMap.wf (filter p m).
Proof.
  unfold JsMap.wf, JsMap.keys.
  induction m as [|[k v] m IH]; cbn [filter map fst]; [auto|].
  intros Hnd. inversion Hnd as [|? ? Hnotin Hnd']; subst.
  destruct (p (k, v)); cbn [map fst]; [|now apply IH].
  constructor; [|now apply IH].
  intros Hin. apply Hnotin. apply in_map_iff in Hin as [e [He Hin]].
  apply filter_In in Hin as [Hin _]. apply in_map_iff. eauto.
Qed.

Lemma two_sessions_entries :
  exists a b,
    two_sessions = [("aaaaaaaa-1", a); ("bbbbbbbb-2", b)] /\
    session_lastAccessed a = 100%Z /\ session_lastAccessed b = 200%Z /\
    session_name a = "can-session-aaaaaaaa" /\
    session_network a = Net.new.
Proof. do 2 eexists. split; [reflexivity|]. repeat split. Qed.

Lemma wf_two_sessions : JsMap.wf two_sessions.
Proof.
  destruct two_sessions_entries as (a & b & -> & _).
  unfold JsMap.wf, JsMap.keys. cbn [map fst].
  repeat constructor; cbn [In]; intuition discriminate.
Qed.

(* ------------------------------------------------------------------ *)
(** ** Looking up and deleting a session *)

(** X18.  [getSession(id)] throws "not found" for an id that is not stored
    and then changes nothing.  For a stored id it returns the stored
    session with [lastAccessed] set to the time of the call, and that is
    the only change: the session keeps its name, network and creation
    time, every other session is untouched, and the order of the sessions
    is kept.  [getNetwork(id)] does the same and returns the session's
    network. *)
Theorem getSession_touches_only_lastAccessed (now : Z) (sessionId : string)
    (sessions : JsMap.t Session) :
  (JsMap.get sessionId sessions = None ->
   SessionManager.getSession now sessionId sessions
   = (Throws (SessionNotFound sessionId), sessions) /\
   SessionManager.getNetwork now sessionId sessions
   = (Throws (SessionNotFound sessionId), sessions)) /\
  (forall session, JsMap.get sessionId sessions = Some session ->
   exists returned sessions',
     SessionManager.getSession now sessionId sessions = (Returns returned, sessions') /\
     SessionManager.getNetwork now sessionId sessions
     = (Returns (session_network session), sessions') /\
     JsMap.get sessionId sessions' = Some returned /\
     session_lastAccessed returned = now /\
     session_id returned = session_id session /\
     session_name returned = session_name session /\
     session_network returned = session_network session /\
     session_createdAt returned = session_createdAt session /\
     JsMap.keys sessions' = JsMap.keys sessions /\
     (forall k, k <> sessionId -> JsMap.get k sessions' = JsMap.get k sessions)).
Proof.
  unfold SessionManager.getNetwork, SessionManager.getSession. split.
  - intros ->. split; reflexivity.
  - intros session Hget. rewrite Hget. do 2 eexists. split; [reflexivity|].
    split; [reflexivity|]. split.
    { now rewrite get_update_eq, Hget. }
    repeat split; try reflexivity.
    + apply keys_update.
    + intros k Hk. now apply get_update_neq.
Qed.

Lemma getSession_touches_only_lastAccessed_witness :
  exists returned sessions',
    SessionManager.getSession 300 "aaaaaaaa-1" two_sessions
    = (Returns returned, sessions') /\
    session_lastAccessed returned = 300%Z /\
    JsMap.keys sessions' = JsMap.keys two_sessions.
Proof.
  assert (Hget : exists a, JsMap.get "aaaaaaaa-1" two_sessions = Some a)
    by (eexists; reflexivity).
  destruct Hget as [a Hget].
  destruct (proj2 (getSession_touches_only_lastAccessed 300 "aaaaaaaa-1"
                     two_sessions) a Hget)
    as (returned & sessions' & Hrun & _ & _ & Hlast & _ & _ & _ & _ & Hkeys & _).
  exists returned, sessions'. repeat split; assumption.
Defined.

(** X19.  [deleteSession(id)] never throws and answers whether the id was
    stored.  Afterwards the id is gone: [getSession(id)] throws "not
    found" and a second [deleteSession(id)] answers [false]; the other
    sessions are untouched, and deleting an id that is not stored changes
    nothing. *)
Theorem deleteSession_then_not_found (now : Z) (sessionId : string)
    (sessions : JsMap.t Session) :
  exists sessions',
    SessionManager.deleteSession sessionId sessions
    = (Returns (JsMap.has sessionId sessions), sessions') /\
    SessionManager.getSession now sessionId sessions'
    = (Throws (SessionNotFound sessionId), sessions') /\
    SessionManager.deleteSession sessionId sessions' = (Returns false, sessions') /\
    (forall k, k <> sessionId -> JsMap.get k sessions' = JsMap.get k sessions) /\
    (JsMap.has sessionId sessions = false -> sessions' = sessions).
Proof.
  exists (JsMap.remove sessionId sessions).
  unfold SessionManager.deleteSession, SessionManager.getSession, JsMap.delete.
  split; [reflexivity|]. split; [now rewrite get_remove_eq|].
  split; [|split].
  - rewrite has_remove. f_equal. apply remove_absent, has_remove.
  - intros k Hk. now apply get_remove_neq.
  - apply remove_absent.
Qed.

(* ------------------------------------------------------------------ *)
(** ** Listing the sessions *)

(** X20.  [getAllSessions()] never throws and writes nothing: in
    particular it does not renew [lastAccessed].  It lists every stored
    session once, in the order in which the sessions are stored, with the
    session's id, name, creation time, time of last access and the numbers
    of nodes of its network. *)
Theorem getAllSessions_lists_without_touching (sessions : JsMap.t Session) :
  exists listing,
    SessionManager.getAllSessions sessions = (Returns listing, sessions) /\
    map listed_sessionId listing = JsMap.keys sessions /\
    map listed_name listing = map (fun e => session_name (snd e)) sessions /\
    map listed_createdAt listing
    = map (fun e => session_createdAt (snd e)) sessions /\
    map listed_lastAccessed listing
    = map (fun e => session_lastAccessed (snd e)) sessions /\
    map (fun l => Net.conceptCount (listed_networkSize l)) listing
    = map (fun e => List.length (nodes (session_network (snd e)))) sessions.
Proof.
  exists (map (fun e : string * Session =>
                 {| listed_sessionId := fst e;
                    listed_name := session_name (snd e);
                    listed_createdAt := session_createdAt (snd e);
                    listed_lastAccessed := session_lastAccessed (snd e);
                    listed_networkSize :=
                      {| Net.conceptCount :=
                           JsMap.size (nodes (session_network (snd e)));
                         Net.connectionCount :=
                           fold_left
                             (fun sum node =>
                                (sum + JsMap.size (connections node))%nat)
                             (JsMap.values (nodes (session_network (snd e))))
                             0%nat |} |})
              sessions).
  split.
  - unfold SessionManager.getAllSessions, JsMap.entries. f_equal.
    induction sessions as [|e l IH]; [reflexivity|].
    cbn [SessionManager.array_map map]. rewrite IH. reflexivity.
  - unfold JsMap.keys. rewrite !map_map. repeat split.
Qed.

(* ------------------------------------------------------------------ *)
(** ** Expiry: [cleanupSessions] *)

Lemma cleanup_loop (now maxAgeMs : Z) (rest : JsMap.t Session) :
  forall (kept : JsMap.t Session) (cleanedCount : nat),
    JsMap.wf (kept ++ rest) ->
    fold_left
      (fun (state : JsMap.t Session * nat) e =>
         let (sessions, cleanedCount) := state in
         let age := (now - session_lastAccessed (snd e))%Z in
         if (age >? maxAgeMs)%Z
         then (snd (JsMap.delete (fst e) sessions), S cleanedCount)
         else (sessions, cleanedCount))
      rest (kept ++ rest, cleanedCount)
    = (kept ++ filter (fun e => negb (expired now maxAgeMs (snd e))) rest,
       (cleanedCount
        + List.length (filter (fun e => expired now maxAgeMs (snd e)) rest))%nat).
Proof.
  induction rest as [|[k s] rest IH]; intros kept cleanedCount Hwf;
    cbn [fold_left filter fst snd].
  - cbn [List.length]. now rewrite Nat.add_0_r.
  - change (now - session_lastAccessed s >? maxAgeMs)%Z
      with (expired now maxAgeMs s).
    assert (Hk : JsMap.has k kept = false /\ JsMap.has k rest = false).
    { unfold JsMap.wf, JsMap.keys in Hwf. rewrite map_app in Hwf. cbn [map fst] in Hwf.
      pose proof (NoDup_remove_2 _ _ _ Hwf) as Hnot.
      split.
      - destruct (JsMap.has k kept) eqn:E; [|reflexivity]. exfalso.
        apply Hnot. apply in_or_app. left. now apply has_In_keys.
      - destruct (JsMap.has k rest) eqn:E; [|reflexivity]. exfalso.
        apply Hnot. apply in_or_app. right. now apply has_In_keys. }
    destruct Hk as [Hkept Hrest].
    destruct (expired now maxAgeMs s); cbn [negb].
    + unfold JsMap.delete. cbn [snd].
      assert (Hrm : JsMap.remove k (kept ++ (k, s) :: rest) = kept ++ rest).
      { rewrite remove_app, (remove_absent _ _ Hkept).
        unfold JsMap.remove at 1. cbn [filter fst]. rewrite String.eqb_refl.
        cbn [negb]. fold (JsMap.remove k rest). now rewrite remove_absent. }
      rewrite Hrm, IH.
      * cbn [List.length]. f_equal. lia.
      * unfold JsMap.wf, JsMap.keys in *. rewrite map_app in *. cbn [map fst] in Hwf.
        now apply NoDup_remove_1 in Hwf.
    + change (kept ++ (k, s) :: rest) with (kept ++ [(k, s)] ++ rest).
      rewrite app_assoc, IH.
      * now rewrite <- app_assoc.
      * now rewrite <- app_assoc.
Qed.

Lemma cleanupSessions_run (now : Z) (maxAgeMs : option Z)
    (sessions : JsMap.t Session) :
  JsMap.wf sessions ->
  let age := match maxAgeMs with Some a => a | None => 86400000%Z end in
  SessionManager.cleanupSessions now maxAgeMs sessions
  = (Returns (List.length (filter (fun e => expired now age (snd e)) sessions)),
     filter (fun e => negb (expired now age (snd e))) sessions).
Proof.
  intros Hwf age.
  pose proof (cleanup_loop now age sessions [] 0%nat Hwf) as Hloop.
  cbn [app Nat.add] in Hloop.
  unfold SessionManager.cleanupSessions, JsMap.entries.
  change (24 * 60 * 60 * 1000)%Z with 86400000%Z. fold age.
  cbv zeta in *.
  match goal with
  | |- (let (_, _) := ?loop in _) = _ =>
      replace loop with
        (filter (fun e => negb (expired now age (snd e))) sessions,
         List.length (filter (fun e => expired now age (snd e)) sessions))
        by (symmetry; exact Hloop)
  end.
  reflexivity.
Qed.

(** X21.  [cleanupSessions(maxAgeMs)] removes exactly the sessions whose
    last access lies more than [maxAgeMs] milliseconds before the time of
    the call, 24 hours when no [maxAgeMs] is given.  The sessions that stay
    are unchanged and keep their order, and the number returned is the
    number of sessions removed. *)
Theorem cleanupSessions_removes_expired (now : Z) (maxAgeMs : option Z)
    (sessions : JsMap.t Session) :
  JsMap.wf sessions ->
  let age := match maxAgeMs with Some a => a | None => 86400000%Z end in
  exists cleanedCount sessions',
    SessionManager.cleanupSessions now maxAgeMs sessions
    = (Returns cleanedCount, sessions') /\
    sessions' = filter (fun e => (now - session_lastAccessed (snd e) <=? age)%Z)
                       sessions /\
    (forall k s, In (k, s) sessions' <->
                 In (k, s) sessions /\ (now - session_lastAccessed s <= age)%Z) /\
    (cleanedCount + JsMap.size sessions' = JsMap.size sessions)%nat.
Proof.
  intros Hwf age.
  pose proof (cleanupSessions_run now maxAgeMs Hwf) as Hloop.
  cbv zeta in Hloop. fold age in Hloop.
  assert (Hfilter : filter (fun e => negb (expired now age (snd e))) sessions
                    = filter (fun e => (now - session_lastAccessed (snd e) <=? age)%Z)
                             sessions).
  { apply filter_ext. intros [k s]. unfold expired. cbn [snd].
    rewrite Z.gtb_ltb, Z.leb_antisym. reflexivity. }
  do 2 eexists. split; [|split; [reflexivity|split]].
  - rewrite Hloop, Hfilter. reflexivity.
  - intros k s. rewrite filter_In. cbn [snd]. now rewrite Z.leb_le.
  - rewrite <- Hfilter. unfold JsMap.size.
    clear. induction sessions as [|e l IH]; cbn [filter List.length]; [reflexivity|].
    destruct (expired now age (snd e)); cbn [negb List.length]; lia.
Qed.

Lemma cleanupSessions_removes_expired_witness :
  exists b,
    SessionManager.cleanupSessions 86400150 None two_sessions
    = (Returns 1%nat, [("bbbbbbbb-2", b)]).
Proof.
  destruct (cleanupSessions_removes_expired 86400150 None wf_two_sessions)
    as (cleanedCount & sessions' & Hrun & Hkept & _ & Hcount).
  destruct two_sessions_entries as (a & b & Hentries & Ha & Hb & _).
  exists b. rewrite Hrun.
  rewrite Hentries in Hkept, Hcount. cbn [filter snd] in Hkept.
  rewrite Ha, Hb in Hkept. cbn in Hkept. subst sessions'.
  cbn in Hcount. f_equal. f_equal. lia.
Defined.

Lemma get_filter (V : Type) (p : string * V -> bool) (m : JsMap.t V)
    (k : string) (v : V) :
  JsMap.wf m -> JsMap.get k m = Some v -> p (k, v) = true ->
  JsMap.get k (filter p m) = Some v.
Proof.
  intros Hwf Hget Hp. apply wf_In_get; [now apply wf_filter|].
  apply filter_In. split; [now apply get_In | assumption].
Qed.

(** X22.  An access postpones expiry.  After [getSession(id)] (or
    [getNetwork(id)]) at time [now], a [cleanupSessions(maxAgeMs)] that
    runs at a time [later] with [later - now <= maxAgeMs] keeps the session
    of [id], however long ago it was accessed before. *)
Theorem getSession_postpones_expiry (now later : Z) (maxAgeMs : option Z)
    (sessionId : string) (sessions : JsMap.t Session) :
  JsMap.wf sessions ->
  JsMap.has sessionId sessions = true ->
  (later - now <= match maxAgeMs with Some a => a | None => 86400000 end)%Z ->
  exists session sessions1 cleanedCount sessions2,
    SessionManager.getSession now sessionId sessions = (Returns session, sessions1) /\
    SessionManager.cleanupSessions later maxAgeMs sessions1
    = (Returns cleanedCount, sessions2) /\
    JsMap.get sessionId sessions2 = Some session.
Proof.
  intros Hwf Hhas Hage. apply has_get in Hhas as [stored Hstored].
  unfold SessionManager.getSession. rewrite Hstored.
  set (sessions1 := JsMap.update sessionId (SessionManager.touch now) sessions).
  assert (Hwf1 : JsMap.wf sessions1)
    by (unfold JsMap.wf, sessions1; now rewrite keys_update).
  do 4 eexists. split; [reflexivity|].
  split; [apply (cleanupSessions_run later maxAgeMs Hwf1)|].
  apply get_filter; [assumption | |].
  - unfold sessions1. now rewrite get_update_eq, Hstored.
  - unfold expired. cbn [snd SessionManager.touch session_lastAccessed].
    rewrite Z.gtb_ltb. apply negb_true_iff, Z.ltb_ge. exact Hage.
Qed.

Lemma getSession_postpones_expiry_witness :
  exists session sessions1 cleanedCount sessions2,
    SessionManager.getSession 86400100 "aaaaaaaa-1" two_sessions
    = (Returns session, sessions1) /\
    SessionManager.cleanupSessions 86400150 None sessions1
    = (Returns cleanedCount, sessions2) /\
    JsMap.get "aaaaaaaa-1" sessions2 = Some session.
Proof.
  apply (@getSession_postpones_expiry 86400100 86400150 None "aaaaaaaa-1"
           two_sessions wf_two_sessions).
  - reflexivity.
  - lia.
Defined.

(* ------------------------------------------------------------------ *)
(** ** Creating a session *)

(** X23.  Without default concepts [createSession] always returns.  When
    [createSession] returns, the session it describes is stored under the
    id it reports, with the network whose size it reports, the creation
    time it reports and the reported name: the given name, or
    ["can-session-"] followed by the first eight characters of the id when
    no name or the empty name was given.  The other sessions are untouched
    (a session stored under the same id is replaced), and [getNetwork] of
    the reported id returns the session's network, which is the
    constructor's empty network when no default concepts were given. *)
Theorem createSession_round_trip (sessionId uuid : string) (created accessed : Z)
    (config : SessionConfig) (sessions : JsMap.t Session) :
  (config_defaultConcepts config = None ->
   exists info sessions',
     SessionManager.createSession sessionId uuid created accessed config sessions
     = (Returns info, sessions')) /\
  (forall info sessions',
     SessionManager.createSession sessionId uuid created accessed config sessions
     = (Returns info, sessions') ->
     exists session,
       JsMap.get sessionId sessions' = Some session /\
       (forall k, k <> sessionId -> JsMap.get k sessions' = JsMap.get k sessions) /\
       (forall now,
          SessionManager.getNetwork now sessionId sessions'
          = (Returns (session_network session),
             JsMap.update sessionId (SessionManager.touch now) sessions')) /\
       session_id session = sessionId /\
       created_sessionId info = sessionId /\
       session_name session = created_name info /\
       session_createdAt session = created /\
       created_createdAt info = created /\
       session_lastAccessed session = accessed /\
       SessionManager.networkSize (session_network session)
       = Returns (created_networkSize info) /\
       (forall name, config_name config = Some name -> name <> "" ->
                     created_name info = name) /\
       (config_name config = None \/ config_name config = Some "" ->
        created_name info
        = String.append "can-session-" (String.substring 0 8 sessionId)) /\
       (config_defaultConcepts config = None ->
        session_network session = Net.new)).
Proof.
  unfold SessionManager.createSession. split.
  - intros ->. do 2 eexists. reflexivity.
  - intros info sessions'.
    set (built := match config_defaultConcepts config with
                  | Some defaultConcepts =>
                      SessionManager.addDefaultConcepts uuid defaultConcepts Net.new
                  | None => (Return tt, Net.new)
                  end).
    assert (Hnone : config_defaultConcepts config = None ->
                    built = (Return tt, Net.new))
      by (unfold built; now intros ->).
    destruct built as [[[]|e] network]; [|discriminate].
    unfold SessionManager.networkSize at 1.
    cbn [fst Net.getNetworkSize bind this ret].
    intros H. injection H as <- <-.
    eexists. split; [apply get_set_eq|].
    split; [intros k Hk; now apply get_set_neq|].
    split.
    { intros now. unfold SessionManager.getNetwork, SessionManager.getSession.
      now rewrite get_set_eq. }
    cbn [session_id session_name session_network session_createdAt
         session_lastAccessed created_sessionId created_name created_createdAt
         created_networkSize].
    repeat (split; [reflexivity|]).
    split; [|split].
    + intros name -> Hname.
      destruct (String.eqb_spec name ""); [contradiction | reflexivity].
    + intros [->| ->]; reflexivity.
    + intros Hcfg. specialize (Hnone Hcfg). now injection Hnone as <-.
Qed.

Lemma createSession_round_trip_witness :
  exists info sessions' session,
    SessionManager.createSession "0123456789" "" 5 6 plain_config two_sessions
    = (Returns info, sessions') /\
    JsMap.get "0123456789" sessions' = Some session /\
    created_name info = "can-session-01234567" /\
    session_network session = Net.new.
Proof.
  destruct (createSession_round_trip "0123456789" "" 5 6 plain_config two_sessions)
    as [Hreturns Hstored].
  destruct (Hreturns eq_refl) as (info & sessions' & Hrun).
  destruct (Hstored info sessions' Hrun)
    as (session & Hget & _ & _ & _ & _ & _ & _ & _ & _ & _ & _ & Hname & Hnet).
  exists info, sessions', session.
  split; [exact Hrun|]. split; [exact Hget|].
  split; [apply Hname; now left | now apply Hnet].
Defined.

Lemma bind_run (A B : Type) (c : M A) (k : A -> M B) (s : ConceptNetwork) :
  bind c k s
  = match c s with
    | (Return a, s') => k a s'
    | (Throw e, s') => (Throw e, s')
    end.
Proof. reflexivity. Qed.

Lemma connect_loop (k : string) (connections : list Connection) :
  forall net : ConceptNetwork,
    JsMap.has k (nodes net) = true ->
    (exists net',
       for_of connections
         (fun connection =>
            Net.addConnection k (conn_targetId connection)
              (conn_weight connection) None) net
       = (Return tt, net') /\
       JsMap.keys (nodes net') = JsMap.keys (nodes net) /\
       forall c, In c connections ->
                 In (conn_targetId c) (JsMap.keys (nodes net))) \/
    (exists t net',
       for_of connections
         (fun connection =>
            Net.addConnection k (conn_targetId connection)
              (conn_weight connection) None) net
       = (Throw (ConceptNotFound t), net') /\
       exists c, In c connections /\ conn_targetId c = t /\
                 ~ In t (JsMap.keys (nodes net))).
Proof.
  induction connections as [|c connections IH]; intros net Hk.
  - left. exists net. split; [reflexivity|]. split; [reflexivity | intros ? []].
  - cbn [for_of]. rewrite !bind_run.
    rewrite addConnection_run. cbv zeta.
    pose proof Hk as Hk'. apply has_get in Hk' as [nk Hnk]. rewrite Hnk.
    destruct (JsMap.get (conn_targetId c) (nodes net)) as [nt|] eqn:Ht.
    + set (net1 := with_nodes net _).
      assert (Hkeys1 : JsMap.keys (nodes net1) = JsMap.keys (nodes net)).
      { unfold net1. cbn [with_nodes nodes]. now rewrite !keys_update. }
      assert (Hk1 : JsMap.has k (nodes net1) = true)
        by (now rewrite (has_keys_eq _ _ k Hkeys1)).
      destruct (IH net1 Hk1) as [(net' & Hrun & Hkeys & Hall)
                                |(t & net' & Hrun & c' & Hc' & Htc & Hnot)].
      * left. exists net'. split; [exact Hrun|]. split; [congruence|].
        intros c' [<-|Hc'].
        -- apply has_In_keys, has_get. eauto.
        -- rewrite <- Hkeys1. now apply Hall.
      * right. exists t, net'. split; [exact Hrun|]. exists c'.
        split; [now right|]. split; [assumption|]. now rewrite <- Hkeys1.
    + right. exists (conn_targetId c), net. split; [reflexivity|].
      exists c. split; [now left|]. split; [reflexivity|].
      intros Hin. apply has_In_keys, has_get in Hin as [v Hv]. congruence.
Qed.

Lemma addDefaultConcepts_spec (uuid : string)
    (defaultConcepts : list (string * ConceptData)) :
  forall net : ConceptNetwork,
    NoDup (JsMap.keys (nodes net) ++ map fst defaultConcepts) ->
    ~ In "" (map fst defaultConcepts) ->
    (exists net',
       SessionManager.addDefaultConcepts uuid defaultConcepts net = (Return tt, net') /\
       JsMap.keys (nodes net') = JsMap.keys (nodes net) ++ map fst defaultConcepts /\
       refers_backwards (JsMap.keys (nodes net)) defaultConcepts) \/
    (exists t net',
       SessionManager.addDefaultConcepts uuid defaultConcepts net
       = (Throw (ConceptNotFound t), net') /\
       ~ refers_backwards (JsMap.keys (nodes net)) defaultConcepts).
Proof.
  unfold SessionManager.addDefaultConcepts.
  induction defaultConcepts as [|[k data] rest IH]; intros net Hnd Hempty.
  - left. exists net. cbn [for_of map]. rewrite app_nil_r. repeat split.
  - cbn [map fst] in Hnd, Hempty. cbn [for_of fst snd refers_backwards].
    rewrite !bind_run.
    rewrite addConcept_run. cbv zeta.
    assert (Hk : k <> "") by (intros ->; apply Hempty; now left).
    assert (Hid : chosen_id uuid (Some k) = k).
    { unfold chosen_id. destruct (String.eqb_spec k ""); [contradiction | reflexivity]. }
    rewrite Hid.
    assert (Hfresh : JsMap.has k (nodes net) = false).
    { destruct (JsMap.has k (nodes net)) eqn:E; [|reflexivity].
      apply has_In_keys in E. apply NoDup_remove_2 in Hnd.
      exfalso. apply Hnd. apply in_or_app. now left. }
    rewrite Hfresh.
    set (net1 := with_nodes net (nodes net ++ [(k, Node.new k (data_label data)
                                                      (data_category data))])).
    assert (Hkeys1 : JsMap.keys (nodes net1) = JsMap.keys (nodes net) ++ [k]).
    { unfold net1, JsMap.keys. cbn [with_nodes nodes]. now rewrite map_app. }
    assert (Hk1 : JsMap.has k (nodes net1) = true).
    { apply has_In_keys. rewrite Hkeys1. apply in_or_app. right. now left. }
    assert (Hnext : forall net2,
              JsMap.keys (nodes net2) = JsMap.keys (nodes net1) ->
              (forall c, In c (connections_of data) ->
                         In (conn_targetId c) (JsMap.keys (nodes net) ++ [k])) ->
              (exists net',
                 for_of rest
                   (fun e =>
                      _ <- Net.addConcept uuid (data_label (snd e))
                             (data_category (snd e)) (Some (fst e)) ;;
                      match data_connections (snd e) with
                      | Some connections =>
                          for_of connections
                            (fun connection =>
                               Net.addConnection (fst e) (conn_targetId connection)
                                 (conn_weight connection) None)
                      | None => ret tt
                      end) net2 = (Return tt, net') /\
                 JsMap.keys (nodes net') = JsMap.keys (nodes net) ++ k :: map fst rest /\
                 ((forall c, In c (connections_of data) ->
                             In (conn_targetId c) (JsMap.keys (nodes net) ++ [k])) /\
                  refers_backwards (JsMap.keys (nodes net) ++ [k]) rest)) \/
              (exists t net',
                 for_of rest
                   (fun e =>
                      _ <- Net.addConcept uuid (data_label (snd e))
                             (data_category (snd e)) (Some (fst e)) ;;
                      match data_connections (snd e) with
                      | Some connections =>
                          for_of connections
                            (fun connection =>
                               Net.addConnection (fst e) (conn_targetId connection)
                                 (conn_weight connection) None)
                      | None => ret tt
                      end) net2 = (Throw (ConceptNotFound t), net') /\
                 ~ ((forall c, In c (connections_of data) ->
                               In (conn_targetId c) (JsMap.keys (nodes net) ++ [k])) /\
                    refers_backwards (JsMap.keys (nodes net) ++ [k]) rest))).
    { intros net2 Hkeys2 Hback.
      destruct (IH net2) as [(net' & Hrun & Hkeys & Hrefs)|(t & net' & Hrun & Hnot)].
      - rewrite Hkeys2, Hkeys1, <- app_assoc. exact Hnd.
      - intros Hin. apply Hempty. now right.
      - left. exists net'. split; [exact Hrun|].
        rewrite Hkeys2, Hkeys1 in Hkeys, Hrefs. rewrite <- app_assoc in Hkeys.
        split; [exact Hkeys|]. split; assumption.
      - right. exists t, net'. split; [exact Hrun|].
        rewrite Hkeys2, Hkeys1 in Hnot. intros [_ H]. contradiction. }
    unfold connections_of in *.
    destruct (data_connections data) as [connections|].
    + destruct (connect_loop k connections net1 Hk1)
        as [(net2 & Hrun & Hkeys2 & Hall)|(t & net2 & Hrun & c & Hc & Htc & Hmissing)].
      * rewrite Hrun. apply Hnext; [assumption|]. now rewrite <- Hkeys1.
      * rewrite Hrun. right. exists t, net2. split; [reflexivity|].
        intros [Hback _]. apply Hmissing. rewrite Hkeys1, <- Htc. now apply Hback.
    + cbn [ret]. apply Hnext; [reflexivity | intros ? []].
Qed.

(** X24.  [createSession] with default concepts, for concept ids that are
    distinct and not empty.  The concepts are added in the order of
    [Object.entries(defaultConcepts)], and each connection is added right
    after its own concept.  So the call returns exactly when every
    connection names its own concept or a concept that comes before it in
    that order: then the session's network holds the ids in that order and
    [networkSize] reports their number.  A connection to a concept that
    comes later, or to no concept of the object, makes the call throw "not
    found" for a target, and no session is stored. *)
Theorem createSession_default_concepts (sessionId uuid : string)
    (created accessed : Z) (name : option string)
    (defaultConcepts : list (string * ConceptData)) (sessions : JsMap.t Session) :
  NoDup (map fst defaultConcepts) -> ~ In "" (map fst defaultConcepts) ->
  let config := {| config_name := name;
                   config_defaultConcepts := Some defaultConcepts |} in
  (refers_backwards [] defaultConcepts ->
   exists info sessions' session,
     SessionManager.createSession sessionId uuid created accessed config sessions
     = (Returns info, sessions') /\
     JsMap.get sessionId sessions' = Some session /\
     JsMap.keys (nodes (session_network session)) = map fst defaultConcepts /\
     Net.conceptCount (created_networkSize info) = List.length defaultConcepts) /\
  (~ refers_backwards [] defaultConcepts ->
   exists t,
     SessionManager.createSession sessionId uuid created accessed config sessions
     = (Throws (NetworkError (ConceptNotFound t)), sessions)).
Proof.
  intros Hnd Hempty config.
  unfold SessionManager.createSession. cbn [config_defaultConcepts config].
  destruct (addDefaultConcepts_spec uuid defaultConcepts Net.new Hnd Hempty)
    as [(net' & Hrun & Hkeys & Hrefs)|(t & net' & Hrun & Hnot)];
    rewrite Hrun; cbn [Net.new nodes JsMap.keys JsMap.empty map app] in *.
  - split; [|intros H; contradiction].
    intros _. unfold SessionManager.networkSize.
    cbn [fst Net.getNetworkSize bind this ret].
    do 3 eexists. split; [reflexivity|]. split; [apply get_set_eq|].
    cbn [session_network created_networkSize Net.conceptCount].
    split; [exact Hkeys|].
    unfold JsMap.size. rewrite <- (length_map fst (nodes net')).
    change (map fst (nodes net')) with (JsMap.keys (nodes net')).
    rewrite Hkeys. apply length_map.
  - split; [intros H; contradiction|].
    intros _. exists t. reflexivity.
Qed.

Lemma createSession_default_concepts_witness :
  exists t,
    SessionManager.createSession "s" "" 0 0
      {| config_name := None;
         config_defaultConcepts :=
           Some [("a", {| data_label := "A"; data_category := None;
                          data_connections :=
                            Some [{| conn_targetId := "b"; conn_weight := None |}] |});
                 ("b", {| data_label := "B"; data_category := None;
                          data_connections := None |})] |}
      two_sessions
    = (Throws (NetworkError (ConceptNotFound t)), two_sessions).
Proof.
  apply (fun Hnd Hempty =>
           proj2 (@createSession_default_concepts "s" "" 0 0 None
                    [("a", {| data_label := "A"; data_category := None;
                              data_connections :=
                                Some [{| conn_targetId := "b";
                                         conn_weight := None |}] |});
                     ("b", {| data_label := "B"; data_category := None;
                              data_connections := None |})]
                    two_sessions Hnd Hempty)).
  - cbn [map fst]. repeat constructor; cbn [In]; intuition discriminate.
  - cbn [map fst In]. intuition discriminate.
  - cbn [refers_backwards connections_of data_connections fst snd app].
    intros [H _]. specialize (H _ (or_introl eq_refl)).
    cbn [conn_targetId In] in H. intuition discriminate.
Defined.

(* ------------------------------------------------------------------ *)
(** ** The manager keeps its sessions under their ids *)

Lemma keys_set (V : Type) (m : JsMap.t V) (k : string) (v : V) :
  JsMap.keys (JsMap.set k v m)
  = if JsMap.has k m then JsMap.keys m else JsMap.keys m ++ [k].
Proof.
  destruct (JsMap.has k m) eqn:E.
  - now apply keys_set_present.
  - rewrite set_absent by assumption. unfold JsMap.keys. now rewrite map_app.
Qed.

Lemma sessions_ok_call (c : SessionCall) (sessions : JsMap.t Session) :
  sessions_ok sessions -> sessions_ok (after_session_call c sessions).
Proof.
  intros [Hwf Hid]. destruct c; cbn [after_session_call].
  - unfold SessionManager.createSession.
    destruct (match config_defaultConcepts config with
              | Some defaultConcepts =>
                  SessionManager.addDefaultConcepts uuid defaultConcepts Net.new
              | None => (Return tt, Net.new)
              end) as [[[]|e] network]; cbn [snd]; [|now split].
    unfold SessionManager.networkSize.
    cbn [fst Net.getNetworkSize bind this ret snd]. split.
    + unfold JsMap.wf. rewrite keys_set.
      destruct (JsMap.has sessionId sessions) eqn:E; [assumption|].
      apply NoDup_app; [assumption | repeat constructor; intros [] |].
      intros k Hk [<-|[]]. apply has_In_keys in Hk. congruence.
    + intros k s Hin. apply In_set in Hin as [Heq|Hin]; [|now apply Hid].
      injection Heq as -> ->. reflexivity.
  - unfold SessionManager.getSession.
    destruct (JsMap.get sessionId sessions) as [stored|]; cbn [snd]; [|now split].
    split.
    + unfold JsMap.wf. now rewrite keys_update.
    + intros k s Hin. apply In_update in Hin as [Hin|[-> [s0 [Hin ->]]]];
        [now apply Hid|].
      cbn [SessionManager.touch session_id]. now apply Hid.
  - unfold SessionManager.getNetwork, SessionManager.getSession.
    destruct (JsMap.get sessionId sessions) as [stored|]; cbn [snd]; [|now split].
    split.
    + unfold JsMap.wf. now rewrite keys_update.
    + intros k s Hin. apply In_update in Hin as [Hin|[-> [s0 [Hin ->]]]];
        [now apply Hid|].
      cbn [SessionManager.touch session_id]. now apply Hid.
  - unfold SessionManager.deleteSession, JsMap.delete. cbn [snd]. split.
    + unfold JsMap.wf. rewrite keys_remove. now apply NoDup_filter.
    + intros k s Hin. apply In_remove in Hin as [Hin _]. now apply Hid.
  - now split.
  - rewrite cleanupSessions_run by assumption. cbn [snd]. split.
    + now apply wf_filter.
    + intros k s Hin. apply filter_In in Hin as [Hin _]. now apply Hid.
Qed.

(** X25.  In every session map that calls of the manager's methods build
    from the constructor's empty map, no id is stored twice and every
    session is stored under its own id: the [id] field of the session that
    [getSession(id)] finds is [id]. *)
Theorem managed_sessions_keyed_by_id (sessions : JsMap.t Session) :
  managed sessions ->
  JsMap.wf sessions /\
  forall sessionId session,
    JsMap.get sessionId sessions = Some session -> session_id session = sessionId.
Proof.
  intros H.
  assert (Hok : sessions_ok sessions).
  { induction H as [|c sessions Hm IH].
    - split; [constructor | intros ? ? []].
    - now apply sessions_ok_call. }
  destruct Hok as [Hwf Hid]. split; [assumption|].
  intros sessionId session Hget. apply Hid. now apply get_In.
Qed.

Lemma managed_sessions_keyed_by_id_witness :
  JsMap.wf two_sessions /\
  exists session,
    JsMap.get "bbbbbbbb-2" two_sessions = Some session /\
    session_id session = "bbbbbbbb-2".
Proof.
  assert (Hm : managed two_sessions).
  { change two_sessions with
      (after_session_call (CreateSession "bbbbbbbb-2" "" 200 200 plain_config)
         (after_session_call (CreateSession "aaaaaaaa-1" "" 100 100 plain_config)
            SessionManager.new)).
    repeat apply managed_call. apply managed_new. }
  destruct (managed_sessions_keyed_by_id Hm) as [Hwf Hid].
  split; [assumption|].
  assert (Hget : exists session, JsMap.get "bbbbbbbb-2" two_sessions = Some session)
    by (eexists; reflexivity).
  destruct Hget as [session Hget]. exists session.
  split; [assumption | now apply Hid].
Defined.

(* ================================================================== *)
(** * Rounds: what the delta bounds and what the history records *)




(** X27.  A round is recorded under the number it returns.  On a network
    built by the public methods, [spreadActivation] returns as [iteration]
    the index of the one history entry it appends; that entry carries the
    same number and, for every node of the graph in graph order, the node's
    id and its activation after the round. *)
Theorem spreadActivation_records_round (rate : option R) (net : ConceptNetwork) :
  reachable net ->
  exists res net' e,
    Net.spreadActivation rate net = (Return res, net') /\
    activationHistory net' = activationHistory net ++ [e] /\
    Net.res_iteration res = Z.of_nat (List.length (activationHistory net)) /\
    nth_error (activationHistory net') (Z.to_nat (Net.res_iteration res)) = Some e /\
    entry_iteration e = Net.res_iteration res /\
    map info_id (entry_activations e) = JsMap.keys (nodes net) /\
    map info_activation (entry_activations e)
    = map (fun x => activation (snd x)) (nodes net').
Proof.
  intros Hnet.
  assert (Hok : history_ok net).
  { induction Hnet as [|c net Hnet IH].
    - split; [reflexivity|]. intros [|i] e Hi; discriminate.
    - now apply history_ok_call. }
  destruct Hok as [Hcount _].
  do 3 eexists. split; [apply spreadActivation_run|].
  cbn [activationHistory Net.res_iteration entry_iteration entry_activations nodes].
  split; [reflexivity|].
  assert (Hres : (iterationCount net + 1 - 1
                  = Z.of_nat (List.length (activationHistory net)))%Z) by lia.
  split; [exact Hres|]. split.
  { rewrite Hres, Nat2Z.id, nth_error_app2 by apply le_n.
    now rewrite Nat.sub_diag. }
  split; [cbn [entry_iteration]; lia|].
  cbn [entry_activations].
  unfold Net.snapshot, JsMap.entries. rewrite !map_map.
  cbn [info_id info_activation]. split; [|reflexivity].
  set (d := match rate with Some d => d | None => decayRate (params net) end).
  change (map (fun x : string * ConceptNode => fst x) (spread_nodes (nodes net) d))
    with (JsMap.keys (spread_nodes (nodes net) d)).
  apply sub_graph_spread.
Qed.

Lemma spreadActivation_records_round_witness :
  exists res net' e,
    Net.spreadActivation None w_to_u = (Return res, net') /\
    Net.res_iteration res = 1%Z /\
    nth_error (activationHistory net') 1 = Some e /\
    map info_id (entry_activations e) = ["w"; "u"].
Proof.
  destruct (spreadActivation_records_round None reachable_w_to_u)
    as (res & net' & e & Hrun & _ & Hres & Hnth & _ & Hids & _).
  assert (Hlen : List.length (activationHistory w_to_u) = 1%nat)
    by (js_compute; reflexivity).
  assert (Hkeys : JsMap.keys (nodes w_to_u) = ["w"; "u"])
    by (js_compute; reflexivity).
  rewrite Hlen in Hres. rewrite Hres in Hnth. rewrite Hkeys in Hids.
  exists res, net', e. repeat split; assumption.
Defined.

(* ================================================================== *)
(** * The network that [createSession] builds *)

Lemma same_but_connections_refl (n : ConceptNode) : same_but_connections n n.
Proof. unfold same_but_connections. tauto. Qed.

Lemma same_but_connections_trans (a b c : ConceptNode) :
  same_but_connections a b -> same_but_connections b c -> same_but_connections a c.
Proof.
  unfold same_but_connections.
  intros (? & ? & ? & ? & ? & ?) (? & ? & ? & ? & ? & ?). repeat split; congruence.
Qed.

Lemma grows_refl (m : JsMap.t ConceptNode) : grows m m.
Proof.
  intros k n Hget. exists n. split; [assumption|].
  split; [apply same_but_connections_refl | auto].
Qed.

Lemma grows_trans (m1 m2 m3 : JsMap.t ConceptNode) :
  grows m1 m2 -> grows m2 m3 -> grows m1 m3.
Proof.
  intros H12 H23 k n1 Hget.
  destruct (H12 k n1 Hget) as (n2 & Hget2 & Hsame2 & Hedges2).
  destruct (H23 k n2 Hget2) as (n3 & Hget3 & Hsame3 & Hedges3).
  exists n3. split; [assumption|].
  split; [now apply same_but_connections_trans with n2 | auto].
Qed.

Lemma has_set (V : Type) (m : JsMap.t V) (k t : string) (v : V) :
  JsMap.has t (JsMap.set k v m) = String.eqb t k || JsMap.has t m.
Proof.
  unfold JsMap.has. destruct (String.eqb_spec t k) as [->|Hne].
  - now rewrite get_set_eq.
  - now rewrite get_set_neq.
Qed.

Lemma grows_update_addConnection (m : JsMap.t ConceptNode) (k t : string) (w : R) :
  grows m (JsMap.update k (Node.addConnection t w) m).
Proof.
  intros k0 n Hget. destruct (String.eqb_spec k0 k) as [->|Hne].
  - rewrite get_update_eq, Hget. cbn [option_map]. eexists. split; [reflexivity|].
    split.
    + unfold same_but_connections, Node.addConnection. cbn. tauto.
    + intros t0 Ht0. unfold Node.addConnection.
      cbn [Node.with_connections connections]. rewrite has_set, Ht0.
      apply orb_true_r.
  - rewrite get_update_neq by assumption. exists n.
    split; [assumption|]. split; [apply same_but_connections_refl | auto].
Qed.

Lemma has_edge_after_addConnection (m : JsMap.t ConceptNode) (k t : string) (w : R)
    (n : ConceptNode) :
  JsMap.get k m = Some n ->
  exists n', JsMap.get k (JsMap.update k (Node.addConnection t w) m) = Some n' /\
             JsMap.has t (connections n') = true.
Proof.
  intros Hget. rewrite get_update_eq, Hget. cbn [option_map].
  eexists. split; [reflexivity|]. unfold Node.addConnection.
  cbn [Node.with_connections connections]. rewrite has_set, String.eqb_refl.
  reflexivity.
Qed.

(** The inner loop of [createSession], when it returns: nothing is lost,
    and every connection is there in both directions. *)
Lemma connect_loop_edges (k : string) (cs : list Connection) :
  forall net net' : ConceptNetwork,
    for_of cs
      (fun connection =>
         Net.addConnection k (conn_targetId connection) (conn_weight connection) None)
      net = (Return tt, net') ->
    grows (nodes net) (nodes net') /\
    forall c, In c cs ->
      (exists n, JsMap.get k (nodes net') = Some n /\
                 JsMap.has (conn_targetId c) (connections n) = true) /\
      (exists nt, JsMap.get (conn_targetId c) (nodes net') = Some nt /\
                  JsMap.has k (connections nt) = true).
Proof.
  induction cs as [|c cs IH]; intros net net'.
  - cbn [for_of]. intros H. injection H as <-.
    split; [apply grows_refl | intros ? []].
  - cbn [for_of]. rewrite bind_run, addConnection_run. cbv zeta.
    destruct (JsMap.get k (nodes net)) as [nk|] eqn:Hk; [|discriminate].
    destruct (JsMap.get (conn_targetId c) (nodes net)) as [nt|] eqn:Ht;
      [|discriminate].
    set (w := Net.safeWeight _).
    set (m1 := JsMap.update k (Node.addConnection (conn_targetId c) w) (nodes net)).
    set (m2 := JsMap.update (conn_targetId c) (Node.addConnection k w) m1).
    intros Hrun. destruct (IH _ _ Hrun) as [Hgrows Hedges].
    cbn [with_nodes nodes] in Hgrows.
    assert (H1 : grows (nodes net) m1) by apply grows_update_addConnection.
    assert (H2 : grows m1 m2) by apply grows_update_addConnection.
    split; [apply grows_trans with m2; [now apply grows_trans with m1 | assumption]|].
    intros c' [<-|Hc']; [|now apply Hedges].
    split.
    + destruct (has_edge_after_addConnection (nodes net) k (conn_targetId c) w Hk)
        as (n1 & Hn1 & He1). fold m1 in Hn1.
      destruct (H2 k n1 Hn1) as (n2 & Hn2 & _ & He2).
      destruct (Hgrows k n2 Hn2) as (n' & Hn' & _ & He').
      exists n'. split; [assumption|]. auto.
    + destruct (H1 (conn_targetId c) nt Ht) as (nt1 & Hnt1 & _).
      destruct (has_edge_after_addConnection m1 (conn_targetId c) k w Hnt1)
        as (n2 & Hn2 & He2). fold m2 in Hn2.
      destruct (Hgrows (conn_targetId c) n2 Hn2) as (n' & Hn' & _ & He').
      exists n'. split; [assumption|]. auto.
Qed.

(** The outer loop, when it returns. *)
Lemma addDefaultConcepts_edges (uuid : string)
    (defaultConcepts : list (string * ConceptData)) :
  forall net net' : ConceptNetwork,
    ~ In "" (map fst defaultConcepts) ->
    SessionManager.addDefaultConcepts uuid defaultConcepts net = (Return tt, net') ->
    grows (nodes net) (nodes net') /\
    forall k data, In (k, data) defaultConcepts ->
      exists n,
        JsMap.get k (nodes net') = Some n /\
        same_but_connections (Node.new k (data_label data) (data_category data)) n /\
        forall c, In c (connections_of data) ->
          JsMap.has (conn_targetId c) (connections n) = true /\
          exists nt, JsMap.get (conn_targetId c) (nodes net') = Some nt /\
                     JsMap.has k (connections nt) = true.
Proof.
  unfold SessionManager.addDefaultConcepts.
  induction defaultConcepts as [|[k data] rest IH]; intros net net' Hempty.
  - cbn [for_of]. intros H. injection H as <-.
    split; [apply grows_refl | intros ? ? []].
  - cbn [map fst] in Hempty. cbn [for_of fst snd].
    rewrite !bind_run, addConcept_run. cbv zeta.
    assert (Hk : k <> "") by (intros ->; apply Hempty; now left).
    assert (Hid : chosen_id uuid (Some k) = k).
    { unfold chosen_id. destruct (String.eqb_spec k ""); [contradiction | reflexivity]. }
    rewrite Hid.
    destruct (JsMap.has k (nodes net)) eqn:Hfresh; [discriminate|].
    set (new := Node.new k (data_label data) (data_category data)).
    set (net1 := with_nodes net (nodes net ++ [(k, new)])).
    assert (H1 : grows (nodes net) (nodes net1)).
    { intros k0 n Hget. exists n. cbn [net1 with_nodes nodes].
      rewrite get_app, Hget. split; [reflexivity|].
      split; [apply same_but_connections_refl | auto]. }
    assert (Hnew : JsMap.get k (nodes net1) = Some new).
    { cbn [net1 with_nodes nodes]. apply has_false_get in Hfresh.
      rewrite get_app, Hfresh. cbn [JsMap.get]. now rewrite String.eqb_refl. }
    assert (Hinner : forall net2,
              (match data_connections data with
               | Some connections =>
                   for_of connections
                     (fun connection =>
                        Net.addConnection k (conn_targetId connection)
                          (conn_weight connection) None)
               | None => ret tt
               end) net1 = (Return tt, net2) ->
              grows (nodes net1) (nodes net2) /\
              forall c, In c (connections_of data) ->
                (exists n, JsMap.get k (nodes net2) = Some n /\
                           JsMap.has (conn_targetId c) (connections n) = true) /\
                (exists nt, JsMap.get (conn_targetId c) (nodes net2) = Some nt /\
                            JsMap.has k (connections nt) = true)).
    { intros net2. unfold connections_of.
      destruct (data_connections data) as [cs|].
      - apply connect_loop_edges.
      - intros H. injection H as <-. split; [apply grows_refl | intros ? []]. }
    destruct ((match data_connections data with
               | Some connections =>
                   for_of connections
                     (fun connection =>
                        Net.addConnection k (conn_targetId connection)
                          (conn_weight connection) None)
               | None => ret tt
               end) net1) as [[[]|e] net2] eqn:Hloop; [|discriminate].
    destruct (Hinner net2 eq_refl) as [H2 Hedges].
    intros Hrest.
    destruct (IH net2 net' (fun H => Hempty (or_intror H)) Hrest) as [H3 Hothers].
    split.
    { apply grows_trans with (nodes net2); [|assumption].
      now apply grows_trans with (nodes net1). }
    intros k0 data0 [Heq|Hin]; [|now apply Hothers].
    injection Heq as <- <-.
    destruct (H2 k new Hnew) as (n2 & Hn2 & Hsame2 & _).
    destruct (H3 k n2 Hn2) as (n' & Hn' & Hsame' & Hkeep).
    exists n'. split; [assumption|].
    split; [now apply same_but_connections_trans with n2|].
    intros c Hc. destruct (Hedges c Hc) as [(n & Hn & He) (nt & Hnt & Het)].
    rewrite Hn2 in Hn. injection Hn as <-.
    split; [now apply Hkeep|].
    destruct (H3 _ nt Hnt) as (nt' & Hnt' & _ & Hkeep').
    exists nt'. split; [assumption | now apply Hkeep'].
Qed.

Lemma reachable_bind (A B : Type) (c : M A) (k : A -> M B) :
  (forall net, reachable net -> reachable (snd (c net))) ->
  (forall a net, reachable net -> reachable (snd (k a net))) ->
  forall net, reachable net -> reachable (snd (bind c k net)).
Proof.
  intros Hc Hk net Hnet. rewrite bind_run. specialize (Hc net Hnet).
  destruct (c net) as [[a|e] net1]; cbn [snd] in *; [now apply Hk | assumption].
Qed.

Lemma reachable_for_of (A : Type) (body : A -> M unit) (xs : list A) :
  (forall x net, reachable net -> reachable (snd (body x net))) ->
  forall net, reachable net -> reachable (snd (for_of xs body net)).
Proof.
  intros Hbody. induction xs as [|x xs IH]; intros net Hnet; [exact Hnet|].
  cbn [for_of]. apply reachable_bind; [apply Hbody | intros _; apply IH | exact Hnet].
Qed.

Lemma reachable_addDefaultConcepts (uuid : string)
    (defaultConcepts : list (string * ConceptData)) (net : ConceptNetwork) :
  reachable net ->
  reachable (snd (SessionManager.addDefaultConcepts uuid defaultConcepts net)).
Proof.
  unfold SessionManager.addDefaultConcepts. apply reachable_for_of.
  intros e net0 Hnet0. apply reachable_bind; [| |exact Hnet0].
  - intros net1 Hnet1.
    apply (reachable_call
             (AddConcept uuid (data_label (snd e)) (data_category (snd e))
                (Some (fst e))) Hnet1).
  - intros _ net1 Hnet1. destruct (data_connections (snd e)) as [cs|];
      [|exact Hnet1].
    apply reachable_for_of; [|exact Hnet1].
    intros c net2 Hnet2.
    apply (reachable_call
             (AddConnection (fst e) (conn_targetId c) (conn_weight c) None) Hnet2).
Qed.

(** X28.  The network of a created session.  When [createSession] with
    default concepts (none under the empty id) returns, the network of the
    stored session is one that the public methods of the network build
    from the constructor's network.  It holds, for every default concept, a
    node under the concept's id with the given label and category,
    activation and previousActivation 0; and for every connection listed
    for the concept, an edge from the concept to the target and an edge
    from the target back to the concept: default connections are
    bidirectional. *)
Theorem createSession_builds_default_network (sessionId uuid : string)
    (created accessed : Z) (name : option string)
    (defaultConcepts : list (string * ConceptData))
    (sessions sessions' : JsMap.t Session) (info : SessionInfo) :
  ~ In "" (map fst defaultConcepts) ->
  SessionManager.createSession sessionId uuid created accessed
    {| config_name := name; config_defaultConcepts := Some defaultConcepts |}
    sessions = (Returns info, sessions') ->
  exists session,
    JsMap.get sessionId sessions' = Some session /\
    reachable (session_network session) /\
    forall k data, In (k, data) defaultConcepts ->
      exists n,
        JsMap.get k (nodes (session_network session)) = Some n /\
        id n = k /\ label n = data_label data /\ category n = data_category data /\
        activation n = 0 /\ prevActivation n = 0 /\
        forall c, In c (connections_of data) ->
          JsMap.has (conn_targetId c) (connections n) = true /\
          exists nt,
            JsMap.get (conn_targetId c) (nodes (session_network session)) = Some nt /\
            JsMap.has k (connections nt) = true.
Proof.
  intros Hempty. unfold SessionManager.createSession.
  cbn [config_defaultConcepts].
  pose proof (reachable_addDefaultConcepts uuid defaultConcepts reachable_new)
    as Hreach.
  destruct (SessionManager.addDefaultConcepts uuid defaultConcepts Net.new)
    as [[[]|e] network] eqn:Hbuilt; [|discriminate].
  cbn [snd] in Hreach.
  unfold SessionManager.networkSize.
  cbn [fst Net.getNetworkSize bind this ret].
  intros H. injection H as _ <-.
  eexists. split; [apply get_set_eq|]. cbn [session_network].
  split; [exact Hreach|].
  destruct (addDefaultConcepts_edges uuid defaultConcepts Net.new Hempty Hbuilt)
    as [_ Hnodes].
  intros k data Hin. destruct (Hnodes k data Hin) as (n & Hn & Hsame & Hedges).
  exists n. split; [assumption|].
  destruct Hsame as (Hi & Hl & Hc & Ha & Hp & _).
  cbn [Node.new id label category activation prevActivation] in *.
  repeat (split; [assumption|]). exact Hedges.
Qed.

Lemma createSession_builds_default_network_witness :
  exists info sessions' session a nb,
    SessionManager.createSession "s" "" 0 0
      {| config_name := None;
         config_defaultConcepts :=
           Some [("a", {| data_label := "A"; data_category := None;
                          data_connections := None |});
                 ("b", {| data_label := "B"; data_category := None;
                          data_connections :=
                            Some [{| conn_targetId := "a";
                                     conn_weight := None |}] |})] |}
      SessionManager.new
    = (Returns info, sessions') /\
    JsMap.get "s" sessions' = Some session /\
    JsMap.get "a" (nodes (session_network session)) = Some a /\
    JsMap.has "b" (connections a) = true /\
    JsMap.get "b" (nodes (session_network session)) = Some nb /\
    JsMap.has "a" (connections nb) = true.
Proof.
  set (concepts :=
         [("a", {| data_label := "A"; data_category := None;
                   data_connections := None |});
          ("b", {| data_label := "B"; data_category := None;
                   data_connections :=
                     Some [{| conn_targetId := "a"; conn_weight := None |}] |})]).
  assert (Hrun : exists info sessions',
            SessionManager.createSession "s" "" 0 0
              {| config_name := None; config_defaultConcepts := Some concepts |}
              SessionManager.new = (Returns info, sessions'))
    by (do 2 eexists; js_compute; reflexivity).
  destruct Hrun as (info & sessions' & Hrun).
  assert (Hempty : ~ In "" (map fst concepts))
    by (cbn [concepts map fst In]; intuition discriminate).
  destruct (@createSession_builds_default_network "s" "" 0 0 None concepts
              SessionManager.new sessions' info Hempty Hrun)
    as (session & Hget & _ & Hnodes).
  destruct (Hnodes "b" _ (or_intror (or_introl eq_refl)))
    as (nb & Hnb & _ & _ & _ & _ & _ & Hedges).
  destruct (Hedges _ (or_introl eq_refl)) as (Hba & a & Ha & Hab).
  exists info, sessions', session, a, nb.
  repeat split; assumption.
Defined.

(* ================================================================== *)
(** * The serialized nodes and the size of the network *)

(** X29.  [getNetworkSize] agrees with the serialization of the nodes:
    [conceptCount] is the number of objects that [toJSON] yields for the
    nodes of the graph, and [connectionCount] is the sum of their
    [connectionCount] fields.  After [addConcept] the serialization of the
    new node shows no connection and activation 0. *)
Theorem getNetworkSize_sums_toJSON (net : ConceptNetwork) :
  let serialized := map Node.toJSON (JsMap.values (nodes net)) in
  exists size,
    Net.getNetworkSize net = (Return size, net) /\
    Net.conceptCount size = List.length serialized /\
    Net.connectionCount size = list_sum (map json_connectionCount serialized) /\
    forall uuid l c i net' conceptId,
      Net.addConcept uuid l c i net = (Return conceptId, net') ->
      exists n, JsMap.get conceptId (nodes net') = Some n /\
                Node.toJSON n
                = {| json_id := conceptId; json_label := l; json_category := c;
                     json_activation := 0; json_connectionCount := 0;
                     json_metadata := [] |}.
Proof.
  intros serialized. eexists. split; [reflexivity|].
  cbn [Net.conceptCount Net.connectionCount].
  split; [|split].
  - unfold serialized, JsMap.size, JsMap.values. now rewrite !length_map.
  - unfold serialized. rewrite map_map. cbn [Node.toJSON json_connectionCount].
    rewrite fold_sizes_shift. cbn [Nat.add].
    induction (JsMap.values (nodes net)) as [|n l IH]; [reflexivity|].
    cbn [fold_left map list_sum fold_right]. rewrite fold_sizes_shift.
    unfold list_sum in IH. cbn [Nat.add]. now rewrite IH.
  - intros uuid l c i net' conceptId. rewrite addConcept_run. cbv zeta.
    destruct (JsMap.has (chosen_id uuid i) (nodes net)) eqn:E; [discriminate|].
    intros H. injection H as <- <-.
    eexists. split.
    + cbn [with_nodes nodes]. apply has_false_get in E.
      rewrite get_app, E. cbn [JsMap.get]. now rewrite String.eqb_refl.
    + reflexivity.
Qed.

(* ================================================================== *)
(** * Properties in binary64 arithmetic *)

(** The binary64 operations are specified by [SpecFloat]: [Prim2SF] maps a
    number to its sign, mantissa and exponent, and every operation rounds
    the exact result with [binary_round_aux] (precision 53, exponents up to
    1024). *)

Section Binary64Facts.
Local Open Scope Z_scope.

(* ------------------------------------------------------------------ *)
(** ** The digits of a mantissa *)

Lemma digits2_size (p : positive) : digits2_pos p = Pos.size p.
Proof. induction p; simpl; congruence. Qed.

Lemma Zdigits2_log2 (m : Z) : 0 < m -> Zdigits2 m = Z.log2 m + 1.
Proof.
  destruct m as [|p|p]; try lia. intros _. simpl.
  rewrite digits2_size. destruct p; simpl; lia.
Qed.

Lemma Zdigits2_nonneg (m : Z) : 0 <= Zdigits2 m.
Proof. destruct m; simpl; lia. Qed.

Lemma Zdigits2_pos (m : Z) : 0 < m -> 0 < Zdigits2 m.
Proof. destruct m; simpl; lia. Qed.

Lemma Zdigits2_bounds (m : Z) :
  0 < m -> 2 ^ (Zdigits2 m - 1) <= m < 2 ^ Zdigits2 m.
Proof.
  intros H. rewrite (Zdigits2_log2 H).
  replace (Z.log2 m + 1 - 1) with (Z.log2 m) by lia.
  replace (Z.log2 m + 1) with (Z.succ (Z.log2 m)) by lia.
  now apply Z.log2_spec.
Qed.

Lemma Zdigits2_unique (m d : Z) :
  2 ^ (d - 1) <= m < 2 ^ d -> 0 < d -> Zdigits2 m = d.
Proof.
  intros H Hd.
  assert (Hm : 0 < m).
  { assert (0 < 2 ^ (d - 1)) by (apply Z.pow_pos_nonneg; lia). lia. }
  rewrite (Zdigits2_log2 Hm).
  assert (Z.log2 m = d - 1); [|lia].
  apply Z.log2_unique; [lia|].
  replace (Z.succ (d - 1)) with d by lia. exact H.
Qed.

Lemma Zdigits2_le (a b : Z) : 0 <= a <= b -> Zdigits2 a <= Zdigits2 b.
Proof.
  intros [Ha Hab]. destruct (Z.eq_dec a 0) as [->|Hne].
  - apply Zdigits2_nonneg.
  - rewrite !Zdigits2_log2 by lia.
    assert (Z.log2 a <= Z.log2 b) by (apply Z.log2_le_mono; lia). lia.
Qed.

Lemma Zdigits2_lt_pow (m k : Z) : 0 <= m -> 0 <= k -> m < 2 ^ k -> Zdigits2 m <= k.
Proof.
  intros Hm Hk H. destruct (Z.eq_dec m 0) as [->|Hne]; [simpl; lia|].
  rewrite Zdigits2_log2 by lia.
  assert (Z.log2 m < k); [|lia].
  apply Z.log2_lt_pow2; lia.
Qed.

Lemma Zdigits2_shiftr (m n : Z) :
  0 <= m -> 0 <= n -> Zdigits2 (Z.shiftr m n) = Z.max 0 (Zdigits2 m - n).
Proof.
  intros Hm Hn. destruct (Z.eq_dec m 0) as [->|Hne].
  - rewrite Z.shiftr_0_l. simpl. lia.
  - assert (Hpos : 0 < m) by lia.
    pose proof (Zdigits2_bounds Hpos) as [Hlo Hhi].
    pose proof (Zdigits2_pos Hpos) as Hd.
    rewrite Z.shiftr_div_pow2 by assumption.
    destruct (Z_lt_le_dec n (Zdigits2 m)) as [Hlt|Hge].
    + rewrite Z.max_r by lia. apply Zdigits2_unique; [|lia]. split.
      * apply Z.div_le_lower_bound; [apply Z.pow_pos_nonneg; lia|].
        rewrite <- Z.pow_add_r by lia.
        replace (n + (Zdigits2 m - n - 1)) with (Zdigits2 m - 1) by lia.
        exact Hlo.
      * apply Z.div_lt_upper_bound; [apply Z.pow_pos_nonneg; lia|].
        rewrite <- Z.pow_add_r by lia.
        replace (n + (Zdigits2 m - n)) with (Zdigits2 m) by lia. exact Hhi.
    + rewrite Z.max_l by lia.
      rewrite Z.div_small; [reflexivity|]. split; [lia|].
      apply Z.lt_le_trans with (2 ^ Zdigits2 m); [exact Hhi|].
      apply Z.pow_le_mono_r; lia.
Qed.

(** Digits of a successor: one more only at a power of two. *)
Lemma Zdigits2_succ (m : Z) :
  0 <= m ->
  Zdigits2 (m + 1) = Zdigits2 m \/
  (Zdigits2 (m + 1) = Zdigits2 m + 1 /\ m + 1 = 2 ^ Zdigits2 m).
Proof.
  intros Hm. destruct (Z.eq_dec m 0) as [->|Hne]; [right; split; reflexivity|].
  assert (Hpos : 0 < m) by lia.
  pose proof (Zdigits2_bounds Hpos) as [Hlo Hhi].
  pose proof (Zdigits2_pos Hpos) as Hd.
  destruct (Z.eq_dec (m + 1) (2 ^ Zdigits2 m)) as [E|Hne'].
  - right. split; [|exact E]. apply Zdigits2_unique; [|lia].
    replace (Zdigits2 m + 1 - 1) with (Zdigits2 m) by lia.
    rewrite E. split; [lia|]. apply Z.pow_lt_mono_r; lia.
  - left. apply Zdigits2_unique; [|lia]. lia.
Qed.

(* ------------------------------------------------------------------ *)
(** ** Rounding *)

(** Shifting the mantissa right. *)
Lemma shr_1_m (mrs : shr_record) :
  0 <= shr_m mrs -> shr_m (shr_1 mrs) = Z.shiftr (shr_m mrs) 1.
Proof.
  destruct mrs as [m r s]. simpl. intros Hm.
  rewrite <- Z.div2_spec.
  destruct m as [|[p|p|]|p]; try reflexivity; lia.
Qed.

Lemma iter_shr_m (n : positive) (mrs : shr_record) :
  0 <= shr_m mrs ->
  shr_m (iter_pos shr_1 n mrs) = Z.shiftr (shr_m mrs) (Zpos n).
Proof.
  revert mrs. induction n as [n IH|n IH|]; intros mrs Hm; simpl iter_pos.
  - assert (H1 : 0 <= shr_m (shr_1 mrs))
      by (rewrite shr_1_m by assumption; now apply Z.shiftr_nonneg).
    assert (H2 : 0 <= shr_m (iter_pos shr_1 n (shr_1 mrs)))
      by (rewrite IH by assumption; now apply Z.shiftr_nonneg).
    rewrite IH, IH, shr_1_m by assumption.
    rewrite !Z.shiftr_shiftr by lia. f_equal. lia.
  - assert (H2 : 0 <= shr_m (iter_pos shr_1 n mrs))
      by (rewrite IH by assumption; now apply Z.shiftr_nonneg).
    rewrite IH, IH by assumption.
    rewrite !Z.shiftr_shiftr by lia. f_equal. lia.
  - now apply shr_1_m.
Qed.

Lemma shr_m_record_of_loc (m : Z) (l : location) :
  shr_m (shr_record_of_loc m l) = m.
Proof. destruct l as [|[]]; reflexivity. Qed.

Lemma shr_fexp_spec (m e : Z) (l : location) :
  0 <= m ->
  let e' := Z.max e (fexp prec emax (Zdigits2 m + e)) in
  snd (shr_fexp prec emax m e l) = e' /\
  shr_m (fst (shr_fexp prec emax m e l)) = Z.shiftr m (e' - e).
Proof.
  intros Hm e'. unfold shr_fexp, shr.
  destruct (fexp prec emax (Zdigits2 m + e) - e) as [|p|p] eqn:E; cbn [fst snd].
  - split; [lia|]. rewrite shr_m_record_of_loc.
    replace (e' - e) with 0 by lia. now rewrite Z.shiftr_0_r.
  - split; [lia|]. rewrite iter_shr_m by (now rewrite shr_m_record_of_loc).
    rewrite shr_m_record_of_loc. f_equal. lia.
  - split; [lia|]. rewrite shr_m_record_of_loc.
    replace (e' - e) with 0 by lia. now rewrite Z.shiftr_0_r.
Qed.

Lemma round_nearest_even_bounds (m : Z) (l : location) :
  round_nearest_even m l = m \/ round_nearest_even m l = m + 1.
Proof.
  destruct l as [|[]]; simpl; auto. destruct (Z.even m); auto.
Qed.

(** [binary_round_aux] in closed form: the mantissa is shifted to the
    exponent of its format, rounded up by at most one unit, and shifted
    again. *)
Lemma binary_round_aux_spec (sx : bool) (mx ex : Z) (lx : location) :
  0 <= mx ->
  exists mr : Z,
    let e1 := Z.max ex (fexp prec emax (Zdigits2 mx + ex)) in
    let m1 := Z.shiftr mx (e1 - ex) in
    let e2 := Z.max e1 (fexp prec emax (Zdigits2 mr + e1)) in
    let m2 := Z.shiftr mr (e2 - e1) in
    (mr = m1 \/ mr = m1 + 1) /\
    binary_round_aux prec emax sx mx ex lx
    = match m2 with
      | Z0 => S754_zero sx
      | Zpos m => if e2 <=? emax - prec then S754_finite sx m e2
                  else S754_infinity sx
      | Zneg _ => S754_nan
      end.
Proof.
  intros Hmx. unfold binary_round_aux.
  pose proof (@shr_fexp_spec mx ex lx Hmx) as [He1 Hm1].
  destruct (shr_fexp prec emax mx ex lx) as [mrs' e'] eqn:E1.
  cbn [fst snd] in He1, Hm1.
  set (mr := round_nearest_even (shr_m mrs') (loc_of_shr_record mrs')).
  assert (Hm1' : 0 <= shr_m mrs') by (rewrite Hm1; now apply Z.shiftr_nonneg).
  assert (Hmr : 0 <= mr).
  { unfold mr.
    destruct (round_nearest_even_bounds (shr_m mrs') (loc_of_shr_record mrs'))
      as [-> | ->]; lia. }
  pose proof (@shr_fexp_spec mr e' loc_Exact Hmr) as [He2 Hm2].
  destruct (shr_fexp prec emax mr e' loc_Exact) as [mrs'' e''] eqn:E2.
  cbn [fst snd] in He2, Hm2.
  subst e' e''. exists mr. cbv zeta. rewrite <- Hm1, <- Hm2. split.
  - apply round_nearest_even_bounds.
  - reflexivity.
Qed.

(** Rounding a positive value of magnitude at least 1: the result is
    positive and its exponent is at least -52. *)
Lemma binary_round_aux_lower (sx : bool) (mx ex : Z) (lx : location) :
  0 < mx -> 1 <= Zdigits2 mx + ex ->
  binary_round_aux prec emax sx mx ex lx = S754_infinity sx \/
  exists m e, binary_round_aux prec emax sx mx ex lx = S754_finite sx m e /\
              -52 <= e.
Proof.
  intros Hmx Hmag.
  assert (Hmx0 : 0 <= mx) by lia.
  destruct (@binary_round_aux_spec sx mx ex lx Hmx0) as [mr [Hmr ->]].
  unfold fexp, emin, prec, emax in *.
  set (d := Zdigits2 mx) in *.
  set (e1 := Z.max ex (Z.max (d + ex - 53) (3 - 1024 - 53))) in *.
  set (m1 := Z.shiftr mx (e1 - ex)) in *.
  assert (Hm1 : 0 <= m1) by (now apply Z.shiftr_nonneg).
  assert (Hd1 : Zdigits2 m1 = Z.max 0 (d - (e1 - ex)))
    by (apply Zdigits2_shiftr; lia).
  assert (Hdr : Zdigits2 m1 <= Zdigits2 mr) by (apply Zdigits2_le; lia).
  assert (Hd0 : 0 < d) by (now apply Zdigits2_pos).
  set (dr := Zdigits2 mr) in *.
  set (e2 := Z.max e1 (Z.max (dr + e1 - 53) (3 - 1024 - 53))) in *.
  assert (Hd2 : Zdigits2 (Z.shiftr mr (e2 - e1)) = Z.max 0 (dr - (e2 - e1)))
    by (apply Zdigits2_shiftr; lia).
  destruct (Z.shiftr mr (e2 - e1)) as [|m2|m2] eqn:E2.
  - simpl in Hd2. lia.
  - destruct (e2 <=? 1024 - 53); [right|left; reflexivity].
    exists m2, e2. split; [reflexivity|lia].
  - simpl in Hd2. assert (0 <= Z.shiftr mr (e2 - e1)) by (apply Z.shiftr_nonneg; lia).
    lia.
Qed.

(** Rounding a value below 1: the result is at most 1. *)
Lemma binary_round_aux_upper (sx : bool) (mx ex : Z) (lx : location) :
  0 <= mx -> Zdigits2 mx + ex <= 0 -> ex <= -53 ->
  binary_round_aux prec emax sx mx ex lx = S754_zero sx \/
  exists m e, binary_round_aux prec emax sx mx ex lx = S754_finite sx m e /\
              (e <= -53 \/ (e = -52 /\ m = 4503599627370496%positive)).
Proof.
  intros Hmx0 Hmag Hex.
  destruct (@binary_round_aux_spec sx mx ex lx Hmx0) as [mr [Hmr ->]].
  unfold fexp, emin, prec, emax in *.
  set (d := Zdigits2 mx) in *.
  set (e1 := Z.max ex (Z.max (d + ex - 53) (3 - 1024 - 53))) in *.
  set (m1 := Z.shiftr mx (e1 - ex)) in *.
  assert (Hm1 : 0 <= m1) by (now apply Z.shiftr_nonneg).
  assert (Hd1 : Zdigits2 m1 = Z.max 0 (d - (e1 - ex)))
    by (apply Zdigits2_shiftr; lia).
  assert (Hd0 : 0 <= d) by apply Zdigits2_nonneg.
  assert (Hdr : Zdigits2 mr = Zdigits2 m1 \/
                (Zdigits2 mr = Zdigits2 m1 + 1 /\ mr = 2 ^ Zdigits2 m1)).
  { destruct Hmr as [->| ->]; [now left|]. now apply Zdigits2_succ. }
  assert (Hmr0 : 0 <= mr) by lia.
  set (dr := Zdigits2 mr) in *.
  set (e2 := Z.max e1 (Z.max (dr + e1 - 53) (3 - 1024 - 53))) in *.
  assert (He2 : e2 <= -52) by lia.
  destruct (Z.shiftr mr (e2 - e1)) as [|m2|m2] eqn:E2.
  - now left.
  - right. replace (e2 <=? 1024 - 53) with true by (symmetry; apply Z.leb_le; lia).
    exists m2, e2. split; [reflexivity|].
    destruct (Z.eq_dec e2 (-52)) as [E|Hne]; [right|left; lia].
    split; [exact E|].
    destruct Hdr as [Hdr|[Hdr Hpow]]; [lia|].
    assert (Hd1' : Zdigits2 m1 = - e1) by lia.
    rewrite Hpow, Hd1', E in E2.
    rewrite Z.shiftr_div_pow2, <- Z.pow_sub_r in E2 by lia.
    replace (- e1 - (-52 - e1)) with 52 in E2 by lia.
    change (2 ^ 52) with (Zpos 4503599627370496) in E2. congruence.
  - assert (0 <= Z.shiftr mr (e2 - e1)) by (apply Z.shiftr_nonneg; lia). lia.
Qed.

(* ------------------------------------------------------------------ *)
(** ** [1 + e] and [1 / s] *)

Lemma iter_xO (m d : positive) :
  Zpos (Pos.iter xO m d) = Zpos m * 2 ^ Zpos d.
Proof.
  induction d as [|d IH] using Pos.peano_ind.
  - simpl. lia.
  - rewrite Pos.iter_succ, Pos2Z.inj_succ, Z.pow_succ_r by lia.
    rewrite Pos2Z.inj_xO, IH. lia.
Qed.

(** [shl_align] moves the exponent down to [ex'] when that is below [ex]. *)
Lemma shl_align_spec (mx : positive) (ex ex' : Z) :
  snd (shl_align mx ex ex') = Z.min ex ex' /\
  Zpos (fst (shl_align mx ex ex')) = Zpos mx * 2 ^ (ex - Z.min ex ex').
Proof.
  unfold shl_align. destruct (ex' - ex) as [|d|d] eqn:E; cbn [fst snd].
  - replace (ex - Z.min ex ex') with 0 by lia. simpl. lia.
  - replace (ex - Z.min ex ex') with 0 by lia. simpl. lia.
  - rewrite iter_xO. replace (ex - Z.min ex ex') with (Zpos d) by lia. lia.
Qed.

Lemma Zdigits2_mul_pow2 (m k : Z) :
  0 < m -> 0 <= k -> Zdigits2 (m * 2 ^ k) = Zdigits2 m + k.
Proof.
  intros Hm Hk. pose proof (Zdigits2_bounds Hm) as [Hlo Hhi].
  pose proof (Zdigits2_pos Hm) as Hd.
  assert (H2k : 0 < 2 ^ k) by (apply Z.pow_pos_nonneg; lia).
  apply Zdigits2_unique; [|lia]. split.
  - replace (Zdigits2 m + k - 1) with (Zdigits2 m - 1 + k) by lia.
    rewrite Z.pow_add_r by lia. now apply Z.mul_le_mono_nonneg_r; [lia|].
  - rewrite Z.pow_add_r by lia. now apply Z.mul_lt_mono_pos_r.
Qed.

(** A valid number with exponent at least -52 is normal: 53 digits. *)
Lemma valid_normal (s : bool) (m : positive) (e : Z) :
  valid_binary (S754_finite s m e) = true -> -52 <= e ->
  Zdigits2 (Zpos m) = 53 /\ e <= 971.
Proof.
  unfold SpecFloat.valid_binary, bounded, canonical_mantissa, fexp, emin, prec, emax.
  intros H He. apply andb_prop in H as [H1 H2].
  apply Z.eqb_eq in H1. apply Z.leb_le in H2. simpl Zdigits2. lia.
Qed.

Lemma compare_cont_le (a b : positive) :
  Zpos a <= Zpos b ->
  match PosDef.Pos.compare_cont Eq a b with Gt => false | _ => true end = true.
Proof.
  intros H. change (PosDef.Pos.compare_cont Eq a b) with (Pos.compare a b).
  destruct (Pos.compare_spec a b); try reflexivity. lia.
Qed.

Lemma Prim2SF_one : Prim2SF 1 = S754_finite false 4503599627370496 (-52).
Proof. reflexivity. Qed.

Lemma Prim2SF_zero : Prim2SF 0 = S754_zero false.
Proof. reflexivity. Qed.

(** [1 <= 1 + e] for every [e >= 0]. *)
Lemma add_one_ge_one (e : float) :
  (0 <=? e)%float = true -> (1 <=? 1 + e)%float = true.
Proof.
  intros He. rewrite leb_spec in *.
  pose proof (Prim2SF_valid (1 + e)) as Hvalid.
  rewrite add_spec in *. rewrite Prim2SF_one, Prim2SF_zero in *.
  pose proof (Prim2SF_valid e) as Hve.
  destruct (Prim2SF e) as [s|s| |s m ee]; try discriminate.
  - destruct s; reflexivity.
  - destruct s; [discriminate|reflexivity].
  - destruct s; [discriminate|]. clear He.
    unfold SF64add, SFadd in *. cbn [cond_Zopp] in *.
    set (ez := Z.min (-52) ee) in *.
    pose proof (shl_align_spec 4503599627370496 (-52) ez) as [_ Ha1].
    pose proof (shl_align_spec m ee ez) as [_ Ha2].
    set (a1 := fst (shl_align 4503599627370496 (-52) ez)) in *.
    set (a2 := fst (shl_align m ee ez)) in *.
    change (Zpos a1 + Zpos a2) with (Zpos (a1 + a2)) in *.
    cbn [binary_normalize] in *. unfold binary_round in *.
    pose proof (shl_align_spec (a1 + a2) ez
                  (fexp prec emax (Zpos (digits2_pos (a1 + a2)) + ez)))
      as [Hez Hmz].
    destruct (shl_align (a1 + a2) ez
                (fexp prec emax (Zpos (digits2_pos (a1 + a2)) + ez)))
      as [mz ez'] eqn:E.
    cbn [fst snd] in Hez, Hmz.
    assert (Hmag : 1 <= Zdigits2 (Zpos mz) + ez').
    { rewrite Hmz, Zdigits2_mul_pow2 by lia.
      assert (Hd1 : Zdigits2 (Zpos a1) = 1 - ez).
      { rewrite Ha1, Zdigits2_mul_pow2 by lia.
        replace (Z.min (-52) ez) with ez by lia. simpl Zdigits2. lia. }
      assert (Zdigits2 (Zpos a1) <= Zdigits2 (Zpos (a1 + a2)))
        by (apply Zdigits2_le; lia).
      lia. }
    destruct (@binary_round_aux_lower false (Zpos mz) ez' loc_Exact
                ltac:(lia) Hmag) as [Hr|[m' [e' [Hr He']]]];
      rewrite Hr in *; [reflexivity|].
    destruct (@valid_normal _ _ _ Hvalid He') as [Hd _].
    pose proof (@Zdigits2_bounds (Zpos m') ltac:(lia)) as [Hlo _].
    rewrite Hd in Hlo. change (2 ^ (53 - 1)) with (Zpos 4503599627370496) in Hlo.
    unfold SFleb, SFcompare.
    destruct (Z.compare_spec (-52) e') as [E'|E'|E']; [|reflexivity|lia].
    now apply compare_cont_le.
Qed.

(** The quotient that [SFdiv] rounds when 1 is divided by a number above 1. *)
Lemma div_core_one (m2 : positive) (e2 : Z) :
  Zdigits2 (Zpos m2) = 53 -> -52 <= e2 <= 971 ->
  (e2 = -52 -> Zpos m2 <> 2 ^ 52) ->
  let '(q, e', _) :=
    SFdiv_core_binary prec emax 4503599627370496 (-52) (Zpos m2) e2 in
  0 <= q /\ Zdigits2 q + e' <= 0 /\ e' <= -53.
Proof.
  intros Hd2 He2 Hne.
  pose proof (@Zdigits2_bounds (Zpos m2) ltac:(lia)) as [Hlo _].
  rewrite Hd2 in Hlo. replace (53 - 1) with 52 in Hlo by lia.
  unfold SFdiv_core_binary, fexp, emin, prec, emax. rewrite Hd2.
  change (Zdigits2 4503599627370496) with 53.
  set (e' := Z.min (Z.max (53 + -52 - (53 + e2) - 53) (3 - 1024 - 53)) (-52 - e2)).
  assert (He' : e' = Z.max (-105 - e2) (-1074)) by lia.
  set (s := -52 - e2 - e').
  assert (Hs : 51 <= s <= 53) by lia.
  destruct s as [|p|p] eqn:Es; try lia. rewrite <- Es in *.
  destruct (Z.div_eucl (Z.shiftl 4503599627370496 s) (Zpos m2)) as [q r] eqn:E.
  assert (Hq : q = Z.shiftl 4503599627370496 s / Zpos m2)
    by (unfold Z.div; now rewrite E).
  rewrite Z.shiftl_mul_pow2 in Hq by lia.
  change 4503599627370496 with (2 ^ 52) in Hq.
  assert (H2s : 0 < 2 ^ s) by (apply Z.pow_pos_nonneg; lia).
  assert (H252 : 0 < 2 ^ 52) by (apply Z.pow_pos_nonneg; lia).
  assert (Hq0 : 0 <= q).
  { rewrite Hq. apply Z.div_pos; [|lia]. apply Z.mul_nonneg_nonneg; lia. }
  split; [exact Hq0|]. split; [|lia].
  assert (Hlt : q < 2 ^ (- e')).
  { rewrite Hq. apply Z.div_lt_upper_bound; [lia|].
    replace (- e') with (s + (52 + e2)) by lia.
    rewrite Z.pow_add_r by lia.
    assert (HQ : 2 ^ 52 < Zpos m2 * 2 ^ (52 + e2)).
    { destruct (Z.eq_dec e2 (-52)) as [->|Hne2].
      - specialize (Hne eq_refl). simpl (52 + -52). rewrite Z.pow_0_r. lia.
      - assert (2 ^ 1 <= 2 ^ (52 + e2)) by (apply Z.pow_le_mono_r; lia).
        rewrite Z.pow_1_r in *.
        assert (Zpos m2 * 2 <= Zpos m2 * 2 ^ (52 + e2))
          by (apply Z.mul_le_mono_nonneg_l; lia).
        lia. }
    rewrite (Z.mul_comm (2 ^ 52)), Z.mul_assoc, (Z.mul_comm (Zpos m2)).
    rewrite <- Z.mul_assoc. now apply Z.mul_lt_mono_pos_l. }
  assert (Zdigits2 q <= - e') by (apply Zdigits2_lt_pow; lia). lia.
Qed.

Lemma div_one_finite (m2 : positive) (e2 : Z) :
  Zdigits2 (Zpos m2) = 53 -> -52 <= e2 <= 971 ->
  (e2 = -52 -> Zpos m2 <> 2 ^ 52) ->
  let r := SF64div (S754_finite false 4503599627370496 (-52))
                   (S754_finite false m2 e2) in
  SFleb (S754_zero false) r = true /\
  SFleb r (S754_finite false 4503599627370496 (-52)) = true.
Proof.
  intros Hd2 He2 Hne. pose proof (div_core_one Hd2 He2 Hne) as Hcore.
  unfold SF64div, SFdiv. cbn [xorb].
  destruct (SFdiv_core_binary prec emax 4503599627370496 (-52) (Zpos m2) e2)
    as [[q e'] l].
  destruct Hcore as [Hq [Hmag He']].
  destruct (@binary_round_aux_upper false q e' l Hq Hmag He')
    as [Hr|[m [e [Hr Hcase]]]]; cbv zeta; rewrite Hr.
  - split; reflexivity.
  - split; [reflexivity|]. unfold SFleb, SFcompare.
    destruct Hcase as [Hlt|[-> ->]].
    + destruct (Z.compare_spec e (-52)); reflexivity || lia.
    + rewrite Z.compare_refl. now apply compare_cont_le.
Qed.

(** [0 <= 1 / s <= 1] for every [s >= 1]. *)
Lemma div_one_le_one (s : float) :
  (1 <=? s)%float = true ->
  (0 <=? 1 / s)%float = true /\ (1 / s <=? 1)%float = true.
Proof.
  intros Hs. rewrite leb_spec in Hs.
  pose proof (Prim2SF_valid s) as Hvs.
  destruct (Prim2SF s) as [sg|sg| |sg m2 e2] eqn:Es; try discriminate.
  - destruct sg; [discriminate|].
    rewrite !leb_spec, div_spec, Es, Prim2SF_one, Prim2SF_zero.
    split; reflexivity.
  - rewrite Prim2SF_one in Hs. destruct sg; [discriminate|].
    assert (He2 : -52 <= e2).
    { unfold SFleb, SFcompare in Hs.
      destruct (Z.compare_spec (-52) e2); lia || discriminate. }
    destruct (@valid_normal _ _ _ Hvs He2) as [Hd2 He2'].
    destruct (Z.eq_dec e2 (-52)) as [E|Hne].
    + destruct (Pos.eq_dec m2 4503599627370496) as [Em|Hnm].
      * subst e2 m2. rewrite <- Prim2SF_one in Es. apply Prim2SF_inj in Es.
        subst s. split; reflexivity.
      * rewrite !leb_spec, div_spec, Es, Prim2SF_one, Prim2SF_zero.
        apply (div_one_finite Hd2); [lia|]. intros _ Hm. apply Hnm.
        change (2 ^ 52) with (Zpos 4503599627370496) in Hm. congruence.
    + rewrite !leb_spec, div_spec, Es, Prim2SF_one, Prim2SF_zero.
      apply (div_one_finite Hd2); [lia|]. intros E. lia.
Qed.



(* ------------------------------------------------------------------ *)
(** ** The order of binary64 numbers *)

Lemma SFcompare_antisym (x y : spec_float) :
  SFcompare y x = option_map CompOpp (SFcompare x y).
Proof.
  destruct x as [s1|s1| |s1 m1 e1], y as [s2|s2| |s2 m2 e2];
    try reflexivity; try (destruct s1; reflexivity);
    try (destruct s2; reflexivity); try (destruct s1, s2; reflexivity).
  unfold SFcompare. cbn [option_map]. f_equal.
  rewrite (Z.compare_antisym e1 e2).
  change (PosDef.Pos.compare_cont Eq m2 m1) with (Pos.compare m2 m1).
  change (PosDef.Pos.compare_cont Eq m1 m2) with (Pos.compare m1 m2).
  rewrite (Pos.compare_antisym m1 m2).
  destruct s1, s2, (e1 ?= e2), (Pos.compare m1 m2); reflexivity.
Qed.

Lemma SFcompare_refl (x : spec_float) :
  x <> S754_nan -> SFcompare x x = Some Eq.
Proof.
  destruct x as [s|s| |s m e]; try congruence; intros _;
    try (destruct s; reflexivity).
  unfold SFcompare. rewrite Z.compare_refl.
  change (PosDef.Pos.compare_cont Eq m m) with (Pos.compare m m).
  rewrite Pos.compare_refl. destruct s; reflexivity.
Qed.

Lemma SFcompare_none (x y : spec_float) :
  x <> S754_nan -> y <> S754_nan -> SFcompare x y <> None.
Proof.
  destruct x as [s1|s1| |s1 m1 e1], y as [s2|s2| |s2 m2 e2];
    try congruence; intros _ _; simpl; congruence.
Qed.

Lemma is_nan_spec (x : float) :
  is_nan x = match Prim2SF x with S754_nan => true | _ => false end.
Proof.
  unfold is_nan. rewrite eqb_spec. unfold SFeqb.
  destruct (Prim2SF x) as [s|s| |s m e] eqn:E; try reflexivity;
    rewrite SFcompare_refl by congruence; reflexivity.
Qed.

Lemma is_nan_false (x : float) : is_nan x = false <-> Prim2SF x <> S754_nan.
Proof.
  rewrite is_nan_spec. destruct (Prim2SF x); split; congruence.
Qed.

Lemma is_nan_true (x : float) : is_nan x = true -> x = nan.
Proof.
  rewrite is_nan_spec. intros H. apply Prim2SF_inj.
  destruct (Prim2SF x); try discriminate. reflexivity.
Qed.

Lemma is_nan_opp (x : float) : is_nan (- x) = is_nan x.
Proof.
  rewrite !is_nan_spec, opp_spec. now destruct (Prim2SF x).
Qed.

Lemma ltb_leb (a b : float) : (a <? b)%float = true -> (a <=? b)%float = true.
Proof.
  rewrite ltb_spec, leb_spec. unfold SFltb, SFleb.
  now destruct (SFcompare (Prim2SF a) (Prim2SF b)) as [[]|].
Qed.

Lemma not_ltb_leb (a b : float) :
  is_nan a = false -> is_nan b = false ->
  (a <? b)%float = false -> (b <=? a)%float = true.
Proof.
  rewrite ltb_spec, leb_spec, !is_nan_false. unfold SFltb, SFleb.
  intros Ha Hb. rewrite (SFcompare_antisym (Prim2SF a) (Prim2SF b)).
  pose proof (SFcompare_none Ha Hb) as Hnone.
  destruct (SFcompare (Prim2SF a) (Prim2SF b)) as [[]|];
    try reflexivity; try discriminate; congruence.
Qed.

Lemma leb_not_nan (a b : float) :
  (a <=? b)%float = true -> is_nan a = false /\ is_nan b = false.
Proof.
  rewrite leb_spec, !is_nan_spec. unfold SFleb.
  destruct (Prim2SF a), (Prim2SF b); simpl; try discriminate; auto.
Qed.

Lemma leb_refl (a : float) : is_nan a = false -> (a <=? a)%float = true.
Proof.
  rewrite leb_spec, is_nan_false. unfold SFleb. intros H.
  now rewrite SFcompare_refl.
Qed.

Lemma eqb_zero (w : float) :
  (0 <=? w)%float = true -> (0 <? w)%float = false -> (0 =? w)%float = true.
Proof.
  rewrite leb_spec, ltb_spec, eqb_spec. unfold SFleb, SFltb, SFeqb.
  now destruct (SFcompare (Prim2SF 0) (Prim2SF w)) as [[]|].
Qed.

(* ------------------------------------------------------------------ *)
(** ** The clamp [Math.max(0, Math.min(1, weight))] *)

Lemma Math_min_one (w : float) :
  is_nan w = false ->
  (Binary64.Math_min 1 w = 1%float \/ Binary64.Math_min 1 w = w) /\
  (Binary64.Math_min 1 w <=? 1)%float = true.
Proof.
  intros Hw. unfold Binary64.Math_min. change (is_nan 1) with false.
  rewrite Hw. cbn [orb].
  destruct (1 <? w)%float eqn:E1; [split; [now left|reflexivity]|].
  assert (Hle : (w <=? 1)%float = true) by (now apply not_ltb_leb).
  change (classify 1) with PNormal.
  destruct (w <? 1)%float; split; auto.
Qed.

Lemma safeWeight_cases (w : float) :
  is_nan w = false ->
  Binary64.safeWeight w = 0%float \/
  (Binary64.safeWeight w = Binary64.Math_min 1 w /\
   (0 <? Binary64.Math_min 1 w)%float = true).
Proof.
  intros Hw. unfold Binary64.safeWeight.
  destruct (@Math_min_one w Hw) as [Hm Hle]. apply leb_not_nan in Hle as [Hnan _].
  set (m := Binary64.Math_min 1 w) in *.
  unfold Binary64.Math_max. change (is_nan 0) with false. rewrite Hnan.
  cbn [orb]. change (classify 0) with PZero.
  destruct (0 <? m)%float; [right; now split|].
  destruct (m <? 0)%float; now left.
Qed.

Lemma safeWeight_inside (w : float) :
  is_nan w = false -> Binary64.inside (Binary64.safeWeight w) = true.
Proof.
  intros Hw. destruct (@safeWeight_cases w Hw) as [-> | [-> Hpos]]; [reflexivity|].
  unfold Binary64.inside. destruct (@Math_min_one w Hw) as [_ ->].
  now rewrite (@ltb_leb _ _ Hpos).
Qed.

Lemma safeWeight_keeps (w : float) :
  Binary64.inside w = true -> (Binary64.safeWeight w =? w)%float = true.
Proof.
  unfold Binary64.inside. intros H. apply andb_prop in H as [H0 H1].
  destruct (@leb_not_nan _ _ H0) as [_ Hw].
  assert (Hmin : Binary64.Math_min 1 w = w).
  { unfold Binary64.Math_min. change (is_nan 1) with false. rewrite Hw.
    cbn [orb]. change (classify 1) with PNormal.
    destruct (1 <? w)%float eqn:E1; [|now destruct (w <? 1)%float].
    rewrite leb_spec in H1. rewrite ltb_spec in E1.
    exfalso. revert H1 E1. unfold SFleb, SFltb.
    rewrite (SFcompare_antisym (Prim2SF 1) (Prim2SF w)).
    now destruct (SFcompare (Prim2SF 1) (Prim2SF w)) as [[]|]. }
  unfold Binary64.safeWeight. rewrite Hmin. unfold Binary64.Math_max.
  change (is_nan 0) with false. rewrite Hw. cbn [orb].
  change (classify 0) with PZero.
  destruct (0 <? w)%float eqn:E0.
  - rewrite eqb_spec. unfold SFeqb. apply is_nan_false in Hw.
    now rewrite SFcompare_refl.
  - pose proof (@eqb_zero _ H0 E0) as Hz. now destruct (w <? 0)%float.
Qed.

(* ------------------------------------------------------------------ *)
(** ** The range of [sigmoid] *)

Lemma Math_exp_nonneg (approx : float -> float) (x : float) :
  (forall y, (0 <=? approx y)%float = true) -> is_nan x = false ->
  (0 <=? Binary64.Math_exp approx x)%float = true.
Proof.
  intros Happrox Hx. unfold Binary64.Math_exp. rewrite Hx.
  destruct (is_zero x); [reflexivity|].
  destruct (x =? infinity)%float; [reflexivity|].
  destruct (x =? neg_infinity)%float; [reflexivity|]. apply Happrox.
Qed.

Lemma sigmoid_inside (approx : float -> float) (x : float) :
  (forall y, (0 <=? approx y)%float = true) -> is_nan x = false ->
  Binary64.inside (Binary64.sigmoid approx x) = true.
Proof.
  intros Happrox Hx. unfold Binary64.sigmoid, Binary64.inside.
  assert (Hopp : is_nan (- x) = false) by (now rewrite is_nan_opp).
  pose proof (@Math_exp_nonneg approx (- x)%float Happrox Hopp) as Hexp.
  apply add_one_ge_one in Hexp. apply div_one_le_one in Hexp as [-> ->].
  reflexivity.
Qed.

Lemma sigmoid_nan (approx : float -> float) (x : float) :
  is_nan x = true -> Binary64.sigmoid approx x = nan.
Proof. intros H. apply is_nan_true in H. subst x. reflexivity. Qed.

(* ------------------------------------------------------------------ *)
(** ** Sums, products and differences that stay numbers *)

(** A rounded result is a number, with the sign given. *)
Lemma binary_round_aux_number (sx : bool) (mx ex : Z) (lx : location) :
  0 <= mx ->
  binary_round_aux prec emax sx mx ex lx = S754_zero sx \/
  binary_round_aux prec emax sx mx ex lx = S754_infinity sx \/
  exists m e, binary_round_aux prec emax sx mx ex lx = S754_finite sx m e.
Proof.
  intros Hmx. destruct (@binary_round_aux_spec sx mx ex lx Hmx) as [mr [Hmr ->]].
  cbv zeta.
  set (e1 := Z.max ex (fexp prec emax (Zdigits2 mx + ex))) in *.
  set (e2 := Z.max e1 (fexp prec emax (Zdigits2 mr + e1))).
  assert (Hm1 : 0 <= Z.shiftr mx (e1 - ex)) by (now apply Z.shiftr_nonneg).
  assert (Hm2 : 0 <= Z.shiftr mr (e2 - e1)) by (apply Z.shiftr_nonneg; lia).
  destruct (Z.shiftr mr (e2 - e1)) as [|m|m]; [now left| |lia].
  right. destruct (e2 <=? emax - prec); [right; eauto|now left].
Qed.

Lemma is_finite_spec (x : float) :
  is_finite x
  = match Prim2SF x with
    | S754_zero _ | S754_finite _ _ _ => true
    | _ => false
    end.
Proof.
  unfold is_finite, is_infinity. rewrite is_nan_spec, eqb_spec, abs_spec.
  change (Prim2SF infinity) with (S754_infinity false).
  destruct (Prim2SF x) as [s|s| |s m e]; reflexivity.
Qed.

Lemma binary_round_number (sx : bool) (m : positive) (e : Z) :
  binary_round prec emax sx m e <> S754_nan.
Proof.
  unfold binary_round.
  destruct (shl_align m e (fexp prec emax (Zpos (digits2_pos m) + e))) as [mz ez].
  destruct (@binary_round_aux_number sx (Zpos mz) ez loc_Exact ltac:(lia))
    as [->|[->|[m' [e' ->]]]]; discriminate.
Qed.

Lemma binary_normalize_number (m e : Z) (s : bool) :
  binary_normalize prec emax m e s <> S754_nan.
Proof.
  destruct m; simpl; [discriminate| |]; apply binary_round_number.
Qed.

(** A sum is [NaN] only for a [NaN] argument or two infinities. *)
Lemma add_number_l (a b : float) :
  is_nan a = false -> is_finite b = true -> is_nan (a + b) = false.
Proof.
  rewrite !is_nan_spec, is_finite_spec, add_spec. unfold SF64add, SFadd.
  destruct (Prim2SF a) as [sa|sa| |sa ma ea], (Prim2SF b) as [sb|sb| |sb mb eb];
    try discriminate; intros _ _; try reflexivity.
  - now destruct sa, sb.
  - match goal with
    | |- match ?r with _ => _ end = false =>
        pose proof (@binary_normalize_number
                      (cond_Zopp sa (Zpos (fst (shl_align ma ea (Z.min ea eb))))
                       + cond_Zopp sb (Zpos (fst (shl_align mb eb (Z.min ea eb)))))
                      (Z.min ea eb) false) as H;
        destruct r; try reflexivity; congruence
    end.
Qed.

Lemma add_number_r (a b : float) :
  is_finite a = true -> is_nan b = false -> is_nan (a + b) = false.
Proof.
  rewrite !is_nan_spec, is_finite_spec, add_spec. unfold SF64add, SFadd.
  destruct (Prim2SF a) as [sa|sa| |sa ma ea], (Prim2SF b) as [sb|sb| |sb mb eb];
    try discriminate; intros _ _; try reflexivity.
  - now destruct sa, sb.
  - match goal with
    | |- match ?r with _ => _ end = false =>
        pose proof (@binary_normalize_number
                      (cond_Zopp sa (Zpos (fst (shl_align ma ea (Z.min ea eb))))
                       + cond_Zopp sb (Zpos (fst (shl_align mb eb (Z.min ea eb)))))
                      (Z.min ea eb) false) as H;
        destruct r; try reflexivity; congruence
    end.
Qed.

(** Shifting out zero bits is exact. *)
Lemma shr_1_exact (m : Z) :
  0 <= m ->
  shr_1 {| shr_m := m * 2; shr_r := false; shr_s := false |}
  = {| shr_m := m; shr_r := false; shr_s := false |}.
Proof.
  intros Hm. destruct m as [|p|p]; [reflexivity| |lia].
  replace (Zpos p * 2) with (Zpos p~0) by lia. reflexivity.
Qed.

Lemma iter_shr_exact (n : positive) (m : Z) :
  0 <= m ->
  iter_pos shr_1 n {| shr_m := m * 2 ^ Zpos n; shr_r := false; shr_s := false |}
  = {| shr_m := m; shr_r := false; shr_s := false |}.
Proof.
  revert m. induction n as [n IH|n IH|]; intros m Hm.
  - assert (Hpow : 2 ^ Zpos n~1 = 2 ^ Zpos n * 2 ^ Zpos n * 2).
    { assert (E : Zpos n~1 = Zpos n + Zpos n + 1) by lia.
      rewrite E, !Z.pow_add_r, Z.pow_1_r by lia. reflexivity. }
    rewrite Hpow, !Z.mul_assoc.
    assert (0 <= m * 2 ^ Zpos n) by (apply Z.mul_nonneg_nonneg; lia).
    cbn [iter_pos].
    rewrite shr_1_exact by (apply Z.mul_nonneg_nonneg; lia).
    rewrite IH by assumption. now apply IH.
  - assert (Hpow : 2 ^ Zpos n~0 = 2 ^ Zpos n * 2 ^ Zpos n).
    { assert (E : Zpos n~0 = Zpos n + Zpos n) by lia.
      rewrite E, Z.pow_add_r by lia. reflexivity. }
    rewrite Hpow, !Z.mul_assoc.
    assert (0 <= m * 2 ^ Zpos n) by (apply Z.mul_nonneg_nonneg; lia).
    cbn [iter_pos]. rewrite IH by assumption. now apply IH.
  - cbn [iter_pos]. rewrite Z.pow_1_r. now apply shr_1_exact.
Qed.

Lemma valid_canonical (s : bool) (m : positive) (e : Z) :
  valid_binary (S754_finite s m e) = true ->
  fexp prec emax (Zdigits2 (Zpos m) + e) = e /\ e <= 971.
Proof.
  unfold SpecFloat.valid_binary, bounded, canonical_mantissa, prec, emax.
  intros H. apply andb_prop in H as [H1 H2].
  apply Z.eqb_eq in H1. apply Z.leb_le in H2. simpl Zdigits2. lia.
Qed.

(** [x * 1] is [x]. *)
Lemma SFmul_one (s : bool) (m : positive) (e : Z) :
  valid_binary (S754_finite s m e) = true ->
  SF64mul (S754_finite s m e) (S754_finite false 4503599627370496 (-52))
  = S754_finite s m e.
Proof.
  intros Hv. destruct (@valid_canonical _ _ _ Hv) as [Hcan He].
  unfold SF64mul, SFmul, binary_round_aux. rewrite xorb_false_r.
  assert (Hd : Zdigits2 (Zpos (m * 4503599627370496)) = Zdigits2 (Zpos m) + 52).
  { rewrite Pos2Z.inj_mul. change (Zpos 4503599627370496) with (2 ^ 52).
    apply Zdigits2_mul_pow2; lia. }
  unfold shr_fexp at 1. rewrite Hd.
  replace (Zdigits2 (Zpos m) + 52 + (e + -52)) with (Zdigits2 (Zpos m) + e) by lia.
  rewrite Hcan. replace (e - (e + -52)) with 52 by lia.
  cbn [shr shr_record_of_loc]. rewrite Pos2Z.inj_mul.
  change (Zpos 4503599627370496) with (2 ^ Zpos 52).
  rewrite iter_shr_exact by lia.
  cbn [shr_m loc_of_shr_record round_nearest_even].
  replace (e + -52 + 52) with e by lia.
  unfold shr_fexp. rewrite Hcan, Z.sub_diag.
  cbn [shr shr_record_of_loc shr_m].
  replace (e <=? emax - prec) with true; [reflexivity|].
  symmetry. apply Z.leb_le. unfold emax, prec. lia.
Qed.

Lemma SFleb_finite (m1 m2 : positive) (e1 e2 : Z) :
  SFleb (S754_finite false m1 e1) (S754_finite false m2 e2) = true ->
  e1 < e2 \/ (e1 = e2 /\ Zpos m1 <= Zpos m2).
Proof.
  unfold SFleb, SFcompare.
  change (PosDef.Pos.compare_cont Eq m1 m2) with (Pos.compare m1 m2).
  destruct (Z.compare_spec e1 e2); [right|now left|discriminate].
  split; [assumption|].
  destruct (Pos.compare_spec m1 m2); lia || discriminate.
Qed.

Lemma fexp_le (x y : Z) : x <= y -> fexp prec emax x <= fexp prec emax y.
Proof. unfold fexp, emin, prec, emax. lia. Qed.

(** A number times a number below 1 does not overflow. *)
Lemma SFmul_below_one (sa : bool) (ma mw : positive) (ea ew : Z) :
  valid_binary (S754_finite sa ma ea) = true ->
  valid_binary (S754_finite false mw ew) = true -> ew <= -53 ->
  match SF64mul (S754_finite sa ma ea) (S754_finite false mw ew) with
  | S754_zero _ | S754_finite _ _ _ => true
  | _ => false
  end = true.
Proof.
  intros Hva Hvw Hew.
  destruct (@valid_canonical _ _ _ Hva) as [Hcana Hea].
  destruct (@valid_canonical _ _ _ Hvw) as [Hcanw _].
  unfold SF64mul, SFmul.
  destruct (@binary_round_aux_spec (xorb sa false) (Zpos (ma * mw)) (ea + ew)
              loc_Exact ltac:(lia)) as [mr [Hmr ->]].
  cbv zeta.
  set (da := Zdigits2 (Zpos ma)) in *. set (dw := Zdigits2 (Zpos mw)) in *.
  set (D := Zdigits2 (Zpos (ma * mw))) in *.
  pose proof (@Zdigits2_bounds (Zpos ma) ltac:(lia)) as [_ Hma]. fold da in Hma.
  pose proof (@Zdigits2_bounds (Zpos mw) ltac:(lia)) as [_ Hmw]. fold dw in Hmw.
  assert (Hda : 0 < da) by (apply Zdigits2_pos; lia).
  assert (Hdw : dw <= - ew) by (unfold fexp, emin, prec, emax in Hcanw; lia).
  assert (Hmw' : Zpos mw < 2 ^ (- ew)).
  { apply Z.lt_le_trans with (2 ^ dw); [exact Hmw|].
    apply Z.pow_le_mono_r; lia. }
  assert (H2w : 0 < 2 ^ (- ew)) by (apply Z.pow_pos_nonneg; lia).
  assert (HP : Zpos (ma * mw) < Zpos ma * 2 ^ (- ew)).
  { rewrite Pos2Z.inj_mul. apply Z.mul_lt_mono_pos_l; lia. }
  assert (HD : D <= da - ew).
  { apply Zdigits2_lt_pow; [lia|lia|].
    apply Z.lt_trans with (Zpos ma * 2 ^ (- ew)); [exact HP|].
    replace (da - ew) with (da + - ew) by lia. rewrite Z.pow_add_r by lia.
    apply Z.mul_lt_mono_pos_r; lia. }
  set (e1 := Z.max (ea + ew) (fexp prec emax (D + (ea + ew)))) in *.
  assert (Hf : fexp prec emax (D + (ea + ew)) <= ea).
  { rewrite <- Hcana. apply fexp_le. lia. }
  set (m1 := Z.shiftr (Zpos (ma * mw)) (e1 - (ea + ew))) in *.
  assert (Hm1 : 0 <= m1) by (apply Z.shiftr_nonneg; lia).
  assert (Hd1 : Zdigits2 m1 = Z.max 0 (D - (e1 - (ea + ew))))
    by (apply Zdigits2_shiftr; lia).
  assert (Hdr : Zdigits2 mr + e1 <= da + ea).
  { destruct (Z_lt_le_dec (D + (ea + ew)) (da + ea)) as [Hlt|Hge].
    - assert (Zdigits2 mr <= Zdigits2 m1 + 1); [|lia].
      destruct Hmr as [->| ->]; [lia|].
      destruct (@Zdigits2_succ m1 Hm1) as [E|[E _]]; lia.
    - assert (He1 : e1 = ea).
      { assert (fexp prec emax (D + (ea + ew)) = ea); [|lia].
        rewrite <- Hcana. f_equal. lia. }
      assert (Hlt : m1 < Zpos ma).
      { unfold m1. rewrite He1, Z.shiftr_div_pow2 by lia.
        replace (ea - (ea + ew)) with (- ew) by lia.
        apply Z.div_lt_upper_bound; [lia|]. rewrite Z.mul_comm. exact HP. }
      assert (Zdigits2 mr <= da); [|lia].
      apply Zdigits2_le. lia. }
  set (e2 := Z.max e1 (fexp prec emax (Zdigits2 mr + e1))).
  assert (He2 : e2 <= 971).
  { assert (fexp prec emax (Zdigits2 mr + e1) <= ea)
      by (rewrite <- Hcana; now apply fexp_le).
    lia. }
  assert (Hm2 : 0 <= Z.shiftr mr (e2 - e1)) by (apply Z.shiftr_nonneg; lia).
  destruct (Z.shiftr mr (e2 - e1)) as [|m2|m2]; [reflexivity| |lia].
  replace (e2 <=? emax - prec) with true; [reflexivity|].
  symmetry. apply Z.leb_le. unfold emax, prec. lia.
Qed.

(** A weight in [0,1] keeps a finite activation finite. *)
Lemma mul_finite (a w : float) :
  is_finite a = true -> Binary64.inside w = true -> is_finite (a * w) = true.
Proof.
  unfold Binary64.inside. intros Ha Hw. apply andb_prop in Hw as [H0 H1].
  rewrite is_finite_spec in *. rewrite leb_spec in H0, H1. rewrite mul_spec.
  rewrite Prim2SF_one in H1. rewrite Prim2SF_zero in H0.
  pose proof (Prim2SF_valid a) as Hva. pose proof (Prim2SF_valid w) as Hvw.
  destruct (Prim2SF a) as [sa|sa| |sa ma ea]; try discriminate;
    destruct (Prim2SF w) as [sw|sw| |sw mw ew]; try discriminate;
    try reflexivity; try (destruct sw; discriminate).
  destruct sw; [discriminate|]. clear H0.
  apply SFleb_finite in H1 as [Hlt|[-> Hle]].
  - apply SFmul_below_one; [assumption|assumption|lia].
  - destruct (@valid_normal _ _ _ Hvw ltac:(lia)) as [Hd _].
    pose proof (@Zdigits2_bounds (Zpos mw) ltac:(lia)) as [Hlo _].
    rewrite Hd in Hlo. change (2 ^ (53 - 1)) with (Zpos 4503599627370496) in Hlo.
    assert (Hmw : mw = 4503599627370496%positive)
      by (apply Pos2Z.inj; now apply Z.le_antisymm).
    subst mw. now rewrite SFmul_one.
Qed.

(** [1 - d] lies in [0,1] when [d] does. *)
Lemma SFsub_one (md : positive) (ed : Z) :
  valid_binary (S754_finite false md ed) = true -> ed <= -53 ->
  let r := SF64sub (S754_finite false 4503599627370496 (-52))
                   (S754_finite false md ed) in
  SFleb (S754_zero false) r = true /\
  SFleb r (S754_finite false 4503599627370496 (-52)) = true.
Proof.
  intros Hv Hed. destruct (@valid_canonical _ _ _ Hv) as [Hcan _].
  unfold SF64sub, SFsub. cbn [cond_Zopp].
  replace (Z.min (-52) ed) with ed by lia.
  pose proof (shl_align_spec 4503599627370496 (-52) ed) as [_ Ha1].
  pose proof (shl_align_spec md ed ed) as [_ Ha2].
  set (a1 := fst (shl_align 4503599627370496 (-52) ed)) in *.
  set (a2 := fst (shl_align md ed ed)) in *.
  replace (-52 - Z.min (-52) ed) with (-52 - ed) in Ha1 by lia.
  replace (ed - Z.min ed ed) with 0 in Ha2 by lia.
  rewrite Z.pow_0_r, Z.mul_1_r in Ha2.
  change (Zpos 4503599627370496) with (2 ^ 52) in Ha1.
  rewrite <- Z.pow_add_r in Ha1 by lia.
  replace (52 + (-52 - ed)) with (- ed) in Ha1 by lia.
  pose proof (@Zdigits2_bounds (Zpos md) ltac:(lia)) as [_ Hmd].
  assert (Hdd : Zdigits2 (Zpos md) <= - ed)
    by (unfold fexp, emin, prec, emax in Hcan; lia).
  assert (Hmd' : Zpos md < 2 ^ (- ed)).
  { apply Z.lt_le_trans with (2 ^ Zdigits2 (Zpos md)); [exact Hmd|].
    apply Z.pow_le_mono_r; lia. }
  destruct (Zpos a1 - Zpos a2) as [|z|z] eqn:Ez; try lia.
  cbn [binary_normalize]. unfold binary_round.
  pose proof (shl_align_spec z ed
                (fexp prec emax (Zpos (digits2_pos z) + ed))) as [Hez Hmz].
  destruct (shl_align z ed (fexp prec emax (Zpos (digits2_pos z) + ed)))
    as [mz ez'].
  cbn [fst snd] in Hez, Hmz.
  assert (Hz : Zdigits2 (Zpos z) <= - ed) by (apply Zdigits2_lt_pow; lia).
  assert (Hmag : Zdigits2 (Zpos mz) + ez' <= 0).
  { rewrite Hmz, Zdigits2_mul_pow2 by lia. lia. }
  assert (Hez' : ez' <= -53) by lia.
  destruct (@binary_round_aux_upper false (Zpos mz) ez' loc_Exact
              ltac:(lia) Hmag Hez') as [Hr|[m [e [Hr Hcase]]]];
    cbv zeta; rewrite Hr.
  - split; reflexivity.
  - split; [reflexivity|]. unfold SFleb, SFcompare.
    destruct Hcase as [Hlt|[-> ->]].
    + destruct (Z.compare_spec e (-52)); reflexivity || lia.
    + rewrite Z.compare_refl. now apply compare_cont_le.
Qed.

Lemma one_minus_inside (d : float) :
  Binary64.inside d = true -> Binary64.inside (1 - d) = true.
Proof.
  unfold Binary64.inside. intros Hd. apply andb_prop in Hd as [H0 H1].
  rewrite leb_spec in H0, H1. rewrite Prim2SF_one in H1.
  rewrite Prim2SF_zero in H0.
  pose proof (Prim2SF_valid d) as Hv.
  destruct (Prim2SF d) as [sd|sd| |sd md ed] eqn:Ed; try discriminate;
    try (destruct sd; discriminate).
  - rewrite !leb_spec, sub_spec, Ed, Prim2SF_one, Prim2SF_zero. reflexivity.
  - destruct sd; [discriminate|]. clear H0.
    apply SFleb_finite in H1 as [Hlt|[-> Hle]].
    + rewrite !leb_spec, sub_spec, Ed, Prim2SF_one, Prim2SF_zero.
      destruct (@SFsub_one md ed Hv ltac:(lia)) as [-> ->]. reflexivity.
    + destruct (@valid_normal _ _ _ Hv ltac:(lia)) as [Hdg _].
      pose proof (@Zdigits2_bounds (Zpos md) ltac:(lia)) as [Hlo _].
      rewrite Hdg in Hlo.
      change (2 ^ (53 - 1)) with (Zpos 4503599627370496) in Hlo.
      assert (Hmd : md = 4503599627370496%positive)
        by (apply Pos2Z.inj; now apply Z.le_antisymm).
      subst md. rewrite <- Prim2SF_one in Ed. apply Prim2SF_inj in Ed.
      subst d. reflexivity.
Qed.

End Binary64Facts.

(** X15.  The binary64 [sigmoid] at the special values, whatever
    approximation [Math.exp] makes elsewhere: it is 1/2 at both zeros, 1 at
    [Infinity], 0 at [-Infinity] and [NaN] at [NaN].  It reaches 1 before
    [Infinity]: where [Math.exp(-37)] and [Math.exp(-40)] are the doubles
    nearest to the exact values, [sigmoid(37)] and [sigmoid(40)] are both
    exactly 1. *)
Theorem sigmoid_special_values (approx : float -> float) :
  Binary64.sigmoid approx 0 = 0.5%float /\
  Binary64.sigmoid approx (-0) = 0.5%float /\
  Binary64.sigmoid approx infinity = 1%float /\
  Binary64.sigmoid approx neg_infinity = 0%float /\
  Binary64.sigmoid approx nan = nan /\
  (approx (-37)%float = 0x1.898471fca6055p-54%float ->
   approx (-40)%float = 0x1.39792499b1a24p-58%float ->
   Binary64.sigmoid approx 37 = 1%float /\ Binary64.sigmoid approx 40 = 1%float).
Proof.
  do 5 (split; [reflexivity|]).
  intros H37 H40. unfold Binary64.sigmoid, Binary64.Math_exp.
  change (PrimFloat.opp 37) with (-37)%float.
  change (PrimFloat.opp 40) with (-40)%float.
  change (is_nan (-37)) with false. change (is_zero (-37)) with false.
  change ((-37 =? infinity)%float) with false.
  change ((-37 =? neg_infinity)%float) with false.
  change (is_nan (-40)) with false. change (is_zero (-40)) with false.
  change ((-40 =? infinity)%float) with false.
  change ((-40 =? neg_infinity)%float) with false.
  cbv iota. rewrite H37, H40. split; reflexivity.
Qed.

(* ------------------------------------------------------------------ *)
(** ** A round on binary64 nodes *)

Lemma update_app_absent (V : Type) (f : V -> V) (k : string)
    (done m : JsMap.t V) :
  ~ In k (JsMap.keys done) ->
  JsMap.update k f (done ++ m) = done ++ JsMap.update k f m.
Proof.
  induction done as [|[k0 v0] done IH]; intros Hk; [reflexivity|].
  cbn [app JsMap.update]. cbn in Hk.
  destruct (String.eqb_spec k0 k) as [->|Hne]; [tauto|].
  rewrite IH by tauto. reflexivity.
Qed.

Lemma fold_update_values (V W : Type) (upd : W -> V -> V) (g : string * V -> W)
    (m done : JsMap.t V) :
  NoDup (JsMap.keys done ++ JsMap.keys m) ->
  fold_left (fun acc e => JsMap.update (fst e) (upd (snd e)) acc)
            (map (fun e => (fst e, g e)) m) (done ++ m)
  = done ++ map (fun e => (fst e, upd (g e) (snd e))) m.
Proof.
  revert done. induction m as [|[k v] m IH]; intros done Hnd; [reflexivity|].
  cbn [map fold_left fst snd].
  rewrite update_app_absent.
  - cbn [JsMap.update]. rewrite String.eqb_refl.
    change (done ++ (k, upd (g (k, v)) v) :: m)
      with (done ++ [(k, upd (g (k, v)) v)] ++ m).
    rewrite app_assoc, IH.
    + now rewrite <- app_assoc.
    + unfold JsMap.keys in *. rewrite map_app, <- app_assoc. exact Hnd.
  - cbn [JsMap.keys map fst] in Hnd. apply NoDup_remove_2 in Hnd.
    intros Hin. apply Hnd, in_or_app. now left.
Qed.

Lemma spreadActivation64_wf (approx : float -> float) (d : float)
    (nodes : JsMap.t Binary64.Node) :
  JsMap.wf nodes ->
  Binary64.spreadActivation approx d nodes
  = map (fun e =>
           (fst e,
            Binary64.Node_updateActivation
              (Binary64.sigmoid approx (input64 d nodes (snd e))) (snd e)))
        nodes.
Proof.
  intros Hwf. unfold Binary64.spreadActivation, Binary64.newActivations,
    JsMap.entries.
  rewrite (fold_set_fresh
             (fun e : string * Binary64.Node =>
                Binary64.newActivation approx (Binary64.activation (snd e)) d
                  (Binary64.connected nodes (snd e)))) by exact Hwf.
  cbn [app].
  apply (@fold_update_values _ _ Binary64.Node_updateActivation
           (fun e : string * Binary64.Node =>
                Binary64.newActivation approx (Binary64.activation (snd e)) d
                  (Binary64.connected nodes (snd e))) nodes []).
  exact Hwf.
Qed.

(** The input of [sigmoid] is a number when the activations are finite and
    the weights and the decay rate lie in [0,1]. *)
Lemma incoming_number (connected : list (float * float)) (incoming : float) :
  is_nan incoming = false ->
  (forall e, In e connected ->
             is_finite (fst e) = true /\ Binary64.inside (snd e) = true) ->
  is_nan (fold_left (fun incoming e => (incoming + fst e * snd e)%float)
                    connected incoming) = false.
Proof.
  revert incoming. induction connected as [|e l IH]; intros incoming Hnan Hall;
    [exact Hnan|].
  cbn [fold_left]. apply IH.
  - apply add_number_l; [exact Hnan|].
    destruct (Hall e (or_introl eq_refl)) as [Hfin Hin]. now apply mul_finite.
  - intros e' He'. apply Hall. now right.
Qed.

Lemma In_connected (nodes : JsMap.t Binary64.Node) (node : Binary64.Node)
    (p : float * float) :
  In p (Binary64.connected nodes node) ->
  exists t c, In (t, snd p) (Binary64.connections node) /\
              In (t, c) nodes /\ fst p = Binary64.activation c.
Proof.
  unfold Binary64.connected, JsMap.entries. intros Hin.
  apply in_flat_map in Hin as [[t w] [Hedge Hp]]. cbn [fst snd] in Hp.
  destruct (JsMap.has t nodes); [|destruct Hp].
  destruct (JsMap.get t nodes) as [c|] eqn:Hget; [|destruct Hp].
  destruct Hp as [<-|[]]. exists t, c. cbn [fst snd].
  split; [assumption|]. split; [now apply get_In | reflexivity].
Qed.

Lemma input64_number (d : float) (nodes : JsMap.t Binary64.Node)
    (node : Binary64.Node) :
  Binary64.inside d = true ->
  (forall k c, In (k, c) nodes -> is_finite (Binary64.activation c) = true) ->
  is_finite (Binary64.activation node) = true ->
  (forall t w, In (t, w) (Binary64.connections node) ->
               Binary64.inside w = true) ->
  is_nan (input64 d nodes node) = false.
Proof.
  intros Hd Hnodes Hnode Hweights. unfold input64.
  apply add_number_r.
  - apply mul_finite; [exact Hnode | now apply one_minus_inside].
  - apply incoming_number; [reflexivity|].
    intros p Hp. apply In_connected in Hp as (t & c & Hedge & Hc & ->).
    split; [now apply (Hnodes t c) | now apply (Hweights t (snd p))].
Qed.
Lemma step_exp_nonneg (y : float) : (0 <=? step_exp y)%float = true.
Proof. unfold step_exp. now destruct (y <? 0)%float. Qed.

(** C5, as the code has it.  A round of [spreadActivation] on binary64
    nodes keeps the node set and commits, for every node, the binary64 value
    of [sigmoid(x) = 1 / (1 + Math.exp(-x))] at the node's input [x] of
    before the round, [activation * (1 - decayRate)] plus the sum over its
    edges with a present target.  Whenever [x] is a number, the committed
    value lies in the closed interval [0,1]; when [x] is [NaN], it is
    [NaN].  For finite activations, weights in [0,1] and a decay rate in
    [0,1] every [x] is a number, so that every activation after the round
    lies in [0,1].  Both ends of the interval are committed for finite
    activations: two nodes of activation [2^1023] joined by edges of weight
    1 end at exactly 1, and with the opposite activations at exactly 0; two
    nodes of activations 1 and 0 joined by edges of weight [NaN] end at
    [NaN].  [Math.exp] enters by its ECMAScript values at the zeros, the
    infinities and [NaN] and, elsewhere, by an approximation that is never
    negative and never [NaN]. *)
Theorem spreadActivation_bounded :
  (forall approx : float -> float,
     (forall y, (0 <=? approx y)%float = true) ->
     forall (d : float) (nodes : JsMap.t Binary64.Node), JsMap.wf nodes ->
       JsMap.keys (Binary64.spreadActivation approx d nodes) = JsMap.keys nodes /\
       forall k n', In (k, n') (Binary64.spreadActivation approx d nodes) ->
         exists n, In (k, n) nodes /\
           Binary64.activation n'
           = Binary64.sigmoid approx (input64 d nodes n) /\
           (is_nan (input64 d nodes n) = false ->
            Binary64.inside (Binary64.activation n') = true) /\
           (is_nan (input64 d nodes n) = true ->
            Binary64.activation n' = nan)) /\
  (forall approx : float -> float,
     (forall y, (0 <=? approx y)%float = true) ->
     forall (d : float) (nodes : JsMap.t Binary64.Node), JsMap.wf nodes ->
       Binary64.inside d = true ->
       (forall k n, In (k, n) nodes ->
          is_finite (Binary64.activation n) = true /\
          forall t w, In (t, w) (Binary64.connections n) ->
                      Binary64.inside w = true) ->
       forall k n', In (k, n') (Binary64.spreadActivation approx d nodes) ->
         Binary64.inside (Binary64.activation n') = true) /\
  (forall approx : float -> float,
     is_finite 0x1p1023%float = true /\
     JsMap.values (Binary64.spreadActivation approx 0 (pair64 0x1p1023 0x1p1023 1))
     = [{| Binary64.activation := 1; Binary64.prevActivation := 0x1p1023;
           Binary64.connections := [("b", 1%float)] |};
        {| Binary64.activation := 1; Binary64.prevActivation := 0x1p1023;
           Binary64.connections := [("a", 1%float)] |}] /\
     JsMap.values (Binary64.spreadActivation approx 0
                     (pair64 (-0x1p1023) (-0x1p1023) 1))
     = [{| Binary64.activation := 0; Binary64.prevActivation := (-0x1p1023)%float;
           Binary64.connections := [("b", 1%float)] |};
        {| Binary64.activation := 0; Binary64.prevActivation := (-0x1p1023)%float;
           Binary64.connections := [("a", 1%float)] |}] /\
     JsMap.values (Binary64.spreadActivation approx 0.1 (pair64 1 0 nan))
     = [{| Binary64.activation := nan; Binary64.prevActivation := 1;
           Binary64.connections := [("b", nan)] |};
        {| Binary64.activation := nan; Binary64.prevActivation := 0;
           Binary64.connections := [("a", nan)] |}]).
Proof.
  assert (Hround : forall approx : float -> float,
     (forall y, (0 <=? approx y)%float = true) ->
     forall (d : float) (nodes : JsMap.t Binary64.Node), JsMap.wf nodes ->
       forall k n', In (k, n') (Binary64.spreadActivation approx d nodes) ->
         exists n, In (k, n) nodes /\
           Binary64.activation n'
           = Binary64.sigmoid approx (input64 d nodes n)).
  { intros approx Happrox d nodes Hwf k n'.
    rewrite spreadActivation64_wf by assumption.
    intros Hin. apply in_map_iff in Hin as [[k0 n] [Heq Hin]].
    cbn [fst snd] in Heq. injection Heq as -> <-.
    exists n. split; [assumption | reflexivity]. }
  split; [|split].
  - intros approx Happrox d nodes Hwf. split.
    + rewrite spreadActivation64_wf by assumption.
      unfold JsMap.keys. now rewrite map_map.
    + intros k n' Hin.
      destruct (Hround approx Happrox d nodes Hwf k n' Hin) as (n & Hn & ->).
      exists n. split; [assumption|]. split; [reflexivity|]. split.
      * now apply sigmoid_inside.
      * apply sigmoid_nan.
  - intros approx Happrox d nodes Hwf Hd Hall k n' Hin.
    destruct (Hround approx Happrox d nodes Hwf k n' Hin) as (n & Hn & ->).
    apply sigmoid_inside; [assumption|].
    apply input64_number; [assumption| | |].
    + intros k0 c Hc. apply (Hall k0 c Hc).
    + apply (Hall k n Hn).
    + apply (Hall k n Hn).
  - intros approx. repeat split; reflexivity.
Qed.

Lemma wf_pair64 (a b weight : float) : JsMap.wf (pair64 a b weight).
Proof.
  unfold JsMap.wf. cbn. repeat constructor; cbn; intuition discriminate.
Qed.

Lemma spreadActivation_bounded_witness :
  JsMap.wf (pair64 1 0 0.8) /\
  Binary64.inside 0.1 = true /\
  exists n',
    In ("a", n') (Binary64.spreadActivation step_exp 0.1 (pair64 1 0 0.8)) /\
    Binary64.inside (Binary64.activation n') = true.
Proof.
  split; [apply wf_pair64|]. split; [reflexivity|].
  eexists. split; [left; reflexivity|].
  apply (proj1 (proj2 spreadActivation_bounded) step_exp step_exp_nonneg
           0.1%float (pair64 1 0 0.8) (wf_pair64 1 0 0.8) eq_refl) with (k := "a").
  - intros k n [Hn|[Hn|[]]]; injection Hn as <- <-; split; try reflexivity;
      intros t w [Hw|[]]; injection Hw as <- <-; reflexivity.
  - left. reflexivity.
Defined.

(* ------------------------------------------------------------------ *)
(** ** [addConnection] on binary64 nodes *)

Lemma get_update (V : Type) (m : JsMap.t V) (k k' : string) (f : V -> V) :
  JsMap.get k' (JsMap.update k f m)
  = if String.eqb k' k then option_map f (JsMap.get k' m) else JsMap.get k' m.
Proof.
  destruct (String.eqb_spec k' k) as [->|Hne].
  - apply get_update_eq.
  - now apply get_update_neq.
Qed.

Lemma get_set (V : Type) (m : JsMap.t V) (k k' : string) (v : V) :
  JsMap.get k' (JsMap.set k v m)
  = if String.eqb k' k then Some v else JsMap.get k' m.
Proof.
  destruct (String.eqb_spec k' k) as [->|Hne].
  - apply get_set_eq.
  - now apply get_set_neq.
Qed.

(** C7 fails on the code for a weight that is [NaN].  With both endpoints
    present, [addConnection] on binary64 nodes returns, keeps the node set
    and the activations, and the edge maps are the old ones except that
    source->target, and with [bidirectional] also target->source, hold
    [Math.max(0, Math.min(1, weight))], whatever they held before; with an
    absent endpoint it throws "not found" for it.  For every weight that is
    a number this value lies in [0,1], equals the weight when that lies in
    [0,1], and is 0 for [-5] and 1 for [5].  For [NaN] it is [NaN], which is
    outside [0,1]: [addConnection("a", "b", NaN)] stores the weight [NaN] on
    both edges. *)
Theorem addConnection_weight_not_validated :
  (forall (source target : string) (weight : float) (bidirectional : bool)
          (nodes : JsMap.t Binary64.Node),
     (JsMap.has source nodes = false ->
      Binary64.addConnection source target weight bidirectional nodes
      = Throw (ConceptNotFound source)) /\
     (JsMap.has source nodes = true -> JsMap.has target nodes = false ->
      Binary64.addConnection source target weight bidirectional nodes
      = Throw (ConceptNotFound target)) /\
     (JsMap.has source nodes = true -> JsMap.has target nodes = true ->
      exists nodes',
        Binary64.addConnection source target weight bidirectional nodes
        = Return nodes' /\
        JsMap.keys nodes' = JsMap.keys nodes /\
        forall k n, JsMap.get k nodes = Some n ->
          exists n', JsMap.get k nodes' = Some n' /\
            Binary64.activation n' = Binary64.activation n /\
            Binary64.prevActivation n' = Binary64.prevActivation n /\
            forall t, JsMap.get t (Binary64.connections n')
                      = if (String.eqb k source && String.eqb t target)
                           || (bidirectional && String.eqb k target
                               && String.eqb t source)
                        then Some (Binary64.safeWeight weight)
                        else JsMap.get t (Binary64.connections n))) /\
  (forall weight : float, is_nan weight = false ->
     Binary64.inside (Binary64.safeWeight weight) = true) /\
  (forall weight : float, Binary64.inside weight = true ->
     (Binary64.safeWeight weight =? weight)%float = true) /\
  Binary64.safeWeight (-5) = 0%float /\ Binary64.safeWeight 5 = 1%float /\
  Binary64.safeWeight nan = nan /\ Binary64.inside nan = false /\
  Binary64.addConnection "a" "b" nan true (apart64 1 0)
  = Return (pair64 1 0 nan).
Proof.
  split; [|split; [exact safeWeight_inside|split; [exact safeWeight_keeps|]];
           repeat split; reflexivity].
  intros source target weight bidirectional nodes.
  unfold Binary64.addConnection. set (w := Binary64.safeWeight weight).
  split; [|split].
  - intros Hs. apply has_false_get in Hs. now rewrite Hs.
  - intros Hs Ht. apply has_get in Hs as [ns Hs]. apply has_false_get in Ht.
    now rewrite Hs, Ht.
  - intros Hs Ht. apply has_get in Hs as [ns Hs]. apply has_get in Ht as [nt Ht].
    rewrite Hs, Ht. eexists. split; [reflexivity|]. split.
    + destruct bidirectional; now rewrite ?keys_update.
    + intros k n Hk.
      exists (let n1 := if String.eqb k source
                        then Binary64.Node_addConnection target w n else n in
              if bidirectional && String.eqb k target
              then Binary64.Node_addConnection source w n1 else n1).
      split.
      * destruct bidirectional; cbn [andb]; rewrite ?get_update, Hk;
          destruct (String.eqb k source), (String.eqb k target); reflexivity.
      * cbv zeta.
        destruct bidirectional, (String.eqb k source), (String.eqb k target);
          cbn [andb orb Binary64.Node_addConnection Binary64.activation
               Binary64.prevActivation Binary64.connections];
          repeat split; intros t; rewrite ?get_set;
          destruct (String.eqb t target), (String.eqb t source); reflexivity.
Qed.
